(** * ai-workflows: pipeline context, fallback completion, fan-out and
      candidate selection

    A shallow embedding of the orchestration core of the repository
    (app/temporal/workflows, app/temporal/activities,
    app/core/providers/litellm, app/core/tools) and the properties of
    its specification and of the code around them.

    Conventions of the embedding:
    - Python [str] is [string], read as ASCII text; [str.lower] is the
      ASCII lower-casing and [str.encode] the identity on bytes.
    - Python [int] is [Z]; a [float] is the rational [Q] that the
      binary64 value denotes. Arithmetic that produces a float rounds to
      nearest, ties to even ([Float64.round]); an int divided by an int
      is the correctly rounded quotient and raises OverflowError beyond
      the largest float ([Float64.true_divide]). Infinities and NaN do
      not occur in the code modelled; a float literal that is only
      passed on is written as the decimal of the source.
    - [None] is [None]; an exception is a value of [exception]; code that
      can raise returns [exception + A].
    - A coroutine awaited by a workflow is its outcome, supplied by the
      runtime; logging is not modelled. *)

From Stdlib Require Import String Ascii List ZArith QArith Lia Bool.
From Stdlib Require Import Permutation Sorted DecimalString Qminmax Lqa Morphisms.
From Stdlib Require SpecFloat.
Import ListNotations.
Open Scope string_scope.
Open Scope list_scope.
Open Scope Z_scope.

(** ** Python values the code depends on *)

Module Py.

(** An exception object, of a subclass of [Exception]:
    [type(e).__name__], [str(e)], the
    [non_retryable] flag of temporalio's [ApplicationError] ([false] for
    every other class) and [__cause__] as set by [raise ... from ...]. *)
Inductive exception : Type :=
| Exc (exc_type : string) (exc_str : string) (non_retryable : bool)
| ExcFrom (exc_type : string) (exc_str : string) (non_retryable : bool)
          (cause : exception).

Definition type_name (e : exception) : string :=
  match e with Exc t _ _ | ExcFrom t _ _ _ => t end.
Definition str_exc (e : exception) : string :=
  match e with Exc _ m _ | ExcFrom _ m _ _ => m end.
Definition is_non_retryable (e : exception) : bool :=
  match e with Exc _ _ b | ExcFrom _ _ b _ => b end.
Definition exc_cause (e : exception) : option exception :=
  match e with Exc _ _ _ => None | ExcFrom _ _ _ c => Some c end.

Definition ApplicationError (msg : string) (non_retryable : bool) : exception :=
  Exc "ApplicationError" msg non_retryable.
Definition TypeError (msg : string) : exception := Exc "TypeError" msg false.
Definition ValueError (msg : string) : exception := Exc "ValueError" msg false.
Definition AttributeError (msg : string) : exception :=
  Exc "AttributeError" msg false.

(** Truthiness of [str | None] and of [int | None]. *)
Definition truthy_str (s : string) : bool :=
  match s with EmptyString => false | _ => true end.
Definition truthy_ostr (o : option string) : bool :=
  match o with Some s => truthy_str s | None => false end.
Definition truthy_int (z : Z) : bool := negb (z =? 0).

(** [a == b] on [str | None]. *)
Definition ostr_eqb (a b : option string) : bool :=
  match a, b with
  | Some x, Some y => String.eqb x y
  | None, None => true
  | _, _ => false
  end.

(** [x or default] on [str | None] and [int | None]. *)
Definition ostr_or (o : option string) (d : string) : string :=
  match o with Some s => if truthy_str s then s else d | None => d end.
Definition oint_or (o : option Z) (d : Z) : Z :=
  match o with Some z => if truthy_int z then z else d | None => d end.

(** [str.lower], on ASCII. *)
Definition lower_ascii (c : ascii) : ascii :=
  let n := nat_of_ascii c in
  if (65 <=? n)%nat && (n <=? 90)%nat then ascii_of_nat (n + 32) else c.
Fixpoint lower (s : string) : string :=
  match s with
  | EmptyString => EmptyString
  | String c s' => String (lower_ascii c) (lower s')
  end.

(** [needle in hay] *)
Fixpoint contains (needle hay : string) : bool :=
  if String.prefix needle hay then true
  else match hay with
       | EmptyString => false
       | String _ hay' => contains needle hay'
       end.

(** [s.split(sep)] for a one-character separator. *)
Fixpoint split (sep : ascii) (s : string) : list string :=
  match s with
  | EmptyString => [EmptyString]
  | String c s' =>
      if Ascii.eqb c sep then EmptyString :: split sep s'
      else match split sep s' with
           | h :: t => String c h :: t
           | [] => [String c EmptyString]
           end
  end.

(** [l[-n:]] and [l[:n]] *)
Definition last_n {A} (n : nat) (l : list A) : list A :=
  skipn (length l - n) l.
Definition first_n {A} (n : nat) (l : list A) : list A := firstn n l.

(** [sep.join(l)] *)
Definition join (sep : string) (l : list string) : string := String.concat sep l.

(** [s[:n]] *)
Definition str_prefix (n : nat) (s : string) : string := String.substring 0 n s.

(** [str(z)] for an [int]. *)
Definition str_int (z : Z) : string := NilZero.string_of_int (Z.to_int z).

(** What [json.loads] and [model_dump] produce. A [dict] keeps its items
    in insertion order with distinct keys; [dict_get] reads the first
    item of a key. *)
#[warnings="-register-all"]
Inductive value : Type :=
| VNone
| VBool (b : bool)
| VInt (z : Z)
| VFloat (q : Q)
| VStr (s : string)
| VList (l : list value)
| VDict (d : list (string * value)).

Definition truthy (v : value) : bool :=
  match v with
  | VNone => false
  | VBool b => b
  | VInt z => truthy_int z
  | VFloat q => negb (Qeq_bool q 0)
  | VStr s => truthy_str s
  | VList l => match l with [] => false | _ => true end
  | VDict d => match d with [] => false | _ => true end
  end.

Fixpoint assoc {A} (k : string) (d : list (string * A)) : option A :=
  match d with
  | [] => None
  | (k', v) :: d' => if String.eqb k' k then Some v else assoc k d'
  end.

(** [d.get(k, default)] *)
Definition dict_get (d : list (string * value)) (k : string) (default : value) : value :=
  match assoc k d with Some v => v | None => default end.

(** [{**d, **extra}] *)
Definition dict_update (d extra : list (string * value)) : list (string * value) :=
  fold_left
    (fun acc kv =>
       match assoc (fst kv) acc with
       | Some _ => map (fun kv' => if String.eqb (fst kv') (fst kv) then kv else kv') acc
       | None => acc ++ [kv]
       end) extra d.

(** [v.get(key, default)] on a value that may not be a dict. *)
Definition get (v : value) (key : string) (default : value) : exception + value :=
  match v with
  | VDict d => inr (dict_get d key default)
  | _ => inl (AttributeError "object has no attribute 'get'")
  end.

(** [for x in v] *)
Definition iterate (v : value) : exception + list value :=
  match v with
  | VList l => inr l
  | VDict d => inr (map (fun kv => VStr (fst kv)) d)
  | VStr s => inr (map (fun c => VStr (String c EmptyString)) (list_ascii_of_string s))
  | _ => inl (TypeError "object is not iterable")
  end.

(** The character [chr(34)], and [str(x)] for [x : str | None]. *)
Definition dq : string := String (ascii_of_nat 34) EmptyString.

Definition backslash : ascii := ascii_of_nat 92.

Definition hex_digit (n : nat) : ascii :=
  nth n ["0"; "1"; "2"; "3"; "4"; "5"; "6"; "7"; "8"; "9";
         "a"; "b"; "c"; "d"; "e"; "f"]%char "0"%char.

(** [repr(s)] for a [str]: single quotes, unless the string holds a
    single quote and no double quote; the quote and the backslash are
    escaped, and so are the characters that do not print. *)
Definition repr_quote (s : string) : ascii :=
  if contains "'" s && negb (contains dq s) then ascii_of_nat 34 else "'"%char.

Definition repr_char (quote c : ascii) : string :=
  let n := nat_of_ascii c in
  if Ascii.eqb c quote || Ascii.eqb c backslash
  then String backslash (String c EmptyString)
  else if (n =? 9)%nat then String backslash "t"
  else if (n =? 10)%nat then String backslash "n"
  else if (n =? 13)%nat then String backslash "r"
  else if (n <? 32)%nat || ((127 <=? n)%nat && (n <=? 160)%nat) || (n =? 173)%nat
  then String backslash
         (String "x" (String (hex_digit (n / 16))
                        (String (hex_digit (n mod 16)) EmptyString)))
  else String c EmptyString.

Fixpoint repr_body (quote : ascii) (s : string) : string :=
  match s with
  | EmptyString => EmptyString
  | String c s' => (repr_char quote c ++ repr_body quote s')%string
  end.

Definition repr (s : string) : string :=
  let quote := repr_quote s in
  String quote (repr_body quote s ++ String quote EmptyString)%string.

Definition str_ostr (o : option string) : string :=
  match o with Some s => s | None => "None" end.

End Py.
Import Py.

(** ** Python floats *)

Module Float64.

(** The binary exponent of the positive rational [n / d]: the [e] with
    [2 ^ (e - 1) <= n / d < 2 ^ e]. *)
Definition exponent (n : Z) (d : positive) : Z :=
  let k := Z.log2 n - Z.log2 (Zpos d) in
  if (if 0 <=? k then Zpos d * 2 ^ k <=? n else Zpos d <=? n * 2 ^ (- k))
  then k + 1 else k.

(** [num / den] rounded to the nearest integer, ties to even, for a
    positive [den]. *)
Definition round_div (num den : Z) : Z :=
  let (m, r) := Z.div_eucl num den in
  match 2 * r ?= den with
  | Lt => m
  | Gt => m + 1
  | Eq => if Z.even m then m else m + 1
  end.

(** The binary64 number nearest to [x], ties to even: a multiple of the
    quantum [2 ^ fe], where [fe] is the exponent of [x] less the 53 bits
    of the significand, and at least -1074 (subnormal numbers). The
    exponent is not bounded above. *)
Definition round (x : Q) : Q :=
  let n := Qnum (Qred x) in
  let d := Qden (Qred x) in
  if n =? 0 then 0%Q
  else
    let fe := Z.max (exponent (Z.abs n) d - 53) (-1074) in
    if fe <=? 0
    then Qred (round_div (n * 2 ^ (- fe)) (Zpos d) # Z.to_pos (2 ^ (- fe)))
    else inject_Z (round_div n (Zpos d * 2 ^ fe) * 2 ^ fe).

(** [a + b] and [a - b] on floats, where the result is finite. *)
Definition fadd (a b : Q) : Q := round (a + b).
Definition fsub (a b : Q) : Q := round (a - b).

Definition OverflowError : exception :=
  Exc "OverflowError" "integer division result too large for a float" false.
Definition ZeroDivisionError : exception :=
  Exc "ZeroDivisionError" "division by zero" false.

(** Whether a rounded value lies beyond the largest float. *)
Definition too_large (x : Q) : bool :=
  Qle_bool (inject_Z (2 ^ 1024)) x || Qle_bool x (- inject_Z (2 ^ 1024)).

(** [a / b] for two ints. *)
Definition true_divide (a b : Z) : exception + Q :=
  if b =? 0 then inl ZeroDivisionError
  else
    let q := round (inject_Z a / inject_Z b) in
    if too_large q then inl OverflowError else inr q.

End Float64.

(** The division of two ints and the addition of an int to its result,
    from the IEEE 754 specification of the Standard Library
    ([SpecFloat], 53 bits of precision, exponents up to 1024), to
    compare [Float64] with. *)
Module IEEE.

Definition of_int (z : Z) : SpecFloat.spec_float :=
  SpecFloat.binary_normalize 53 1024 z 0 false.

(** The rational a finite float denotes, in lowest terms. *)
Definition to_Q (f : SpecFloat.spec_float) : option Q :=
  match f with
  | SpecFloat.S754_zero _ => Some 0%Q
  | SpecFloat.S754_finite s m e =>
      let v := if 0 <=? e then inject_Z (Zpos m * 2 ^ e)
               else (Zpos m # Z.to_pos (2 ^ (- e)))%Q in
      Some (Qred (if s then - v else v)%Q)
  | _ => None
  end.

(** [a / b + c] for three ints. *)
Definition divide_add (a b c : Z) : option Q :=
  to_Q (SpecFloat.SFadd 53 1024
          (SpecFloat.SFdiv 53 1024 (of_int a) (of_int b)) (of_int c)).

End IEEE.

(** ** hashlib.md5, as the diversity fingerprint uses it *)

Module MD5.

Definition mask32 (x : Z) : Z := Z.land x 0xffffffff.
Definition not32 (x : Z) : Z := Z.lxor x 0xffffffff.
Definition rotl32 (x c : Z) : Z :=
  mask32 (Z.lor (Z.shiftl x c) (Z.shiftr x (32 - c))).

Definition shifts : list Z :=
  [7; 12; 17; 22; 7; 12; 17; 22; 7; 12; 17; 22; 7; 12; 17; 22;
   5; 9; 14; 20; 5; 9; 14; 20; 5; 9; 14; 20; 5; 9; 14; 20;
   4; 11; 16; 23; 4; 11; 16; 23; 4; 11; 16; 23; 4; 11; 16; 23;
   6; 10; 15; 21; 6; 10; 15; 21; 6; 10; 15; 21; 6; 10; 15; 21].

Definition sines : list Z :=
  [0xd76aa478; 0xe8c7b756; 0x242070db; 0xc1bdceee;
   0xf57c0faf; 0x4787c62a; 0xa8304613; 0xfd469501;
   0x698098d8; 0x8b44f7af; 0xffff5bb1; 0x895cd7be;
   0x6b901122; 0xfd987193; 0xa679438e; 0x49b40821;
   0xf61e2562; 0xc040b340; 0x265e5a51; 0xe9b6c7aa;
   0xd62f105d; 0x02441453; 0xd8a1e681; 0xe7d3fbc8;
   0x21e1cde6; 0xc33707d6; 0xf4d50d87; 0x455a14ed;
   0xa9e3e905; 0xfcefa3f8; 0x676f02d9; 0x8d2a4c8a;
   0xfffa3942; 0x8771f681; 0x6d9d6122; 0xfde5380c;
   0xa4beea44; 0x4bdecfa9; 0xf6bb4b60; 0xbebfbc70;
   0x289b7ec6; 0xeaa127fa; 0xd4ef3085; 0x04881d05;
   0xd9d4d039; 0xe6db99e5; 0x1fa27cf8; 0xc4ac5665;
   0xf4292244; 0x432aff97; 0xab9423a7; 0xfc93a039;
   0x655b59c3; 0x8f0ccc92; 0xffeff47d; 0x85845dd1;
   0x6fa87e4f; 0xfe2ce6e0; 0xa3014314; 0x4e0811a1;
   0xf7537e82; 0xbd3af235; 0x2ad7d2bb; 0xeb86d391].

Definition state : Type := (Z * Z * Z * Z)%type.
Definition initial : state := (0x67452301, 0xefcdab89, 0x98badcfe, 0x10325476).

Definition at_ (l : list Z) (i : Z) : Z := nth (Z.to_nat i) l 0.

Definition operation (words : list Z) (st : state) (i : Z) : state :=
  let '(a, b, c, d) := st in
  let '(f, g) :=
    if i <? 16 then (Z.lor (Z.land b c) (Z.land (not32 b) d), i)
    else if i <? 32 then
      (Z.lor (Z.land d b) (Z.land (not32 d) c), (5 * i + 1) mod 16)
    else if i <? 48 then (Z.lxor (Z.lxor b c) d, (3 * i + 5) mod 16)
    else (Z.lxor c (Z.lor b (not32 d)), (7 * i) mod 16) in
  let f' := mask32 (f + a + at_ sines i + at_ words g) in
  (d, mask32 (b + rotl32 f' (at_ shifts i)), b, c).

Fixpoint words_of (n : nat) (bytes : list Z) : list Z :=
  match n, bytes with
  | S n', b0 :: b1 :: b2 :: b3 :: rest =>
      (b0 + Z.shiftl b1 8 + Z.shiftl b2 16 + Z.shiftl b3 24) :: words_of n' rest
  | _, _ => []
  end.

Definition block (st : state) (bytes : list Z) : state :=
  let '(a0, b0, c0, d0) := st in
  let '(a, b, c, d) :=
    fold_left (operation (words_of 16 bytes)) (map Z.of_nat (seq 0 64)) st in
  (mask32 (a0 + a), mask32 (b0 + b), mask32 (c0 + c), mask32 (d0 + d)).

Fixpoint blocks (n : nat) (st : state) (bytes : list Z) : state :=
  match n with
  | O => st
  | S n' => blocks n' (block st (firstn 64 bytes)) (skipn 64 bytes)
  end.

Definition le_bytes (n : nat) (x : Z) : list Z :=
  map (fun i => Z.land (Z.shiftr x (8 * Z.of_nat i)) 0xff) (seq 0 n).

Definition pad (bytes : list Z) : list Z :=
  let len := Z.of_nat (length bytes) in
  bytes ++ [0x80] ++ repeat 0 (Z.to_nat ((55 - len) mod 64))
        ++ le_bytes 8 (Z.land (8 * len) 0xffffffffffffffff).

Definition hex_digit (x : Z) : ascii :=
  nth (Z.to_nat x) (list_ascii_of_string "0123456789abcdef") "0"%char.
Definition hex_byte (x : Z) : string :=
  String (hex_digit (Z.shiftr x 4)) (String (hex_digit (Z.land x 15)) EmptyString).

Definition encode (s : string) : list Z :=
  map (fun c => Z.of_nat (nat_of_ascii c)) (list_ascii_of_string s).

(** [hashlib.md5(s.encode()).hexdigest()] *)
Definition hexdigest (s : string) : string :=
  let padded := pad (encode s) in
  let '(a, b, c, d) := blocks (length padded / 64) initial padded in
  String.concat "" (map hex_byte (le_bytes 4 a ++ le_bytes 4 b ++ le_bytes 4 c ++ le_bytes 4 d)).

End MD5.

(** ** Code with state that may raise *)

Module Eff.

(** A computation over a state [S] returns a value or the exception it
    raised, with the state as the code left it. *)
Definition ST (S A : Type) : Type := S -> (exception + A) * S.

Definition ret {S A} (a : A) : ST S A := fun s => (inr a, s).
Definition raise {S A} (e : exception) : ST S A := fun s => (inl e, s).
Definition bind {S A B} (m : ST S A) (k : A -> ST S B) : ST S B :=
  fun s =>
    match m s with
    | (inr a, s') => k a s'
    | (inl e, s') => (inl e, s')
    end.
(** [try: m except Exception as e: handler(e)] *)
Definition try_except {S A} (m : ST S A) (handler : exception -> ST S A) : ST S A :=
  fun s =>
    match m s with
    | (inr a, s') => (inr a, s')
    | (inl e, s') => handler e s'
    end.

Notation "x <- m ;; k" := (bind m (fun x => k))
  (at level 61, m at next level, right associativity).
Notation "m ;;; k" := (bind m (fun _ => k))
  (at level 61, right associativity).

End Eff.

(** ** app/temporal/schemas.py *)

Inductive WorkflowStatus : Type :=
  PENDING | RUNNING | COMPLETED | FAILED | CANCELLED.

(** The statuses the specification calls terminal. *)
Definition terminal (s : WorkflowStatus) : bool :=
  match s with COMPLETED | FAILED | CANCELLED => true | _ => false end.

Record StepProgress : Type := mkStepProgress {
  step_id : string;
  step_name : string;
  status : WorkflowStatus;
  progress_pct : Z;
  message : option string
}.

Record WorkflowInput : Type := mkWorkflowInput {
  secret_key : option string;
  rewrite_enabled : bool;
  rewrite_device : option string
}.

Record StorageUploadInput : Type := mkStorageUploadInput {
  su_url : string;
  su_content_type : string;
  su_folder : string
}.

Record StorageUploadOutput : Type := mkStorageUploadOutput {
  so_url : string;
  so_key : string
}.

Record UGCPersonInput : Type := mkUGCPersonInput {
  ugc_gender : string; ugc_age_range : string; ugc_emotion : string;
  ugc_style : string; ugc_background : string; ugc_hair_color : string;
  ugc_ethnicity : string; ugc_clothing : string; ugc_context : option string
}.

Record UGCPersonOutput : Type := mkUGCPersonOutput {
  json_prompt : list (string * value);
  text_prompt : string
}.

Record UGCVideoReactionInput : Type := mkUGCVideoReactionInput {
  vr_emotion : string; vr_context : option string; vr_duration : Z
}.

Record UGCVideoReactionOutput : Type := mkUGCVideoReactionOutput {
  movements : list string;
  video_prompt : string
}.

(** [ImageGenerationOutput], [VideoGenerationOutput], [SlowDownVideoOutput]
    and [TextOverlayActivityOutput]: the workflows read [output_url] only. *)
Record GenerationOutput : Type := mkGenerationOutput { output_url : string }.

(** The two settings of app/core/configs/app.py that [start] reads. *)
Record AppConfig : Type := mkAppConfig {
  WORKFLOW_SECRET_ENABLED : bool;
  WORKFLOW_SECRET_KEY : option string
}.

(** ** app/core/providers/litellm/schemas.py *)

Inductive MessageRole : Type := SYSTEM | USER | ASSISTANT.

Record Message : Type := mkMessage { role : MessageRole; content : string }.

Record FallbackConfig : Type := mkFallbackConfig {
  enabled : bool;
  fallback_model : string;
  max_retries : Z;
  retry_exceptions : list string
}.

Definition default_retry_exceptions : list string :=
  ["RateLimitError"; "APIConnectionError"; "Timeout"; "ServiceUnavailableError"].

Record CompletionRequest : Type := mkCompletionRequest {
  messages : list Message;
  model : option string;
  temperature : Q;
  max_tokens : Z;
  json_mode : bool;
  timeout : option Z
}.

Record UsageInfo : Type := mkUsageInfo {
  prompt_tokens : Z; completion_tokens : Z; total_tokens : Z
}.

Record CompletionResponse : Type := mkCompletionResponse {
  cr_content : string;
  cr_model : string;
  cr_usage : UsageInfo;
  fallback_used : bool;
  parsed : option value
}.

(** ** app/temporal/activities: inputs and outputs the workflows use *)

Record SlowDownVideoInput : Type := mkSlowDownVideoInput {
  sd_video_url : string; speed_factor : Q; preserve_audio : bool;
  sd_output_folder : string
}.

Record TextOverlayActivityInput : Type := mkTextOverlayActivityInput {
  to_video_url : string; to_text : string; position : string; font : string;
  font_color : string; font_scale_factor : Q; background_color : option string;
  padding : Z; border_width : Z; border_color : string;
  max_chars_per_line : Z; to_output_folder : string
}.

Record RewriteVideoInput : Type := mkRewriteVideoInput {
  rv_video_url : string; playback_speed : Q; rv_device : option string
}.

Record RewriteVideoOutput : Type := mkRewriteVideoOutput {
  rv_original_url : string; rewritten_url : string
}.

Record RewriteImagesInput : Type := mkRewriteImagesInput {
  ri_image_urls : list string; ri_device : option string
}.

Record RewriteImagesOutput : Type := mkRewriteImagesOutput {
  ri_original_urls : list string; rewritten_urls : list string
}.

Record ExecuteToolInput : Type := mkExecuteToolInput {
  ti_tool_id : string; params : list (string * value)
}.

Record ExecuteToolOutput : Type := mkExecuteToolOutput {
  to_tool_id : string;
  success : bool;
  output : list (string * value);
  error : option string
}.

(** An activity with its positional arguments, as handed to
    [workflow.execute_activity]. *)
Inductive activity : Type :=
| generate_ugc_person (i : UGCPersonInput)
| generate_ugc_video_reaction (i : UGCVideoReactionInput)
| generate_image_with_model (model_id : string) (model_input : list (string * value))
| generate_video_with_model (model_id : string) (model_input : list (string * value))
| slow_down_video (i : SlowDownVideoInput)
| add_text_overlay (i : TextOverlayActivityInput)
| rewrite_video (i : RewriteVideoInput)
| rewrite_images (i : RewriteImagesInput)
| upload_to_storage (i : StorageUploadInput)
| execute_tool (i : ExecuteToolInput)
| generate_json (i : CompletionRequest).

(** The declared return type of each activity. *)
Definition result_of (a : activity) : Type :=
  match a with
  | generate_ugc_person _ => UGCPersonOutput
  | generate_ugc_video_reaction _ => UGCVideoReactionOutput
  | generate_image_with_model _ _ | generate_video_with_model _ _
  | slow_down_video _ | add_text_overlay _ => GenerationOutput
  | rewrite_video _ => RewriteVideoOutput
  | rewrite_images _ => RewriteImagesOutput
  | upload_to_storage _ => StorageUploadOutput
  | execute_tool _ => ExecuteToolOutput
  | generate_json _ => CompletionResponse
  end.

(** [temporalio.common.RetryPolicy]; intervals in seconds. *)
Record RetryPolicy : Type := mkRetryPolicy {
  initial_interval : Q;
  backoff_coefficient : Q;
  maximum_interval : option Q;
  maximum_attempts : Z
}.

(** One [workflow.execute_activity] call: the activity and the keyword
    arguments [run_activity] builds for it. *)
Record activity_call : Type := mkCall {
  call_activity : activity;
  start_to_close_timeout : Q;          (* minutes *)
  call_retry_policy : RetryPolicy;
  heartbeat_timeout : option Q         (* seconds *)
}.

(** The hosting runtime: the outcome of an activity, after its retries,
    given the calls executed before it. *)
Definition runtime : Type :=
  forall (history : list activity_call) (a : activity), exception + result_of a.

(** ** app/temporal/workflows/base.py *)

Module Base.
Import Eff.

Definition FAST_RETRY : RetryPolicy := mkRetryPolicy 1 2 None 3.
Definition SLOW_RETRY : RetryPolicy := mkRetryPolicy 5 2 (Some 600%Q) 3.
Definition LONG_RETRY : RetryPolicy := mkRetryPolicy 10 2 (Some 1800%Q) 3.

Record WorkflowContext : Type := mkContext {
  _status : WorkflowStatus;
  _current_step : option StepProgress;
  _completed_steps : list string;
  _outputs : list (string * value)
}.

(** [WorkflowContext.__init__] *)
Definition init : WorkflowContext := mkContext PENDING None [] [].

(** What a workflow run acts on: its context and the activities the
    runtime has executed for it so far. *)
Record world : Type := mkWorld {
  ctx : WorkflowContext;
  executed : list activity_call
}.

Definition new_world : world := mkWorld init [].

(** Workflow code mutates the context, executes activities and may raise. *)
Definition M (A : Type) : Type := ST world A.

Definition modify (f : WorkflowContext -> WorkflowContext) : M unit :=
  fun w => (inr tt, mkWorld (f (ctx w)) (executed w)).

Definition set_status (s : WorkflowStatus) (c : WorkflowContext) :=
  mkContext s (_current_step c) (_completed_steps c) (_outputs c).
Definition set_current_step (p : option StepProgress) (c : WorkflowContext) :=
  mkContext (_status c) p (_completed_steps c) (_outputs c).
Definition append_completed (sid : string) (c : WorkflowContext) :=
  mkContext (_status c) (_current_step c) (_completed_steps c ++ [sid]) (_outputs c).

(** [WorkflowContext.start] *)
Definition start (cfg : AppConfig) (input : WorkflowInput) : M unit :=
  if WORKFLOW_SECRET_ENABLED cfg then
    if negb (truthy_ostr (WORKFLOW_SECRET_KEY cfg)) then
      raise (ApplicationError "WORKFLOW_SECRET_KEY not configured on server" true)
    else if negb (ostr_eqb (secret_key input) (WORKFLOW_SECRET_KEY cfg)) then
      raise (ApplicationError "Authentication failed: invalid secret_key" true)
    else modify (set_status RUNNING)
  else modify (set_status RUNNING).

(** [WorkflowContext.complete] *)
Definition complete : M unit :=
  modify (fun c =>
    set_current_step
      (Some (mkStepProgress "complete" "Complete" COMPLETED 100 (Some "Done!")))
      (set_status COMPLETED c)).

(** [WorkflowContext.fail] *)
Definition fail (error : string) : M unit :=
  modify (fun c =>
    let c' := set_status FAILED c in
    match _current_step c' with
    | Some p =>
        set_current_step
          (Some (mkStepProgress (step_id p) (step_name p) FAILED
                                (progress_pct p) (Some error))) c'
    | None => c'
    end).

(** The three moments of the [step] context manager: entering the
    [async with] block, leaving it normally, leaving it by an exception. *)
Definition step_enter (sid name : string) (pct : Z) (msg : string) : M unit :=
  modify (set_current_step
    (Some (mkStepProgress sid name RUNNING pct
             (Some (if truthy_str msg then msg else (name ++ "...")%string))))).

Definition none_has_no_status : exception :=
  AttributeError "'NoneType' object has no attribute 'status'".

Definition step_complete (sid : string) : M unit :=
  fun w =>
    match _current_step (ctx w) with
    | Some p =>
        (inr tt,
         mkWorld
           (append_completed sid
              (set_current_step
                 (Some (mkStepProgress (step_id p) (step_name p) COMPLETED
                                       (progress_pct p) (message p))) (ctx w)))
           (executed w))
    | None =>
        (* raised inside the [try], caught by the [except] clause, whose
           first statement raises it again *)
        (inl none_has_no_status, w)
    end.

Definition step_fail (e : exception) : M unit :=
  fun w =>
    match _current_step (ctx w) with
    | Some p =>
        (inr tt,
         mkWorld
           (set_status FAILED
              (set_current_step
                 (Some (mkStepProgress (step_id p) (step_name p) FAILED
                                       (progress_pct p) (Some (str_exc e)))) (ctx w)))
           (executed w))
    | None => (inl none_has_no_status, w)
    end.

(** [async with ctx.step(step_id, step_name, progress_pct, message): body].
    An exception of the body is raised again after [step_fail]. *)
Definition step {A} (sid name : string) (pct : Z) (msg : string)
           (body : M A) : M A :=
  step_enter sid name pct msg ;;;
  try_except (a <- body ;; step_complete sid ;;; ret a)
             (fun e => step_fail e ;;; raise e).

(** [set_output] / [get_output] *)
Definition set_output (key : string) (v : value) : M unit :=
  modify (fun c =>
    mkContext (_status c) (_current_step c) (_completed_steps c)
              (dict_update (_outputs c) [(key, v)])).
Definition get_output (key : string) : M value :=
  fun w => (inr (dict_get (_outputs (ctx w)) key VNone), w).

(** [run_activity]: build the keyword arguments, let the runtime execute
    the activity, return its result or raise its exception. *)
Definition run_activity (rt : runtime) (a : activity) (timeout_minutes : Q)
           (heartbeat_seconds : option Q) (retry_policy : option RetryPolicy)
  : M (result_of a) :=
  fun w =>
    let call :=
      mkCall a timeout_minutes
             (match retry_policy with Some p => p | None => FAST_RETRY end)
             (match heartbeat_seconds with
              | Some h => if Qeq_bool h 0 then None else Some h
              | None => None
              end) in
    (rt (executed w) a, mkWorld (ctx w) (executed w ++ [call])).

(** [asyncio.gather] with [return_exceptions=True]: every task runs
    and contributes its outcome, in the order of [tasks]. *)
Fixpoint gather_return_exceptions {A} (tasks : list (M A)) : M (list (exception + A)) :=
  match tasks with
  | [] => ret []
  | t :: rest =>
      fun w =>
        let '(r, w') := t w in
        match gather_return_exceptions rest w' with
        | (inr rs, w'') => (inr (r :: rs), w'')
        | (inl e, w'') => (inl e, w'')
        end
  end.

(** [upload_output] *)
Definition upload_output (rt : runtime) (url folder : string) : M string :=
  result <- run_activity rt (upload_to_storage (mkStorageUploadInput url "auto" folder))
                         2 None None ;;
  ret (so_url result).

(** [maybe_rewrite_images] *)
Definition maybe_rewrite_images (rt : runtime) (image_urls : list string)
           (input : WorkflowInput) : M (list string) :=
  if negb (rewrite_enabled input) || match image_urls with [] => true | _ => false end
  then ret image_urls
  else
    result <- run_activity rt
                (rewrite_images (mkRewriteImagesInput image_urls (rewrite_device input)))
                3 None None ;;
    ret (rewritten_urls result).

Definition IndexError : exception := Exc "IndexError" "list index out of range" false.

(** [maybe_rewrite_image] *)
Definition maybe_rewrite_image (rt : runtime) (image_url : string)
           (input : WorkflowInput) : M string :=
  if negb (rewrite_enabled input) then ret image_url
  else
    urls <- maybe_rewrite_images rt [image_url] input ;;
    match urls with
    | u :: _ => ret u
    | [] => raise IndexError
    end.

(** [maybe_rewrite_video] *)
Definition maybe_rewrite_video (rt : runtime) (video_url : string)
           (input : WorkflowInput) (playback_speed : Q) : M string :=
  if negb (rewrite_enabled input) then ret video_url
  else
    result <- run_activity rt
                (rewrite_video (mkRewriteVideoInput video_url playback_speed (rewrite_device input)))
                3 None None ;;
    ret (rewritten_url result).

End Base.

(** ** The context operations as an alphabet, and workflow runs *)

Module Protocol.
Import Eff Base.

(** The operations the specification lists: start, step entry, step
    completion, step failure, complete, fail. *)
Inductive op : Type :=
| OpStart (cfg : AppConfig) (input : WorkflowInput)
| OpStepEnter (sid name : string) (pct : Z) (msg : string)
| OpStepComplete (sid : string)
| OpStepFail (e : exception)
| OpComplete
| OpFail (error : string).

Definition run_op (o : op) : M unit :=
  match o with
  | OpStart cfg input => start cfg input
  | OpStepEnter sid name pct msg => step_enter sid name pct msg
  | OpStepComplete sid => step_complete sid
  | OpStepFail e => step_fail e
  | OpComplete => complete
  | OpFail error => fail error
  end.

(** The status an observer polling [status] reads after each operation
    of a sequence, each operation applied whether or not the one before
    raised. *)
Fixpoint observed (os : list op) (w : world) : list WorkflowStatus :=
  match os with
  | [] => []
  | o :: os' =>
      let w' := snd (run_op o w) in _status (ctx w') :: observed os' w'
  end.

(** Both [run] methods call [start(input)], then run a sequence of
    blocks [async with step(...): body], then call [complete()]; a body
    does not call the context and either returns or raises.
    [RubyWorkflow.run] also reads [AspectRatio(input.aspect_ratio)]
    between [start] and its first step, which [Ruby.run] has and a
    [step_spec] list has not: [run] below is a run whose input passes
    there. A [step_spec] is one [async with] block with the outcome of
    its body. *)
Record step_spec : Type := mkStep {
  sp_id : string; sp_name : string; sp_pct : Z; sp_msg : string;
  sp_raises : option exception
}.

Definition body_of (s : step_spec) : M unit :=
  match sp_raises s with Some e => raise e | None => ret tt end.

Fixpoint run_steps (steps : list step_spec) : M unit :=
  match steps with
  | [] => ret tt
  | s :: rest =>
      step (sp_id s) (sp_name s) (sp_pct s) (sp_msg s) (body_of s) ;;;
      run_steps rest
  end.

Definition run (cfg : AppConfig) (input : WorkflowInput)
           (steps : list step_spec) : M unit :=
  start cfg input ;;; run_steps steps ;;; complete.

(** The context operations a run performs, in order: it stops at the
    first operation that raises. *)
Fixpoint ops_of_steps (steps : list step_spec) : list op :=
  match steps with
  | [] => [OpComplete]
  | s :: rest =>
      OpStepEnter (sp_id s) (sp_name s) (sp_pct s) (sp_msg s) ::
      match sp_raises s with
      | Some e => [OpStepFail e]
      | None => OpStepComplete (sp_id s) :: ops_of_steps rest
      end
  end.

Definition ops_of_run (cfg : AppConfig) (input : WorkflowInput)
           (steps : list step_spec) : list op :=
  OpStart cfg input ::
  match fst (start cfg input new_world) with
  | inl _ => []
  | inr _ => ops_of_steps steps
  end.

End Protocol.

(** ** app/core/providers/litellm/client.py *)

Module LiteLLM.
Import Eff.

(** The keyword arguments of one [litellm.acompletion] call. *)
Record acompletion_kwargs : Type := mkKwargs {
  kw_model : string;
  kw_messages : list (string * string);
  kw_temperature : Q;
  kw_max_tokens : Z;
  kw_timeout : Z;
  kw_num_retries : Z;
  kw_response_format_json : bool
}.

(** What [_complete_with_model] reads of the provider's response: the
    message content of each choice, and the usage. *)
Record ModelResponse : Type := mkModelResponse {
  choices : list (option string);
  usage : option UsageInfo
}.

(** The provider: the outcome of an [acompletion] call, given the calls
    made before it. *)
Definition provider : Type :=
  list acompletion_kwargs -> acompletion_kwargs -> exception + ModelResponse.

(** Client code runs over the list of provider calls made so far. *)
Definition L (A : Type) : Type := ST (list acompletion_kwargs) A.

Record LiteLLMClient : Type := mkClient {
  _primary_model : string;
  _fallback_config : FallbackConfig;
  _timeout : Z
}.

Definition role_value (r : MessageRole) : string :=
  match r with SYSTEM => "system" | USER => "user" | ASSISTANT => "assistant" end.

Definition acompletion (llm : provider) (kw : acompletion_kwargs) : L ModelResponse :=
  fun calls => (llm calls kw, calls ++ [kw]).

Definition ValidationError (msg : string) : exception := Exc "ValidationError" msg false.

Section Client.

(** [json.loads]: [None] stands for [JSONDecodeError]. *)
Variable json_loads : string -> option value.
Variable llm : provider.

(** The keyword arguments [_complete_with_model] builds. *)
Definition build_kwargs (self : LiteLLMClient) (request : CompletionRequest)
           (model : string) : acompletion_kwargs :=
  mkKwargs model
           (map (fun msg => (role_value (role msg), content msg)) (messages request))
           (temperature request) (max_tokens request)
           (match timeout request with
            | Some t => if truthy_int t then t else _timeout self
            | None => _timeout self
            end)
           (max_retries (_fallback_config self))
           (json_mode request).

(** [LiteLLMClient._complete_with_model] *)
Definition _complete_with_model (self : LiteLLMClient) (request : CompletionRequest)
           (model : string) (fallback_used : bool) : L CompletionResponse :=
  let kwargs := build_kwargs self request model in
  response <- acompletion llm kwargs ;;
  match choices response with
  | [] => raise Base.IndexError
  | choice :: _ =>
      let content := ostr_or choice "" in
      let parsed := if json_mode request then json_loads content else None in
      let usage :=
        match usage response with Some u => u | None => mkUsageInfo 0 0 0 end in
      match parsed with
      | Some (VDict _) | None =>
          ret (mkCompletionResponse content model usage fallback_used parsed)
      | Some _ =>
          (* the [parsed] field is declared [dict | None] *)
          raise (ValidationError "parsed: Input should be a valid dictionary")
      end
  end.

Definition transient_indicators : list string :=
  ["rate limit"; "timeout"; "connection"; "unavailable"; "overloaded";
   "429"; "503"; "502"].

(** [LiteLLMClient._should_fallback] *)
Definition _should_fallback (self : LiteLLMClient) (error : exception) : bool :=
  let error_type := type_name error in
  if existsb (fun exc_name =>
                contains exc_name error_type
                || contains (lower exc_name) (lower (str_exc error)))
             (retry_exceptions (_fallback_config self))
  then true
  else
    let error_str := lower (str_exc error) in
    existsb (fun indicator => contains indicator error_str) transient_indicators.

Definition both_failed_message (model fallback_model : string)
           (primary_error fallback_error : exception) : string :=
  ("Both primary (" ++ model ++ ") and fallback (" ++ fallback_model ++
   ") models failed. Primary error: " ++ str_exc primary_error ++
   ". Fallback error: " ++ str_exc fallback_error)%string.

(** [LiteLLMClient.complete], called with [messages] or [request] and no
    further keyword arguments. *)
Definition complete (self : LiteLLMClient) (msgs : option (list Message))
           (request : option CompletionRequest) : L CompletionResponse :=
  match
    match request, msgs with
    | Some r, _ => inr r
    | None, Some m => inr (mkCompletionRequest m None (7 # 10) 2048 false None)
    | None, None => inl (ValueError "Either messages or request must be provided")
    end
  with
  | inl e => raise e
  | inr request =>
      let model := ostr_or (model request) (_primary_model self) in
      try_except (_complete_with_model self request model false)
        (fun primary_error =>
           if negb (enabled (_fallback_config self)) then raise primary_error
           else if negb (_should_fallback self primary_error) then raise primary_error
           else
             let fallback_model := fallback_model (_fallback_config self) in
             try_except (_complete_with_model self request fallback_model true)
               (fun fallback_error =>
                  raise (ExcFrom "RuntimeError"
                           (both_failed_message model fallback_model
                                                primary_error fallback_error)
                           false fallback_error)))
  end.

End Client.

End LiteLLM.

(** ** app/core/ai_models/common.py *)

Inductive AspectRatio : Type :=
| PORTRAIT_9_16 | PORTRAIT_9_21 | PORTRAIT_3_4 | PORTRAIT_2_3
| LANDSCAPE_16_9 | LANDSCAPE_21_9 | LANDSCAPE_4_3 | LANDSCAPE_3_2
| SQUARE.

Definition AspectRatio_value (a : AspectRatio) : string :=
  match a with
  | PORTRAIT_9_16 => "9:16" | PORTRAIT_9_21 => "9:21"
  | PORTRAIT_3_4 => "3:4" | PORTRAIT_2_3 => "2:3"
  | LANDSCAPE_16_9 => "16:9" | LANDSCAPE_21_9 => "21:9"
  | LANDSCAPE_4_3 => "4:3" | LANDSCAPE_3_2 => "3:2"
  | SQUARE => "1:1"
  end.

Definition all_aspect_ratios : list AspectRatio :=
  [PORTRAIT_9_16; PORTRAIT_9_21; PORTRAIT_3_4; PORTRAIT_2_3;
   LANDSCAPE_16_9; LANDSCAPE_21_9; LANDSCAPE_4_3; LANDSCAPE_3_2; SQUARE].

(** [AspectRatio(s)]: the member whose value is [s]; for any other
    string [Enum] raises a ValueError whose message holds [repr(s)]. *)
Definition AspectRatio_of_value (s : string) : exception + AspectRatio :=
  match find (fun a => String.eqb (AspectRatio_value a) s) all_aspect_ratios with
  | Some a => inr a
  | None => inl (ValueError (repr s ++ " is not a valid AspectRatio")%string)
  end.

(** ** app/core/tools/gptmarket/pinterest.py *)

Module PinterestTool.

Record GptMarketPinterestPin : Type := mkPin {
  id : string;
  title : option string;
  description : option string;
  image_url : string;
  aspect_ratio : AspectRatio;
  image_width : option Z;
  image_height : option Z
}.

Record GptMarketPinterestScraperInput : Type := mkInput {
  search_query : string;
  search_type : string;
  pages : Z
}.

Record GptMarketPinterestScraperOutput : Type := mkOutput {
  out_success : bool;
  out_error : option string;
  pins : list GptMarketPinterestPin;
  total : Z;
  query : string
}.

(** [cls.failure(error=..., pins=[], total=0, query=...)] *)
Definition failure (error query : string) : GptMarketPinterestScraperOutput :=
  mkOutput false (Some error) [] 0 query.

(** The outcome of [client.post] followed by [raise_for_status] and
    [response.json]. *)
Inductive post_outcome : Type :=
| TimeoutException
| HTTPStatusError (status_code : Z) (text : string)
| RequestError (e : string)
| OtherException (e : exception)      (* not handled by [execute] *)
| InvalidJSON                         (* [response.json()] raises ValueError *)
| Json (data : value).

(** [v != AspectRatio.PORTRAIT_9_16.value] *)
Definition differs_from_9_16 (v : value) : bool :=
  match v with
  | VStr s => negb (String.eqb s (AspectRatio_value PORTRAIT_9_16))
  | _ => true
  end.

Section Execute.

(** Python's [str(v)] and pydantic's validation of a field of type
    [str], [str | None], [int] and [int | None]; [None] stands for a
    validation error. *)
Variable py_str : value -> string.
Variable validate_str : value -> option string.
Variable validate_optional_str : value -> option (option string).
Variable validate_int : value -> option Z.
Variable validate_optional_int : value -> option (option Z).

(** The body of the [try] in the loop over [raw_pins]: [None] when the
    pin is skipped, by [continue] or by the [except] clause. *)
Definition parse_pin (pin_data : value) : option GptMarketPinterestPin :=
  match pin_data with
  | VDict d =>
      let aspect_ratio_str := dict_get d "aspect_ratio" (VStr "") in
      if differs_from_9_16 aspect_ratio_str then None
      else
        match validate_optional_str (dict_get d "title" VNone),
              validate_optional_str (dict_get d "description" VNone),
              validate_str (dict_get d "image_url" (VStr "")),
              validate_optional_int (dict_get d "image_width" VNone),
              validate_optional_int (dict_get d "image_height" VNone)
        with
        | Some t, Some desc, Some url, Some w, Some h =>
            Some (mkPin (py_str (dict_get d "id" (VStr ""))) t desc url
                        PORTRAIT_9_16 w h)
        | _, _, _, _, _ => None
        end
  | _ => None   (* [pin_data.get] raises AttributeError, which is caught *)
  end.

Fixpoint parse_pins (raw_pins : list value) : list GptMarketPinterestPin :=
  match raw_pins with
  | [] => []
  | pin_data :: rest =>
      match parse_pin pin_data with
      | Some pin => pin :: parse_pins rest
      | None => parse_pins rest
      end
  end.

Definition bind_exc {A B} (x : exception + A) (k : A -> exception + B) : exception + B :=
  match x with inl e => inl e | inr a => k a end.

(** [GptMarketPinterestScraperTool.execute] *)
Definition execute (GPTMARKET_API_KEY : option string)
           (input : GptMarketPinterestScraperInput) (post : post_outcome)
  : exception + GptMarketPinterestScraperOutput :=
  if negb (truthy_ostr GPTMARKET_API_KEY) then
    inr (failure "GPTMARKET_API_KEY is not configured" (search_query input))
  else
    match post with
    | TimeoutException => inr (failure "Request timed out" (search_query input))
    | HTTPStatusError code text =>
        inr (failure ("API error: " ++ str_int code ++ " - " ++ text)%string
                     (search_query input))
    | RequestError e =>
        inr (failure ("Request failed: " ++ e)%string (search_query input))
    | OtherException e => inl e
    | InvalidJSON =>
        inr (failure "Invalid JSON response from API" (search_query input))
    | Json data =>
        bind_exc (get data "data" (VDict [])) (fun inner_data =>
        bind_exc (get inner_data "data" (VDict [])) (fun pins_data =>
        bind_exc (get inner_data "metadata" (VDict [])) (fun metadata =>
        bind_exc (get pins_data "pins" (VList [])) (fun raw_pins =>
        bind_exc (iterate raw_pins) (fun raw =>
        let pins := parse_pins raw in
        bind_exc (get metadata "total_pins" (VInt (Z.of_nat (length pins)))) (fun total =>
        bind_exc (get metadata "search_query" (VStr (search_query input))) (fun query =>
        match validate_int total, validate_str query with
        | Some total, Some query => inr (mkOutput true None pins total query)
        | _, _ => inl (LiteLLM.ValidationError "GptMarketPinterestScraperOutput")
        end)))))))
    end.

End Execute.

End PinterestTool.

(** ** app/temporal/workflows/generations/slideshows_pinterest.py *)

Module Slideshows.
Import Eff Base.

Definition _NUM_QUERIES : nat := 5.
Definition _PAGES_PER_QUERY : Z := 2.
Definition _NUM_IMAGES_TO_RETURN : nat := 25.

(** The elements of the frozenset, in the order the source lists them. *)
Definition _UNWANTED_IMAGE_KEYWORDS : list string :=
  ["infographic"; "template"; "printable"; "checklist"; "worksheet"; "quote";
   "quotes"; "tips"; "tutorial"; "how to"; "howto"; "step by step"; "guide";
   "cheat sheet"; "cheatsheet"; "recipe"; "ingredients"; "instructions"; "diy";
   "download"; "free"; "pdf"; "ebook"; "chart"; "diagram"; "graph"; "statistics";
   "logo"; "watermark"; "stock"; "shutterstock"; "getty"; "adobe stock";
   "pin this"; "save this"; "click"; "link in bio";
   "collage"; "grid"; "mood board"; "moodboard"; "collection"; "compilation";
   "roundup"; "round up"; "best of"; "3x3"; "2x2"; "4x4"; "photo dump";
   "photodump"].

(** A scraped pin, a [dict]: what [pin.get(key)] yields for each of the
    seven keys the workflow reads, [None] for a key that is absent (or,
    for the optional fields of the scraper's schema, null). *)
Record pin : Type := mkPin {
  k_id : option string;
  k_title : option string;
  k_description : option string;
  k_image_url : option string;
  k_aspect_ratio : option string;
  k_image_width : option Z;
  k_image_height : option Z
}.

Record PinterestImage : Type := mkPinterestImage {
  id : string;
  title : option string;
  description : option string;
  image_url : string;
  aspect_ratio : string;
  image_width : option Z;
  image_height : option Z
}.

(** [pin.get(key, default)] for a [str] key. *)
Definition get_str (o : option string) (default : string) : string :=
  match o with Some s => s | None => default end.

(** [SlideshowsPinterestWorkflow._calculate_text_penalty], iterating over
    the frozenset in the order [keywords]. The penalty starts at 0.0 and
    grows by 50 and by 15: its values are small whole numbers, which
    floats hold exactly, so these additions do not round. *)
Fixpoint penalty_loop (keywords : list string) (combined_text : string)
         (penalty : Q) (keywords_found : Z) : Q :=
  match keywords with
  | [] => penalty
  | keyword :: rest =>
      if contains keyword combined_text then
        let keywords_found := keywords_found + 1 in
        if keywords_found =? 1
        then penalty_loop rest combined_text (penalty + 50)%Q keywords_found
        else penalty_loop rest combined_text (penalty + 15)%Q keywords_found
      else penalty_loop rest combined_text penalty keywords_found
  end.

(** [min(a, b)] *)
Definition py_min (a b : Q) : Q := if Qle_bool a b then a else b.

Definition combined_text (p : pin) : string :=
  let title := lower (ostr_or (k_title p) "") in
  let description := lower (ostr_or (k_description p) "") in
  (title ++ " " ++ description)%string.

Definition _calculate_text_penalty (keywords : list string) (p : pin) : Q :=
  py_min 100 (penalty_loop keywords (combined_text p) 0 0).

(** [SlideshowsPinterestWorkflow._score_pin]. The score is a float:
    [pixels / 25000] is the rounded quotient of two ints, [min(40, q)] is
    [q] when [q < 40], and every [+=] and the final [-=] round. The
    division raises OverflowError when the quotient lies beyond the
    largest float; [_score_pin] is the score in every other case and
    [_score_pin_or_raise] is the call with that exception. *)
Definition _score_pin (keywords : list string) (p : pin) : Q :=
  let score := 0%Q in
  let width := oint_or (k_image_width p) 0 in
  let height := oint_or (k_image_height p) 0 in
  let score :=
    if truthy_int width && truthy_int height then
      let pixels := width * height in
      Float64.fadd score (py_min 40 (Float64.round (inject_Z pixels / 25000)))
    else score in
  let score := if truthy_ostr (k_title p) then Float64.fadd score 10 else score in
  let score := if truthy_ostr (k_description p) then Float64.fadd score 10 else score in
  let aspect := get_str (k_aspect_ratio p) "" in
  let score :=
    if String.eqb aspect (AspectRatio_value PORTRAIT_9_16) || String.eqb aspect "9:16"
    then Float64.fadd score 30
    else if String.eqb aspect (AspectRatio_value PORTRAIT_2_3) || String.eqb aspect "2:3"
            || String.eqb aspect (AspectRatio_value PORTRAIT_3_4) || String.eqb aspect "3:4"
    then Float64.fadd score 25
    else if String.eqb aspect (AspectRatio_value SQUARE) || String.eqb aspect "1:1"
    then Float64.fadd score 15
    else if truthy_int width && truthy_int height && (height >? width)
    then Float64.fadd score 20
    else score in
  let score := if truthy_ostr (k_id p) then Float64.fadd score 10 else score in
  let text_penalty := _calculate_text_penalty keywords p in
  Float64.fsub score text_penalty.

Definition _score_pin_or_raise (keywords : list string) (p : pin) : exception + Q :=
  let width := oint_or (k_image_width p) 0 in
  let height := oint_or (k_image_height p) 0 in
  if truthy_int width && truthy_int height then
    match Float64.true_divide (width * height) 25000 with
    | inl e => inl e
    | inr _ => inr (_score_pin keywords p)
    end
  else inr (_score_pin keywords p).

(** [SlideshowsPinterestWorkflow._compute_image_hash] *)
Definition hash_input (p : pin) : string :=
  let url := get_str (k_image_url p) "" in
  let width := oint_or (k_image_width p) 0 in
  let height := oint_or (k_image_height p) 0 in
  let url_parts := last_n 3 (split "/" url) in
  (join "-" url_parts ++ ":" ++ str_int width ++ ":" ++ str_int height)%string.

Definition _compute_image_hash (p : pin) : string :=
  str_prefix 8 (MD5.hexdigest (hash_input p)).

(** [SlideshowsPinterestWorkflow._is_too_similar] *)
Definition _is_too_similar (pin_hash : string) (selected_hashes : list string) : bool :=
  existsb (fun existing_hash =>
             String.eqb (str_prefix 4 pin_hash) (str_prefix 4 existing_hash))
          selected_hashes.

(** The first loop of [_select_best_images]: drop pins without a url and
    later occurrences of a url, score the others. The loop is the one of
    candidates whose scores are floats: a candidate for which
    [_score_pin_or_raise] raises ends the call with that exception. *)
Fixpoint dedup_and_score (keywords : list string) (pins : list pin)
         (seen_urls : list string) : list (Q * pin) :=
  match pins with
  | [] => []
  | p :: rest =>
      let image_url := get_str (k_image_url p) "" in
      if negb (truthy_str image_url) || existsb (String.eqb image_url) seen_urls
      then dedup_and_score keywords rest seen_urls
      else (_score_pin keywords p, p)
             :: dedup_and_score keywords rest (image_url :: seen_urls)
  end.

(** [scored_pins.sort(key=lambda x: x[0], reverse=True)]: [list.sort] is
    a stable sort, also with [reverse=True]; it is modelled by the stable
    insertion sort into descending order. *)
Fixpoint insert_desc (x : Q * pin) (l : list (Q * pin)) : list (Q * pin) :=
  match l with
  | [] => [x]
  | y :: l' =>
      if Qle_bool (fst y) (fst x) then x :: y :: l'
      else y :: insert_desc x l'
  end.

Fixpoint sort_desc (l : list (Q * pin)) : list (Q * pin) :=
  match l with
  | [] => []
  | x :: l' => insert_desc x (sort_desc l')
  end.

(** [PinterestImage(id=str(pin.get('id', '')), ...)] *)
Definition to_image (p : pin) : PinterestImage :=
  mkPinterestImage (get_str (k_id p) "") (k_title p) (k_description p)
                   (get_str (k_image_url p) "")
                   (get_str (k_aspect_ratio p) (AspectRatio_value PORTRAIT_9_16))
                   (k_image_width p) (k_image_height p).

(** The second loop of [_select_best_images]. *)
Fixpoint select_loop (scored_pins : list (Q * pin)) (selected : list PinterestImage)
         (selected_hashes : list string) : list PinterestImage * list string :=
  match scored_pins with
  | [] => (selected, selected_hashes)
  | (_score, p) :: rest =>
      if (_NUM_IMAGES_TO_RETURN <=? length selected)%nat
      then (selected, selected_hashes)
      else
        let pin_hash := _compute_image_hash p in
        if _is_too_similar pin_hash selected_hashes
        then select_loop rest selected selected_hashes
        else select_loop rest (selected ++ [to_image p]) (selected_hashes ++ [pin_hash])
  end.

Definition scored_pins_of (keywords : list string) (pins : list pin) : list (Q * pin) :=
  sort_desc (dedup_and_score keywords pins []).

(** [SlideshowsPinterestWorkflow._select_best_images], with the frozenset
    iterated in the order [keywords]. *)
Definition _select_best_images (keywords : list string) (pins : list pin)
  : list PinterestImage :=
  fst (select_loop (scored_pins_of keywords pins) [] []).

(** The system and user prompts of [_generate_queries]. *)
Definition system_prompt : string :=
  "You generate Pinterest search queries that find beautiful, aesthetic images.

Pinterest is a visual discovery platform. Effective queries combine:
- Subject matter (what's in the image)
- Visual style (photography, illustration, minimalist, editorial, etc.)
- Mood/atmosphere (cozy, dramatic, serene, moody, vibrant, etc.)
- Aesthetic category (cottagecore, dark academia, coastal grandmother, etc.)

Your goal: Generate queries that are BOTH effective on Pinterest AND diverse from each other.

Each query should find a completely different SET of images - vary the style, mood, color palette, or interpretation.

Output ONLY valid JSON.".

Definition user_prompt (prompt : string) : string :=
  ("User wants images about: " ++ prompt ++ "

Generate " ++ str_int (Z.of_nat _NUM_QUERIES) ++ " Pinterest search queries. Requirements:

1. Each query must find DIFFERENT images (vary style, mood, aesthetic, or angle)
2. Use 3-5 words per query - specific enough to find good results
3. Include at least one style/mood/aesthetic term in each query
4. Think about different visual interpretations:
   - Different color palettes (warm vs cool, bright vs muted)
   - Different styles (photography vs illustration, minimal vs maximal)
   - Different moods (cozy vs dramatic, peaceful vs energetic)
   - Different contexts or settings

JSON format:
{" ++ dq ++ "queries" ++ dq ++ ": [" ++ dq ++ "query1" ++ dq ++ ", " ++ dq ++ "query2" ++ dq
   ++ ", " ++ dq ++ "query3" ++ dq ++ ", " ++ dq ++ "query4" ++ dq ++ ", " ++ dq ++ "query5" ++ dq ++ "]}")%string.

Definition queries_request (prompt : string) : CompletionRequest :=
  mkCompletionRequest
    [mkMessage SYSTEM system_prompt; mkMessage USER (user_prompt prompt)]
    (Some "gemini/gemini-2.0-flash-lite") (9 # 10) 512 true None.

(** [queries[:_NUM_QUERIES]] on whatever the model put under "queries":
    a list or a string can be sliced, nothing else can. *)
Definition slice_queries (queries : value) : exception + value :=
  match queries with
  | VList l => inr (VList (first_n _NUM_QUERIES l))
  | VStr s => inr (VStr (str_prefix _NUM_QUERIES s))
  | VDict _ => inl (TypeError "unhashable type: 'slice'")
  | _ => inl (TypeError "object is not subscriptable")
  end.

(** The part of [_generate_queries] after the activity returned. *)
Definition parse_queries (prompt : string) (response : CompletionResponse)
  : exception + value :=
  match parsed response with
  | Some (VDict (item :: items)) =>
      let queries := dict_get (item :: items) "queries" (VList []) in
      if truthy queries then slice_queries queries
      else inr (VList [VStr prompt])
  | _ => inr (VList [VStr prompt])
  end.

(** [SlideshowsPinterestWorkflow._generate_queries] *)
Definition _generate_queries (rt : runtime) (prompt : string) : M value :=
  response <- run_activity rt (generate_json (queries_request prompt))
                           1 None (Some FAST_RETRY) ;;
  match parse_queries prompt response with
  | inr queries => ret queries
  | inl e => raise e
  end.

(** One task of [_scrape_pinterest]. *)
Definition scrape_call (query : string) : activity :=
  execute_tool
    (mkExecuteToolInput "gptmarket-pinterest-scraper"
       [("search_query", VStr query); ("search_type", VStr "social_media");
        ("pages", VInt _PAGES_PER_QUERY)]).

Definition scrape_task (rt : runtime) (query : string) : M ExecuteToolOutput :=
  run_activity rt (scrape_call query) 2 None (Some FAST_RETRY).

Definition query_error (query error : string) : string :=
  ("Query " ++ dq ++ query ++ dq ++ ": " ++ error)%string.

(** The loop over [enumerate(results)]: [branches] pairs [queries[i]] with
    [results[i]]. *)
Fixpoint collect (branches : list (string * (exception + ExecuteToolOutput)))
         (all_pins : list value) (errors : list string)
  : exception + (list value * list string) :=
  match branches with
  | [] => inr (all_pins, errors)
  | (query, inl e) :: rest =>
      collect rest all_pins (errors ++ [query_error query (str_exc e)])
  | (query, inr result) :: rest =>
      if negb (success result) then
        collect rest all_pins (errors ++ [query_error query (str_ostr (error result))])
      else
        match output result with
        | [] => collect rest all_pins errors
        | _ :: _ =>
            match iterate (dict_get (output result) "pins" (VList [])) with
            | inr pins => collect rest (all_pins ++ pins) errors
            | inl e => inl e
            end
        end
  end.

Definition all_failed_message (errors : list string) : string :=
  ("All Pinterest queries failed: " ++ join "; " errors)%string.

(** [SlideshowsPinterestWorkflow._scrape_pinterest] *)
Definition _scrape_pinterest (rt : runtime) (queries : list string) : M (list value) :=
  results <- gather_return_exceptions (map (scrape_task rt) queries) ;;
  match collect (combine queries results) [] [] with
  | inl e => raise e
  | inr (all_pins, errors) =>
      match all_pins, errors with
      | [], _ :: _ => raise (ApplicationError (all_failed_message errors) true)
      | _, _ => ret all_pins
      end
  end.

(** One task of [_upload_images]. *)
Definition upload_task (rt : runtime) (image : PinterestImage) : M StorageUploadOutput :=
  run_activity rt
    (upload_to_storage (mkStorageUploadInput (image_url image) "auto" "pinterest/images"))
    2 None (Some FAST_RETRY).

(** The loop over [enumerate(results)] of [_upload_images]: [branches]
    pairs [images[i]] with [results[i]]. *)
Fixpoint uploaded_images (branches : list (PinterestImage * (exception + StorageUploadOutput)))
  : list PinterestImage :=
  match branches with
  | [] => []
  | (image, inl _) :: rest => uploaded_images rest
  | (image, inr result) :: rest =>
      mkPinterestImage (id image) (title image) (description image) (so_url result)
                       (aspect_ratio image) (image_width image) (image_height image)
      :: uploaded_images rest
  end.

(** [SlideshowsPinterestWorkflow._upload_images] *)
Definition _upload_images (rt : runtime) (images : list PinterestImage)
  : M (list PinterestImage) :=
  match images with
  | [] => ret images
  | _ :: _ =>
      results <- gather_return_exceptions (map (upload_task rt) images) ;;
      ret (uploaded_images (combine images results))
  end.

(** The comprehension over [enumerate(images)] in the rewrite step of
    [run]: [rewritten_urls[i]] raises IndexError when the list is too
    short. *)
Fixpoint with_rewritten_urls (images : list PinterestImage) (rewritten_urls : list string)
  : exception + list PinterestImage :=
  match images with
  | [] => inr []
  | img :: rest =>
      match rewritten_urls with
      | [] => inl IndexError
      | url :: urls =>
          match with_rewritten_urls rest urls with
          | inl e => inl e
          | inr others =>
              inr (mkPinterestImage (id img) (title img) (description img) url
                                    (aspect_ratio img) (image_width img) (image_height img)
                   :: others)
          end
      end
  end.

(** The body of the step "rewrite" of [SlideshowsPinterestWorkflow.run]. *)
Definition rewrite_selected (rt : runtime) (images : list PinterestImage)
           (input : WorkflowInput) : M (list PinterestImage) :=
  let image_urls := map image_url images in
  rewritten_urls <- maybe_rewrite_images rt image_urls input ;;
  match with_rewritten_urls images rewritten_urls with
  | inl e => raise e
  | inr images => ret images
  end.

End Slideshows.

(** ** app/temporal/workflows/generations/ruby.py *)

Module Ruby.
Import Eff Base.

Record RubyInput : Type := mkRubyInput {
  base : WorkflowInput;
  additional_prompt : option string;
  emotion : string;
  text_overlay : option string;
  gender : string;
  age_range : string;
  ethnicity : string;
  hair_color : string;
  style : string;
  background : string;
  clothing : string;
  aspect_ratio : string;
  video_duration : Z;
  slowed_video : bool;
  image_model : string;
  video_model : string;
  image_model_params : list (string * value);
  video_model_params : list (string * value)
}.

Record RubyOutput : Type := mkRubyOutput {
  face_image_url : string;
  raw_video_url : string;
  final_video_url : string;
  enhanced_image_prompt : string;
  enhanced_video_prompt : string;
  out_image_model : string;
  out_video_model : string
}.

Definition TextPosition_CENTER : string := "center".
Definition TextFont_IMPACT : string := "DejaVu Sans Bold".

Definition lift {A} (x : exception + A) : M A :=
  match x with inl e => raise e | inr a => ret a end.

(** Step 1 *)
Definition prompts_step (rt : runtime) (input : RubyInput) : M (string * string) :=
  step "prompts" "Generate Prompts" 0 ""
    (ugc_result <- run_activity rt
        (generate_ugc_person
           (mkUGCPersonInput (gender input) (age_range input) (emotion input)
              (style input) (background input) (hair_color input)
              (ethnicity input) (clothing input) (additional_prompt input)))
        2 None None ;;
     video_result <- run_activity rt
        (generate_ugc_video_reaction
           (mkUGCVideoReactionInput (emotion input) (additional_prompt input)
              (video_duration input)))
        2 None None ;;
     ret (text_prompt ugc_result, video_prompt video_result)).

(** Step 2 *)
Definition face_step (rt : runtime) (input : RubyInput) (aspect : AspectRatio)
           (enhanced_image_prompt : string) : M string :=
  step "face" "Generate Face" 10 ""
    (let image_params :=
       dict_update [("prompt", VStr enhanced_image_prompt);
                    ("aspect_ratio", VStr (AspectRatio_value aspect))]
                   (image_model_params input) in
     face_result <- run_activity rt
        (generate_image_with_model (image_model input) image_params)
        3 None (Some SLOW_RETRY) ;;
     ret (output_url face_result)).

(** Step 3 *)
Definition video_step (rt : runtime) (input : RubyInput) (aspect : AspectRatio)
           (enhanced_video_prompt face_image_url : string) : M string :=
  step "video" "Generate Video" 30 ""
    (let video_params :=
       dict_update [("prompt", VStr enhanced_video_prompt);
                    ("image", VStr face_image_url);
                    ("duration", VInt (video_duration input));
                    ("aspect_ratio", VStr (AspectRatio_value aspect));
                    ("generate_audio", VBool false)]
                   (video_model_params input) in
     video_result <- run_activity rt
        (generate_video_with_model (video_model input) video_params)
        10 None (Some SLOW_RETRY) ;;
     ret (output_url video_result)).

(** Step 4 *)
Definition slowmo_step (rt : runtime) (input : RubyInput) (raw_video_url : string)
  : M string :=
  if slowed_video input then
    let slowmo_folder :=
      if truthy_ostr (text_overlay input) then "ruby/temp" else "ruby/videos" in
    step "slowmo" "Apply Slow Motion" 60 ""
      (slowed_result <- run_activity rt
          (slow_down_video (mkSlowDownVideoInput raw_video_url (7 # 10) false slowmo_folder))
          5 None None ;;
       ret (output_url slowed_result))
  else ret raw_video_url.

(** Step 5 *)
Definition text_step (rt : runtime) (input : RubyInput) (final_video_url : string)
  : M string :=
  match text_overlay input with
  | Some text =>
      if truthy_str text then
        step "text" "Add Text" 80 ""
          (text_result <- run_activity rt
              (add_text_overlay
                 (mkTextOverlayActivityInput final_video_url text TextPosition_CENTER
                    TextFont_IMPACT "white" 28 None 0 4 "black" 24 "ruby/videos"))
              5 None None ;;
           ret (output_url text_result))
      else ret final_video_url
  | None => ret final_video_url
  end.

(** Step 6 *)
Definition rewrite_step (rt : runtime) (input : RubyInput)
           (face_image_url final_video_url : string) : M (string * string) :=
  if rewrite_enabled (base input) then
    step "rewrite" "Rewrite Media" 85 ""
      (face_image_url <- maybe_rewrite_image rt face_image_url (base input) ;;
       final_video_url <- maybe_rewrite_video rt final_video_url (base input) 1 ;;
       ret (face_image_url, final_video_url))
  else ret (face_image_url, final_video_url).

(** Step 7 *)
Definition upload_step (rt : runtime) (face_image_url : string) : M string :=
  step "upload" "Upload" 90 "" (upload_output rt face_image_url "ruby/faces").

(** [RubyWorkflow.run] *)
Definition run (cfg : AppConfig) (rt : runtime) (input : RubyInput) : M RubyOutput :=
  start cfg (base input) ;;;
  aspect <- lift (AspectRatio_of_value (aspect_ratio input)) ;;
  prompts <- prompts_step rt input ;;
  let '(enhanced_image_prompt, enhanced_video_prompt) := prompts in
  face_image_url <- face_step rt input aspect enhanced_image_prompt ;;
  raw_video_url <- video_step rt input aspect enhanced_video_prompt face_image_url ;;
  final_video_url <- slowmo_step rt input raw_video_url ;;
  final_video_url <- text_step rt input final_video_url ;;
  rewritten <- rewrite_step rt input face_image_url final_video_url ;;
  let '(face_image_url, final_video_url) := rewritten in
  face_url <- upload_step rt face_image_url ;;
  complete ;;;
  ret (mkRubyOutput face_url raw_video_url final_video_url
                    enhanced_image_prompt enhanced_video_prompt
                    (image_model input) (video_model input)).


End Ruby.

(** ** app/core/tools/base.py and app/core/tools/registry.py *)

Module Registry.

Inductive ToolCategory : Type :=
  SCRAPER | SEARCH | DATA | MEDIA | COMMUNICATION | UTILITY.

Definition ToolCategory_eqb (a b : ToolCategory) : bool :=
  match a, b with
  | SCRAPER, SCRAPER | SEARCH, SEARCH | DATA, DATA | MEDIA, MEDIA
  | COMMUNICATION, COMMUNICATION | UTILITY, UTILITY => true
  | _, _ => false
  end.

(** What a caller reads of a [ToolOutput]: the two fields every output
    has, and [model_dump()]. *)
Record ToolOutput : Type := mkToolOutput {
  success : bool;
  error : option string;
  model_dump : list (string * value)
}.

(** A [ToolDefinition]: its metadata, [validate_input] and [execute]. A
    validated input is kept as the value it was validated from. *)
Record ToolDefinition : Type := mkTool {
  id : string;
  name : string;
  category : ToolCategory;
  description : string;
  version : string;
  requires_api_key : bool;
  validate_input : list (string * value) -> exception + value;
  execute : value -> exception + ToolOutput
}.

(** [ToolRegistry._tools], a dict in insertion order. *)
Definition ToolRegistry : Type := list (string * ToolDefinition).

Definition empty : ToolRegistry := [].

(** [tool_id in self._tools] *)
Definition contains_id (self : ToolRegistry) (tool_id : string) : bool :=
  match assoc tool_id self with Some _ => true | None => false end.

(** [ToolRegistry.register]: the registry after the call, or the error. *)
Definition register (self : ToolRegistry) (tool : ToolDefinition)
  : exception + ToolRegistry :=
  if contains_id self (id tool) then
    inl (ValueError ("Tool with ID " ++ dq ++ id tool ++ dq
                     ++ " is already registered")%string)
  else inr (self ++ [(id tool, tool)]).

(** [ToolRegistry.unregister] *)
Definition unregister (self : ToolRegistry) (tool_id : string) : ToolRegistry :=
  if contains_id self tool_id
  then filter (fun kv => negb (String.eqb (fst kv) tool_id)) self
  else self.

(** [ToolRegistry.get] *)
Definition get (self : ToolRegistry) (tool_id : string) : option ToolDefinition :=
  assoc tool_id self.

(** [sorted(keys)] *)
Fixpoint insert_sorted (s : string) (l : list string) : list string :=
  match l with
  | [] => [s]
  | x :: l' => if String.leb s x then s :: x :: l' else x :: insert_sorted s l'
  end.
Definition sorted (l : list string) : list string := fold_right insert_sorted [] l.

(** [ToolRegistry.get_or_raise] *)
Definition get_or_raise (self : ToolRegistry) (tool_id : string)
  : exception + ToolDefinition :=
  match assoc tool_id self with
  | Some tool => inr tool
  | None =>
      let joined := join ", " (sorted (map fst self)) in
      let available := if truthy_str joined then joined else "(none)" in
      inl (ValueError ("Tool " ++ dq ++ tool_id ++ dq
                       ++ " not found. Available tools: " ++ available)%string)
  end.

(** [list_all], [list_by_category], [list_ids], [__len__] *)
Definition list_all (self : ToolRegistry) : list ToolDefinition := map snd self.
Definition list_by_category (self : ToolRegistry) (c : ToolCategory)
  : list ToolDefinition :=
  filter (fun t => ToolCategory_eqb (category t) c) (map snd self).
Definition list_ids (self : ToolRegistry) : list string := map fst self.
Definition len (self : ToolRegistry) : nat := length self.

(** app/temporal/activities/tools.py: [execute_tool], on a registry in
    which the tools are registered. *)
Definition execute_tool (registry : ToolRegistry) (input : ExecuteToolInput)
  : exception + ExecuteToolOutput :=
  match get_or_raise registry (ti_tool_id input) with
  | inl e => inl e
  | inr tool =>
      match
        match validate_input tool (params input) with
        | inl e => inl e
        | inr tool_input => execute tool tool_input
        end
      with
      | inr result =>
          inr (mkExecuteToolOutput (ti_tool_id input) (success result)
                                   (model_dump result) (error result))
      | inl e =>
          inr (mkExecuteToolOutput (ti_tool_id input) false [] (Some (str_exc e)))
      end
  end.

End Registry.

(** ** app/temporal/activities/storage.py *)

Module Storage.

(** [c.isspace()] on ASCII. *)
Definition is_space (c : ascii) : bool :=
  let n := nat_of_ascii c in
  ((9 <=? n) && (n <=? 13) || (28 <=? n) && (n <=? 32))%nat.

Fixpoint lstrip (s : string) : string :=
  match s with
  | String c s' => if is_space c then lstrip s' else s
  | EmptyString => EmptyString
  end.

Fixpoint rstrip (s : string) : string :=
  match s with
  | EmptyString => EmptyString
  | String c s' =>
      match rstrip s' with
      | EmptyString => if is_space c then EmptyString else String c EmptyString
      | rest => String c rest
      end
  end.

(** [s.strip()] *)
Definition strip (s : string) : string := rstrip (lstrip s).

Definition mapping : list (string * string) :=
  [("image/png", "png"); ("image/jpeg", "jpg"); ("image/webp", "webp");
   ("image/gif", "gif"); ("video/mp4", "mp4"); ("video/webm", "webm");
   ("video/quicktime", "mov"); ("audio/mpeg", "mp3"); ("audio/wav", "wav");
   ("audio/ogg", "ogg")].

(** [get_extension_from_content_type] *)
Definition get_extension_from_content_type (content_type : string) : string :=
  let base_type := lower (strip (hd EmptyString (split ";" content_type))) in
  match assoc base_type mapping with
  | Some ext => ext
  | None => "bin"
  end.

(** [get_extension_from_url], on the path [urlparse(url).path]. *)
Definition url_extensions : list string :=
  ["mp4"; "webm"; "mov"; "png"; "jpg"; "jpeg"; "webp"; "gif"; "mp3"; "wav"; "ogg"].

Definition get_extension_from_path (path : string) : option string :=
  if contains "." path then
    let ext := lower (last (split "." path) EmptyString) in
    if existsb (String.eqb ext) url_extensions then Some ext else None
  else None.

(** The choice of the extension in [upload_to_storage]: the content type
    of the download first, then the extension read from the url
    ([get_extension_from_url], [None] when it finds none). *)
Definition choose_extension (content_type : string) (url_extension : option string)
  : string :=
  if truthy_str content_type then
    let extension := get_extension_from_content_type content_type in
    if String.eqb extension "bin" && truthy_ostr url_extension
    then ostr_or url_extension "bin"
    else extension
  else if truthy_ostr url_extension then ostr_or url_extension "bin"
  else "bin".

End Storage.

(** ** app/core/tools/gptmarket/video_rewrite.py and image_rewrite.py *)

Module RewriteTools.
Import PinterestTool.

Record GptMarketVideoRewriteInput : Type := mkVideoInput {
  video_url : string;
  vi_playback_speed : Q;
  vi_device : option string
}.

Record GptMarketVideoRewriteOutput : Type := mkVideoOutput {
  vo_success : bool;
  vo_error : option string;
  original_url : string;
  rewritten_url : string
}.

Record RewrittenImage : Type := mkRewrittenImage {
  ri_original_url : string;
  ri_rewritten_url : string
}.

(** [images] holds the [image_url] of each [ImageRewriteItem]. *)
Record GptMarketImageRewriteInput : Type := mkImageInput {
  images : list string;
  ii_device : option string
}.

Record GptMarketImageRewriteOutput : Type := mkImageOutput {
  io_success : bool;
  io_error : option string;
  io_images : list RewrittenImage;
  io_total : Z
}.

(** The output every fallback path of the video tool returns. *)
Definition video_original (input : GptMarketVideoRewriteInput) : GptMarketVideoRewriteOutput :=
  mkVideoOutput true None (video_url input) (video_url input).

(** [_fallback_to_originals] *)
Definition _fallback_to_originals (images : list string) : list RewrittenImage :=
  map (fun image_url => mkRewrittenImage image_url image_url) images.

Definition images_original (input : GptMarketImageRewriteInput) : GptMarketImageRewriteOutput :=
  mkImageOutput true None (_fallback_to_originals (images input))
                (Z.of_nat (length (images input))).

(** [data['data'].get(key, default)] when [data.get('data')] is a dict,
    [default] otherwise; [data] itself must have a [get]. *)
Definition inner_get (data : value) (key : string) (default : value) : exception + value :=
  match data with
  | VDict d =>
      match dict_get d "data" VNone with
      | VDict inner => inr (dict_get inner key default)
      | _ => inr default
      end
  | _ => inl (AttributeError "object has no attribute 'get'")
  end.

(** [i < len(urls) and urls[i]]: the element when the conjunction is
    truthy, [None] when it is falsy. *)
Definition KeyError : exception := Exc "KeyError" "" false.

Definition url_at (urls : value) (i : nat) : exception + option value :=
  match urls with
  | VList l =>
      match nth_error l i with
      | Some u => inr (if truthy u then Some u else None)
      | None => inr None
      end
  | VStr s =>
      match String.get i s with
      | Some c => inr (Some (VStr (String c EmptyString)))
      | None => inr None
      end
  | VDict d => if (i <? length d)%nat then inl KeyError else inr None
  | _ => inl (TypeError "object has no len()")
  end.

Section Execute.

(** pydantic's validation of a field of type [str]. *)
Variable validate_str : value -> option string.

(** [GptMarketVideoRewriteTool.execute] *)
Definition execute_video (GPTMARKET_API_KEY : option string)
           (input : GptMarketVideoRewriteInput) (post : post_outcome)
  : exception + GptMarketVideoRewriteOutput :=
  if negb (truthy_ostr GPTMARKET_API_KEY) then inr (video_original input)
  else
    match post with
    | TimeoutException | HTTPStatusError _ _ | RequestError _ | InvalidJSON =>
        inr (video_original input)
    | OtherException e => inl e
    | Json data =>
        match inner_get data "url" (VStr "") with
        | inl e => inl e
        | inr rewritten_url =>
            if negb (truthy rewritten_url) then inr (video_original input)
            else
              match validate_str rewritten_url with
              | Some url => inr (mkVideoOutput true None (video_url input) url)
              | None => inl (LiteLLM.ValidationError "rewritten_url")
              end
        end
    end.

(** The loop over [enumerate(input.images)], from index [i]. *)
Fixpoint rewrite_each (urls : value) (i : nat) (images : list string)
  : exception + list RewrittenImage :=
  match images with
  | [] => inr []
  | original_url :: rest =>
      match url_at urls i with
      | inl e => inl e
      | inr found =>
          match
            match found with
            | Some u =>
                match validate_str u with
                | Some url => inr (mkRewrittenImage original_url url)
                | None => inl (LiteLLM.ValidationError "rewritten_url")
                end
            | None => inr (mkRewrittenImage original_url original_url)
            end
          with
          | inl e => inl e
          | inr image =>
              match rewrite_each urls (S i) rest with
              | inl e => inl e
              | inr others => inr (image :: others)
              end
          end
      end
  end.

(** [GptMarketImageRewriteTool.execute] *)
Definition execute_images (GPTMARKET_API_KEY : option string)
           (input : GptMarketImageRewriteInput) (post : post_outcome)
  : exception + GptMarketImageRewriteOutput :=
  if negb (truthy_ostr GPTMARKET_API_KEY) then inr (images_original input)
  else
    match post with
    | TimeoutException | HTTPStatusError _ _ | RequestError _ | InvalidJSON =>
        inr (images_original input)
    | OtherException e => inl e
    | Json data =>
        match inner_get data "urls" (VList []) with
        | inl e => inl e
        | inr urls =>
            match rewrite_each urls 0 (images input) with
            | inl e => inl e
            | inr rewritten_images =>
                inr (mkImageOutput true None rewritten_images
                                   (Z.of_nat (length rewritten_images)))
            end
        end
    end.

(** app/temporal/activities/rewrite.py: [rewrite_video] *)
Definition rewrite_video (key : option string) (input : RewriteVideoInput)
           (post : post_outcome) : exception + RewriteVideoOutput :=
  let tool_input :=
    mkVideoInput (rv_video_url input) (playback_speed input) (rv_device input) in
  match execute_video key tool_input post with
  | inl e => inl e
  | inr result => inr (mkRewriteVideoOutput (rv_video_url input) (rewritten_url result))
  end.

(** app/temporal/activities/rewrite.py: [rewrite_images]. The tool input
    is declared with between 1 and 50 images. *)
Definition rewrite_images (key : option string) (input : RewriteImagesInput)
           (post : post_outcome) : exception + RewriteImagesOutput :=
  let n := length (ri_image_urls input) in
  if (n <? 1)%nat || (50 <? n)%nat then
    inl (LiteLLM.ValidationError "images")
  else
    let tool_input := mkImageInput (ri_image_urls input) (ri_device input) in
    match execute_images key tool_input post with
    | inl e => inl e
    | inr result =>
        inr (mkRewriteImagesOutput (ri_image_urls input)
                                   (map ri_rewritten_url (io_images result)))
    end.

End Execute.

End RewriteTools.

(** ** Notions the properties are stated with *)

Module Spec.
Import Eff Base.
Open Scope Q_scope.

(** *** Fan-out over the scrape queries *)

(** The [execute_activity] call [_scrape_pinterest] makes for a query. *)
Definition scrape_activity_call (query : string) : activity_call :=
  mkCall (Slideshows.scrape_call query) 2 FAST_RETRY None.

(** The outcome the runtime gives each branch, in the order of the
    queries, the first branch starting after [history]. *)
Fixpoint outcomes (rt : runtime) (queries : list string) (history : list activity_call)
  : list (exception + ExecuteToolOutput) :=
  match queries with
  | [] => []
  | q :: rest =>
      rt history (Slideshows.scrape_call q)
      :: outcomes rt rest (history ++ [scrape_activity_call q])
  end.

(** A branch failed when its activity raised or its tool reported no
    success; the text is what the workflow reports for it. *)
Definition branch_failure (r : exception + ExecuteToolOutput) : option string :=
  match r with
  | inl e => Some (str_exc e)
  | inr out => if success out then None else Some (str_ostr (error out))
  end.

Definition failure_lines (branches : list (string * (exception + ExecuteToolOutput)))
  : list string :=
  flat_map (fun qr => match branch_failure (snd qr) with
                      | Some err => [Slideshows.query_error (fst qr) err]
                      | None => []
                      end) branches.

(** The pins a successful branch contributes. *)
Definition branch_pins (r : exception + ExecuteToolOutput) : list value :=
  match r with
  | inr out =>
      if success out then
        match output out with
        | [] => []
        | _ :: _ =>
            match dict_get (output out) "pins" (VList []) with
            | VList l => l
            | _ => []
            end
        end
      else []
  | inl _ => []
  end.

(** The output of a successful branch is empty or holds a list under
    "pins", as the scraper tool's output does. *)
Definition pins_are_list (r : exception + ExecuteToolOutput) : Prop :=
  match r with
  | inr out =>
      success out = true -> output out <> [] ->
      exists l, dict_get (output out) "pins" (VList []) = VList l
  | inl _ => True
  end.

(** *** The score of a candidate, as the specification words it *)

Definition b2q (b : bool) : Q := if b then 1 else 0.

(** [m]: how many block-listed keywords occur in a text. *)
Definition matches (keywords : list string) (text : string) : nat :=
  length (filter (fun keyword => contains keyword text) keywords).

Definition penalty_of (m : nat) : Q :=
  match m with
  | O => 0
  | S m' => Qmin 100 (50 + 15 * inject_Z (Z.of_nat m'))
  end.

(** The penalty accumulated by the loop after [n] further matches, from
    [penalty] with [keywords_found] matches so far. *)
Fixpoint add_matches (n : nat) (penalty : Q) (keywords_found : Z) : Q :=
  match n with
  | O => penalty
  | S n' =>
      if (keywords_found + 1 =? 1)%Z
      then add_matches n' (penalty + 50) (keywords_found + 1)
      else add_matches n' (penalty + 15) (keywords_found + 1)
  end.

(** The formula, for a reading [dim] of "the dimension is known" and a
    reading [text] of "the concatenation of title and description". *)
Section Formula.

Variable dim : option Z -> option Z.
Variable text : Slideshows.pin -> string.

Definition resolutionTerm (p : Slideshows.pin) : Q :=
  match dim (Slideshows.k_image_width p), dim (Slideshows.k_image_height p) with
  | Some width, Some height => Qmin 40 (inject_Z (width * height) / 25000)
  | _, _ => 0
  end.

Definition metadataTerm (p : Slideshows.pin) : Q :=
  10 * b2q (truthy_ostr (Slideshows.k_title p))
  + 10 * b2q (truthy_ostr (Slideshows.k_description p)).

Definition aspectTerm (p : Slideshows.pin) : Q :=
  let aspect := Slideshows.get_str (Slideshows.k_aspect_ratio p) "" in
  if String.eqb aspect "9:16" then 30
  else if String.eqb aspect "2:3" || String.eqb aspect "3:4" then 25
  else if String.eqb aspect "1:1" then 15
  else match dim (Slideshows.k_image_width p), dim (Slideshows.k_image_height p) with
       | Some width, Some height => if height >? width then 20 else 0
       | _, _ => 0
       end.

Definition identityTerm (p : Slideshows.pin) : Q :=
  if truthy_ostr (Slideshows.k_id p) then 10 else 0.

Definition penalty (p : Slideshows.pin) : Q :=
  penalty_of (matches Slideshows._UNWANTED_IMAGE_KEYWORDS (text p)).

Definition score_formula (p : Slideshows.pin) : Q :=
  resolutionTerm p + metadataTerm p + aspectTerm p + identityTerm p - penalty p.

End Formula.

(** As the specification states it: a dimension is known when it is present, and
    the text is the lower-cased concatenation of title and description. *)
Definition title_of (p : Slideshows.pin) : string := ostr_or (Slideshows.k_title p) "".
Definition description_of (p : Slideshows.pin) : string :=
  ostr_or (Slideshows.k_description p) "".

Definition claimed_score : Slideshows.pin -> Q :=
  score_formula (fun o => o) (fun p => lower (title_of p ++ description_of p)%string).

(** As the code has it: a dimension is known when it is present and not
    zero, and a space separates title and description. *)
Definition nonzero (o : option Z) : option Z :=
  match o with
  | Some z => if z =? 0 then None else Some z
  | None => None
  end.

Definition amended_score : Slideshows.pin -> Q :=
  score_formula nonzero (fun p => lower (title_of p ++ " " ++ description_of p)%string).

(** *** The score as a float *)

(** The number of pixels the code computes: a dimension that is absent
    or zero reads as 0. *)
Definition pixels (p : Slideshows.pin) : Z :=
  (oint_or (Slideshows.k_image_width p) 0 * oint_or (Slideshows.k_image_height p) 0)%Z.

(** The largest binary64 number. *)
Definition max_float : Z := (2 ^ 1024 - 2 ^ 971)%Z.

(** Half a quantum of the floats below 256, the largest error of one
    rounding there; the seven roundings of a score stay within
    [score_error]. *)
Definition half_quantum : Q := 1 # 2 ^ 46.
Definition score_error : Q := 1 # 2 ^ 43.

(** A number is whole when it is an integer. *)
Definition whole (t : Q) : Prop := exists z : Z, t == inject_Z z.

(** The float [s] follows the exact value [t] within [e]: it lies
    between the integers [lo] and [hi], at most [e] from [t], and it is
    [t] when [t] is whole. *)
Definition follows (e : Q) (lo hi : Z) (s t : Q) : Prop :=
  (inject_Z lo <= s /\ s <= inject_Z hi)
  /\ (t - e <= s /\ s <= t + e)
  /\ (whole t -> s == t).

(** *** Selection *)

(** The fingerprint of a selected image, from its url, width and height. *)
Definition image_fingerprint (img : Slideshows.PinterestImage) : string :=
  let url_parts := last_n 3 (split "/" (Slideshows.image_url img)) in
  str_prefix 8
    (MD5.hexdigest
       (join "-" url_parts ++ ":" ++ str_int (oint_or (Slideshows.image_width img) 0)
        ++ ":" ++ str_int (oint_or (Slideshows.image_height img) 0))%string).

Definition fingerprint_prefix (img : Slideshows.PinterestImage) : string :=
  str_prefix 4 (image_fingerprint img).

(** [l1] is [l2] with some elements removed. *)
Inductive subsequence {A : Type} : list A -> list A -> Prop :=
| sub_nil : subsequence [] []
| sub_take x l1 l2 : subsequence l1 l2 -> subsequence (x :: l1) (x :: l2)
| sub_skip x l1 l2 : subsequence l1 l2 -> subsequence l1 (x :: l2).

(** Descending by score. *)
Definition score_ge (a b : Q * Slideshows.pin) : Prop := (fst b <= fst a)%Q.

(** The entries of a list with a given score, in the order of the list. *)
Definition with_score (s : Q) (l : list (Q * Slideshows.pin)) : list (Q * Slideshows.pin) :=
  filter (fun x => Qeq_bool (fst x) s) l.

(** *** The sequential pipeline without its rewrite stage *)




End Spec.

(** ** Concrete inputs *)

Module Sample.
Import Eff Base.

Definition required_cfg : AppConfig := mkAppConfig true (Some "s3cret").
Definition anonymous_input : WorkflowInput := mkWorkflowInput None false None.

(** A provider whose primary model is rate limited. *)
Definition no_json : string -> option value := fun _ => None.
Definition rate_limited : LiteLLM.provider :=
  fun _ kw =>
    if String.eqb (LiteLLM.kw_model kw) "gemini/gemini-2.0-flash"
    then inl (Exc "RateLimitError" "quota exceeded" false)
    else inr (LiteLLM.mkModelResponse [Some "hello"] None).
Definition client : LiteLLM.LiteLLMClient :=
  LiteLLM.mkClient "gemini/gemini-2.0-flash"
    (mkFallbackConfig true "openai/gpt-5-nano" 2 default_retry_exceptions) 120.
Definition hi_request : CompletionRequest :=
  mkCompletionRequest [mkMessage USER "Hi!"] None (7 # 10) 2048 false None.

(** A runtime that only knows the scraper tool: [answer] gives the outcome
    for a search query. *)
Definition not_implemented : exception := Exc "NotImplementedError" "" false.
Definition scraper (answer : string -> exception + ExecuteToolOutput) : runtime :=
  fun _ a =>
    match a return exception + result_of a with
    | execute_tool i =>
        match dict_get (params i) "search_query" VNone with
        | VStr q => answer q
        | _ => inl (ValueError "search_query")
        end
    | _ => inl not_implemented
    end.

Definition cat_pin : value :=
  VDict [("id", VStr "1"); ("title", VStr "Cat"); ("description", VNone);
         ("image_url", VStr "https://i.pinimg.com/736x/aa/bb/cat.jpg");
         ("aspect_ratio", VStr "9:16"); ("image_width", VInt 736);
         ("image_height", VInt 1308)].

Definition found (q : string) (pins : list value) : ExecuteToolOutput :=
  mkExecuteToolOutput "gptmarket-pinterest-scraper" true
    [("success", VBool true); ("error", VNone); ("pins", VList pins);
     ("total", VInt (Z.of_nat (length pins))); ("query", VStr q)] None.

(** "cats" finds a pin; "dogs" times out, finds nothing, or succeeds. *)
Definition dogs_time_out (q : string) : exception + ExecuteToolOutput :=
  if String.eqb q "dogs" then inl (Exc "TimeoutError" "activity timed out" false)
  else inr (found q [cat_pin]).
Definition dogs_find_nothing (q : string) : exception + ExecuteToolOutput :=
  if String.eqb q "dogs" then inr (found q []) else inr (found q [cat_pin]).
(** "cats" finds no pin and "dogs" times out. *)
Definition nothing_and_time_out (q : string) : exception + ExecuteToolOutput :=
  if String.eqb q "dogs" then inl (Exc "TimeoutError" "activity timed out" false)
  else inr (found q []).

(** Candidates of the selection engine. *)
Definition best_of_pin : Slideshows.pin :=
  Slideshows.mkPin (Some "42") (Some "The best") (Some "of nature")
    (Some "https://i.pinimg.com/736x/aa/bb/nature.jpg") (Some "9:16") None None.

Definition zero_width_pin : Slideshows.pin :=
  Slideshows.mkPin (Some "43") None None
    (Some "https://i.pinimg.com/736x/aa/bb/tall.jpg") (Some "") (Some 0) (Some 1308).

(** A small image whose title holds a keyword, and an image so large
    that the quotient of its pixels by 25000 is no float. *)
Definition thumbnail_pin : Slideshows.pin :=
  Slideshows.mkPin (Some "44") (Some "Best of") None
    (Some "https://i.pinimg.com/736x/aa/bb/thumb.jpg") (Some "9:16")
    (Some 10) (Some 10).

Definition huge_pin : Slideshows.pin :=
  Slideshows.mkPin (Some "45") None None
    (Some "https://i.pinimg.com/736x/aa/bb/huge.jpg") (Some "")
    (Some 25000) (Some (2 ^ 1024)).

(** Quotients [a / b] and sums [a / b + c] of ints that floats hold
    exactly: short and long fractions, ties in both directions, numbers
    below zero, and a quotient so small that it is subnormal. *)
Definition float_cases : list (Z * Z * Z) :=
  [(100, 25000, 10); (962688, 25000, 0); (962688, 25000, 30); (1, 3, 0);
   (1, 3, 100); (2 ^ 53 - 1, 2, 0); (2 ^ 53 - 3, 2, 0); (2 ^ 53 - 1, 4, 1);
   (-7, 3, 40); (-962688, 25000, 50); (1, 10, -50); (999999, 25000, 60);
   (2 ^ 52 + 1, 2 ^ 1000, 0); (1, (2 ^ 52 + 1) * 2 ^ 971, 0);
   (3, (2 ^ 52 + 1) * 2 ^ 971, 0); (2 ^ 900, 3, 1); (40 * 25000, 25000, 10)].

(** Four candidates: [sunset_copy] is [sunset] served from another path
    of the CDN, [forest] and [lake] have the same score. *)
Definition sunset : Slideshows.pin :=
  Slideshows.mkPin (Some "1") (Some "Sunset") None
    (Some "https://i.pinimg.com/736x/aa/bb/sunset.jpg") (Some "9:16")
    (Some 736) (Some 1308).
Definition sunset_copy : Slideshows.pin :=
  Slideshows.mkPin (Some "2") (Some "Sunset") None
    (Some "https://i.pinimg.com/originals/aa/bb/sunset.jpg") (Some "9:16")
    (Some 736) (Some 1308).
Definition forest : Slideshows.pin :=
  Slideshows.mkPin (Some "3") (Some "Forest") None
    (Some "https://i.pinimg.com/736x/cc/dd/forest.jpg") (Some "9:16") None None.
Definition lake : Slideshows.pin :=
  Slideshows.mkPin (Some "4") (Some "Lake") None
    (Some "https://i.pinimg.com/736x/ee/ff/lake.jpg") (Some "9:16") None None.

Definition candidates : list Slideshows.pin :=
  [forest; sunset; lake; forest; sunset_copy].

(** A runtime for the sequential pipeline: generation returns urls of
    the provider, storage returns a url of the bucket. *)
Definition generated_face : string := "https://replicate.delivery/out/face.png".
Definition generated_video : string := "https://replicate.delivery/out/video.mp4".
Definition stored_face : string := "https://cdn.example.com/ruby/faces/0001.png".

Definition studio : runtime :=
  fun _ a =>
    match a return exception + result_of a with
    | generate_ugc_person _ => inr (mkUGCPersonOutput [] "a person, shocked")
    | generate_ugc_video_reaction _ => inr (mkUGCVideoReactionOutput [] "she gasps")
    | generate_image_with_model _ _ => inr (mkGenerationOutput generated_face)
    | generate_video_with_model _ _ => inr (mkGenerationOutput generated_video)
    | upload_to_storage _ => inr (mkStorageUploadOutput stored_face "ruby/faces/0001.png")
    | _ => inl not_implemented
    end.


(** Validation that accepts a value of the declared type only. *)
Definition strict_str (v : value) : option string :=
  match v with VStr s => Some s | _ => None end.
Definition strict_optional_str (v : value) : option (option string) :=
  match v with VNone => Some None | VStr s => Some (Some s) | _ => None end.
Definition strict_int (v : value) : option Z :=
  match v with VInt z => Some z | _ => None end.
Definition strict_optional_int (v : value) : option (option Z) :=
  match v with VNone => Some None | VInt z => Some (Some z) | _ => None end.
Definition simple_str (v : value) : string :=
  match v with
  | VStr s => s
  | VInt z => str_int z
  | VNone => "None"
  | _ => "?"
  end.

(** A response with a 9:16 pin, a square pin, a 9:16 pin whose title is
    a number, and an entry that is not an object. *)
Definition square_pin : value :=
  VDict [("id", VStr "5"); ("image_url", VStr "https://i.pinimg.com/736x/11/22/sq.jpg");
         ("aspect_ratio", VStr "1:1")].
Definition malformed_pin : value :=
  VDict [("id", VStr "6"); ("title", VInt 7);
         ("image_url", VStr "https://i.pinimg.com/736x/33/44/bad.jpg");
         ("aspect_ratio", VStr "9:16")].
Definition api_response : value :=
  VDict [("data",
          VDict [("data", VDict [("pins", VList [cat_pin; square_pin; malformed_pin; VStr "pin"])]);
                 ("metadata", VDict [("total_pins", VInt 4); ("search_query", VStr "cats")])])].
Definition scraper_input : PinterestTool.GptMarketPinterestScraperInput :=
  PinterestTool.mkInput "cats" "social_media" 2.

(** A completion whose JSON holds a number under "queries". *)
Definition queries_is_a_number : CompletionResponse :=
  mkCompletionResponse "{}" "gemini/gemini-2.0-flash-lite" (mkUsageInfo 0 0 0) false
    (Some (VDict [("queries", VInt 7)])).
Definition queries_is_a_string : CompletionResponse :=
  mkCompletionResponse "{}" "gemini/gemini-2.0-flash-lite" (mkUsageInfo 0 0 0) false
    (Some (VDict [("queries", VStr "sunset beach")])).
Definition completes_with (response : CompletionResponse) : runtime :=
  fun _ a =>
    match a return exception + result_of a with
    | generate_json _ => inr response
    | _ => inl not_implemented
    end.

End Sample.

(** ** Notions for the properties of the remaining code *)

Module Extra.
Import Eff Base.

(** A step body that leaves the context alone: it runs activities only. *)
Definition ctx_untouched {A} (body : M A) : Prop :=
  forall w, ctx (snd (body w)) = ctx w.

(** The message a step shows while it runs. *)
Definition running_message (name msg : string) : string :=
  if truthy_str msg then msg else (name ++ "...")%string.

(** The run goes on: the status is RUNNING and [done] are the completed
    steps. *)
Definition running_with (done : list string) (w : world) : Prop :=
  _status (ctx w) = RUNNING /\ _completed_steps (ctx w) = done.

(** The run failed in a step with the error [e]. *)
Definition failed_with (e : exception) (w : world) : Prop :=
  _status (ctx w) = FAILED
  /\ exists p, _current_step (ctx w) = Some p
               /\ status p = FAILED /\ message p = Some (str_exc e).

(** The run failed with [e] in one of [steps], after [done] and the
    steps before the failing one were completed. *)
Definition failed_in (steps done : list string) (e : exception) (w : world) : Prop :=
  failed_with e w
  /\ exists k, (k < length steps)%nat
               /\ _completed_steps (ctx w) = done ++ firstn k steps.

(** The run is complete and [done] are the completed steps. *)
Definition completed_with (done : list string) (w : world) : Prop :=
  _status (ctx w) = COMPLETED /\ _completed_steps (ctx w) = done
  /\ _current_step (ctx w)
     = Some (mkStepProgress "complete" "Complete" COMPLETED 100 (Some "Done!")).

(** From a running world [m] either completes [steps] and establishes
    [post], or fails in one of them with the exception it raises. *)
Definition proceeds {A} (steps : list string) (post : list string -> world -> Prop)
           (m : M A) : Prop :=
  forall w done, running_with done w ->
    match m w with
    | (inr _, w') => post (done ++ steps) w'
    | (inl e, w') => failed_in steps done e w'
    end.

(** The steps a successful run of the sequential pipeline completes. *)
Definition ruby_steps (input : Ruby.RubyInput) : list string :=
  ["prompts"; "face"; "video"]
  ++ (if Ruby.slowed_video input then ["slowmo"] else [])
  ++ (if truthy_ostr (Ruby.text_overlay input) then ["text"] else [])
  ++ (if rewrite_enabled (Ruby.base input) then ["rewrite"] else [])
  ++ ["upload"].

(** The name of the activity function of a call, and the names of the
    activities executed, in order. *)
Definition activity_name (a : activity) : string :=
  match a with
  | generate_ugc_person _ => "generate_ugc_person"
  | generate_ugc_video_reaction _ => "generate_ugc_video_reaction"
  | generate_image_with_model _ _ => "generate_image_with_model"
  | generate_video_with_model _ _ => "generate_video_with_model"
  | slow_down_video _ => "slow_down_video"
  | add_text_overlay _ => "add_text_overlay"
  | rewrite_video _ => "rewrite_video"
  | rewrite_images _ => "rewrite_images"
  | upload_to_storage _ => "upload_to_storage"
  | execute_tool _ => "execute_tool"
  | generate_json _ => "generate_json"
  end.

Definition names (calls : list activity_call) : list string :=
  map (fun c => activity_name (call_activity c)) calls.

(** [m] executes the activities [expected], in order, and stops at the
    first that fails. *)
Definition emits {A} (expected : list string) (m : M A) : Prop :=
  forall w,
    match m w with
    | (inr _, w') => names (executed w') = names (executed w) ++ expected
    | (inl _, w') =>
        exists k, names (executed w') = names (executed w) ++ firstn k expected
    end.

(** The activities a successful run of the sequential pipeline executes. *)
Definition ruby_activities (input : Ruby.RubyInput) : list string :=
  ["generate_ugc_person"; "generate_ugc_video_reaction";
   "generate_image_with_model"; "generate_video_with_model"]
  ++ (if Ruby.slowed_video input then ["slow_down_video"] else [])
  ++ (if truthy_ostr (Ruby.text_overlay input) then ["add_text_overlay"] else [])
  ++ (if rewrite_enabled (Ruby.base input) then ["rewrite_images"; "rewrite_video"] else [])
  ++ ["upload_to_storage"].

(** The upload call [_upload_images] makes for an image, and the outcome
    the runtime gives each upload, the first one starting after
    [history]. *)
Definition upload_call (image : Slideshows.PinterestImage) : activity_call :=
  mkCall (upload_to_storage
            (mkStorageUploadInput (Slideshows.image_url image) "auto" "pinterest/images"))
         2 FAST_RETRY None.

Fixpoint upload_outcomes (rt : runtime) (images : list Slideshows.PinterestImage)
         (history : list activity_call) : list (exception + StorageUploadOutput) :=
  match images with
  | [] => []
  | image :: rest =>
      rt history (upload_to_storage
                    (mkStorageUploadInput (Slideshows.image_url image) "auto"
                                          "pinterest/images"))
      :: upload_outcomes rt rest (history ++ [upload_call image])
  end.

(** The results among the outcomes of a gather, in order. *)
Fixpoint successes {A} (l : list (exception + A)) : list A :=
  match l with
  | [] => []
  | inl _ :: rest => successes rest
  | inr a :: rest => a :: successes rest
  end.

(** An image without its url. *)
Definition without_url (image : Slideshows.PinterestImage) : Slideshows.PinterestImage :=
  Slideshows.mkPinterestImage (Slideshows.id image) (Slideshows.title image)
    (Slideshows.description image) "" (Slideshows.aspect_ratio image)
    (Slideshows.image_width image) (Slideshows.image_height image).

(** The url of a scraped pin, and the part of it the fingerprint reads. *)
Definition url_of (p : Slideshows.pin) : string :=
  Slideshows.get_str (Slideshows.k_image_url p) "".
Definition url_tail (p : Slideshows.pin) : list string :=
  last_n 3 (split "/" (url_of p)).

(** The dimensions of a pin, when present, are not negative. *)
Definition dims_nonnegative (p : Slideshows.pin) : Prop :=
  (forall w, Slideshows.k_image_width p = Some w -> 0 <= w)
  /\ (forall h, Slideshows.k_image_height p = Some h -> 0 <= h).

(** The request [complete] works on: the one given, or the default
    request for the messages given. *)
Definition effective_request (msgs : option (list Message))
           (request : option CompletionRequest) : option CompletionRequest :=
  match request, msgs with
  | Some r, _ => Some r
  | None, Some m => Some (mkCompletionRequest m None (7 # 10) 2048 false None)
  | None, None => None
  end.

(** The request got no usable response: one of the failures the
    rewrite tools catch. *)
Definition no_response (post : PinterestTool.post_outcome) : bool :=
  match post with
  | PinterestTool.TimeoutException | PinterestTool.HTTPStatusError _ _
  | PinterestTool.RequestError _ | PinterestTool.InvalidJSON => true
  | _ => false
  end.

(** The runtime runs the activity [rewrite_images] of the repository,
    with the API key [key] and the outcome [post] of the request. *)
Definition runs_rewrite_images (rt : runtime) (validate_str : value -> option string)
           (key : option string) (post : PinterestTool.post_outcome) : Prop :=
  forall history i,
    rt history (rewrite_images i) = RewriteTools.rewrite_images validate_str key i post.

(** The registries the code can build: from the empty registry by
    [register] calls that return and by [unregister] calls. *)
Inductive built : Registry.ToolRegistry -> Prop :=
| built_empty : built Registry.empty
| built_register r tool r' :
    built r -> Registry.register r tool = inr r' -> built r'
| built_unregister r tool_id :
    built r -> built (Registry.unregister r tool_id).

(** Every tool is stored under its own id. *)
Definition keyed_by_id (r : Registry.ToolRegistry) : Prop :=
  Forall (fun kv => fst kv = Registry.id (snd kv)) r.

End Extra.

(** ** Concrete inputs for the remaining code *)

Module Cases.
Import Eff Base.

(** A storage that cannot fetch the url [broken]. *)
Definition storage (broken : string) : runtime :=
  fun _ a =>
    match a return exception + result_of a with
    | upload_to_storage i =>
        if String.eqb (su_url i) broken
        then inl (Exc "RuntimeError" "download failed" false)
        else inr (mkStorageUploadOutput
                    ("https://cdn.example.com/" ++ su_folder i ++ "/0001.jpg")%string
                    (su_folder i ++ "/0001.jpg")%string)
    | _ => inl Sample.not_implemented
    end.

Definition sunset_image : Slideshows.PinterestImage :=
  Slideshows.to_image Sample.sunset.
Definition forest_image : Slideshows.PinterestImage :=
  Slideshows.to_image Sample.forest.

(** Two tools: one echoes its parameters, one always fails. *)
Definition echo : Registry.ToolDefinition :=
  Registry.mkTool "echo" "Echo" Registry.UTILITY "Returns its parameters" "1.0.0" false
    (fun params => inr (VDict params))
    (fun input =>
       match input with
       | VDict d => inr (Registry.mkToolOutput true None d)
       | _ => inl (TypeError "not a dict")
       end).

Definition broken : Registry.ToolDefinition :=
  Registry.mkTool "broken" "Broken" Registry.DATA "Always fails" "1.0.0" false
    (fun params => inr (VDict params))
    (fun _ => inl (Exc "RuntimeError" "boom" false)).

Definition two_tools : Registry.ToolRegistry := [("echo", echo); ("broken", broken)].

(** A runtime that runs the rewrite activity of the repository against a
    gateway that times out. *)
Definition rewriter : runtime :=
  fun _ a =>
    match a return exception + result_of a with
    | rewrite_images i =>
        RewriteTools.rewrite_images Sample.strict_str (Some "key") i
                                    PinterestTool.TimeoutException
    | _ => inl Sample.not_implemented
    end.

Definition rewriting_input : WorkflowInput := mkWorkflowInput None true None.

(** A response of the image gateway with one url for two images. *)
Definition one_url : value :=
  VDict [("data", VDict [("urls", VList [VStr "https://cdn.example.com/r/1.jpg"])])].

Definition a_video : RewriteTools.GptMarketVideoRewriteInput :=
  RewriteTools.mkVideoInput "https://cdn.example.com/ruby/videos/1.mp4" 1 None.

Definition two_images : RewriteTools.GptMarketImageRewriteInput :=
  RewriteTools.mkImageInput
    ["https://i.pinimg.com/736x/aa/bb/sunset.jpg";
     "https://i.pinimg.com/736x/cc/dd/forest.jpg"] None.

Definition one_rewritten : RewriteTools.GptMarketImageRewriteOutput :=
  RewriteTools.mkImageOutput true None
    [RewriteTools.mkRewrittenImage "https://i.pinimg.com/736x/aa/bb/sunset.jpg"
                                   "https://cdn.example.com/r/1.jpg";
     RewriteTools.mkRewrittenImage "https://i.pinimg.com/736x/cc/dd/forest.jpg"
                                   "https://i.pinimg.com/736x/cc/dd/forest.jpg"] 2.

(** A completion whose JSON holds three queries. *)
Definition three_queries : CompletionResponse :=
  mkCompletionResponse "{}" "gemini/gemini-2.0-flash-lite" (mkUsageInfo 0 0 0) false
    (Some (VDict [("queries",
                   VList [VStr "moody sunset beach"; VStr "pastel sunset sky";
                          VStr "golden hour city"])])).

End Cases.

(** * Properties *)

Import Eff Base Protocol.

(** ** Strings *)

Lemma ostr_eqb_spec (a b : option string) : reflect (a = b) (ostr_eqb a b).
Proof.
  destruct a as [x|], b as [y|]; simpl; try (constructor; congruence).
  destruct (String.eqb_spec x y); constructor; congruence.
Qed.

Lemma prefix_app (n s : string) : String.prefix n (n ++ s)%string = true.
Proof.
  induction n as [|c n IH]; simpl.
  - destruct s; reflexivity.
  - destruct (ascii_dec c c); [exact IH | congruence].
Qed.

Lemma prefix_exists (n h : string) :
  String.prefix n h = true -> exists post, h = (n ++ post)%string.
Proof.
  revert h. induction n as [|c n IH]; intros h H.
  - exists h. reflexivity.
  - destruct h as [|d h]; simpl in H; [discriminate|].
    destruct (ascii_dec c d) as [->|]; [|discriminate].
    destruct (IH h H) as [post ->]. exists post. reflexivity.
Qed.

Lemma contains_here (n h : string) : String.prefix n h = true -> contains n h = true.
Proof. intros H. destruct h; simpl in *; rewrite H; reflexivity. Qed.

Lemma contains_later (n h : string) (c : ascii) :
  contains n h = true -> contains n (String c h) = true.
Proof.
  intros H. change (contains n (String c h))
    with (if String.prefix n (String c h) then true else contains n h).
  rewrite H. destruct (String.prefix n (String c h)); reflexivity.
Qed.

(** [contains] is the substring test: [needle in hay] holds exactly when
    [hay] is [pre ++ needle ++ post]. *)
Lemma contains_spec (n h : string) :
  contains n h = true <-> exists pre post, h = (pre ++ n ++ post)%string.
Proof.
  split.
  - induction h as [|c h IH].
    + change (contains n "")
        with (if String.prefix n "" then true else false).
      destruct (String.prefix n "") eqn:E; [|discriminate].
      intros _. destruct (prefix_exists _ _ E) as [post Hp].
      exists ""%string, post. exact Hp.
    + change (contains n (String c h))
        with (if String.prefix n (String c h) then true else contains n h).
      destruct (String.prefix n (String c h)) eqn:E.
      * intros _. destruct (prefix_exists _ _ E) as [post Hp].
        exists ""%string, post. exact Hp.
      * intros H. destruct (IH H) as (pre & post & ->).
        exists (String c pre), post. reflexivity.
  - intros (pre & post & ->). induction pre as [|c pre IH].
    + apply contains_here. exact (prefix_app n post).
    + exact (contains_later _ _ c IH).
Qed.

Lemma app_string_assoc (a b c : string) :
  ((a ++ b) ++ c = a ++ (b ++ c))%string.
Proof. induction a; simpl; congruence. Qed.

(** ** The context and the authentication gate *)

Lemma start_raises cfg input w :
  WORKFLOW_SECRET_ENABLED cfg = true ->
  truthy_ostr (WORKFLOW_SECRET_KEY cfg) = false
  \/ secret_key input <> WORKFLOW_SECRET_KEY cfg ->
  exists msg, start cfg input w = (inl (ApplicationError msg true), w).
Proof.
  intros Hen Hbad. unfold start. rewrite Hen.
  destruct (truthy_ostr (WORKFLOW_SECRET_KEY cfg)) eqn:Hk; simpl.
  - destruct Hbad as [Hbad|Hbad]; [discriminate|].
    destruct (ostr_eqb_spec (secret_key input) (WORKFLOW_SECRET_KEY cfg)); [contradiction|].
    simpl. eexists. reflexivity.
  - eexists. reflexivity.
Qed.

Lemma start_passes_when_disabled cfg input w :
  WORKFLOW_SECRET_ENABLED cfg = false ->
  start cfg input w = (inr tt, mkWorld (set_status RUNNING (ctx w)) (executed w)).
Proof. intros H. unfold start. rewrite H. reflexivity. Qed.

(** C1. When authentication is required and no server secret is
    configured, or the input's secret_key is absent or differs from the
    configured secret, [start] raises a non-retryable ApplicationError and
    leaves the context untouched: on a fresh context the status is still
    PENDING and no step was entered, and a whole run (here the sequential
    pipeline, under any runtime) stops there without executing an activity.
    When authentication is not required, [start] returns normally
    whatever the secret_key and sets the status to RUNNING. *)
Theorem C1_start_auth_gate (cfg : AppConfig) (input : WorkflowInput) (w : world) :
  (WORKFLOW_SECRET_ENABLED cfg = true ->
   truthy_ostr (WORKFLOW_SECRET_KEY cfg) = false
   \/ secret_key input <> WORKFLOW_SECRET_KEY cfg ->
   exists msg,
     start cfg input w = (inl (ApplicationError msg true), w)
     /\ is_non_retryable (ApplicationError msg true) = true
     /\ _status (ctx (snd (start cfg input new_world))) = PENDING
     /\ _current_step (ctx (snd (start cfg input new_world))) = None
     /\ (forall steps,
           Protocol.run cfg input steps new_world
           = (inl (ApplicationError msg true), new_world))
     /\ (forall rt ruby, Ruby.base ruby = input ->
           Ruby.run cfg rt ruby new_world
           = (inl (ApplicationError msg true), new_world)))
  /\ (WORKFLOW_SECRET_ENABLED cfg = false ->
      fst (start cfg input w) = inr tt
      /\ _status (ctx (snd (start cfg input w))) = RUNNING).
Proof.
  split.
  - intros Hen Hbad.
    destruct (start_raises cfg input new_world Hen Hbad) as [msg Hnew].
    destruct (start_raises cfg input w Hen Hbad) as [msg' Hw].
    assert (msg' = msg) as ->.
    { revert Hnew Hw. unfold start. rewrite Hen.
      destruct (negb (truthy_ostr (WORKFLOW_SECRET_KEY cfg)));
        [|destruct (negb (ostr_eqb (secret_key input) (WORKFLOW_SECRET_KEY cfg)))];
        unfold raise, modify, ApplicationError; congruence. }
    exists msg. rewrite Hnew. simpl.
    repeat split; try assumption.
    + intros steps. unfold Protocol.run, bind. rewrite Hnew. reflexivity.
    + intros rt ruby <-. unfold Ruby.run, bind. rewrite Hnew. reflexivity.
  - intros Hdis. rewrite (start_passes_when_disabled _ _ _ Hdis). split; reflexivity.
Qed.

Lemma C1_start_auth_gate_witness :
  exists msg,
    start Sample.required_cfg Sample.anonymous_input new_world
    = (inl (ApplicationError msg true), new_world).
Proof.
  destruct (proj1 (C1_start_auth_gate Sample.required_cfg Sample.anonymous_input new_world)
                  eq_refl (or_intror (fun H => eq_ind None (fun o => match o with None => True | Some _ => False end) I _ H)))
    as [msg H].
  exists msg. exact (proj1 H).
Defined.

(** ** Status transitions *)

Lemma step_enter_status sid name pct msg w :
  _status (ctx (snd (step_enter sid name pct msg w))) = _status (ctx w)
  /\ exists p, _current_step (ctx (snd (step_enter sid name pct msg w))) = Some p.
Proof. split; [reflexivity | eexists; reflexivity]. Qed.

Lemma step_complete_status sid w :
  _status (ctx (snd (step_complete sid w))) = _status (ctx w).
Proof. unfold step_complete. destruct (_current_step (ctx w)); reflexivity. Qed.

Lemma step_fail_status e w p :
  _current_step (ctx w) = Some p ->
  _status (ctx (snd (step_fail e w))) = FAILED.
Proof. intros H. unfold step_fail. rewrite H. reflexivity. Qed.

Lemma step_complete_keeps_step sid w p :
  _current_step (ctx w) = Some p ->
  fst (step_complete sid w) = inr tt.
Proof. intros H. unfold step_complete. rewrite H. reflexivity. Qed.

Lemma observed_steps (steps : list step_spec) :
  forall w, terminal (_status (ctx w)) = false ->
  exists init last,
    observed (ops_of_steps steps) w = init ++ [last]
    /\ Forall (fun s => terminal s = false) init
    /\ terminal last = true.
Proof.
  induction steps as [|s rest IH]; intros w Hw.
  - exists [], COMPLETED. repeat split; constructor.
  - cbn [ops_of_steps]. destruct (sp_raises s) as [e|] eqn:He.
    + exists [_status (ctx w)], FAILED. repeat split.
      constructor; [exact Hw | constructor].
    + cbn [observed run_op].
      set (w1 := snd (step_enter (sp_id s) (sp_name s) (sp_pct s) (sp_msg s) w)).
      set (w2 := snd (step_complete (sp_id s) w1)).
      assert (H1 : _status (ctx w1) = _status (ctx w)) by reflexivity.
      assert (H2 : _status (ctx w2) = _status (ctx w)).
      { unfold w2. rewrite step_complete_status. exact H1. }
      destruct (IH w2) as (init & last & Hobs & Hinit & Hlast).
      { rewrite H2. exact Hw. }
      exists (_status (ctx w1) :: _status (ctx w2) :: init), last.
      rewrite Hobs. repeat split; try assumption.
      constructor; [rewrite H1; exact Hw|].
      constructor; [rewrite H2; exact Hw | exact Hinit].
Qed.

(** The operations [ops_of_run] lists are the ones [run] performs: folding
    them over a fresh world gives the context [run] ends with. *)
Lemma run_steps_ops (steps : list step_spec) :
  forall w,
    ctx (snd ((run_steps steps ;;; complete) w))
    = ctx (fold_left (fun w o => snd (run_op o w)) (ops_of_steps steps) w).
Proof.
  induction steps as [|s rest IH]; intros w.
  - reflexivity.
  - cbn [ops_of_steps run_steps]. unfold body_of.
    destruct (sp_raises s) as [e|]; cbn [fold_left run_op].
    + reflexivity.
    + rewrite <- IH. reflexivity.
Qed.

(** C2 as the specification states it fails on the code: after
    [complete()] the status is COMPLETED, and a later [fail()] changes the
    observable status to FAILED. *)
Lemma C2_terminal_not_absorbing :
  terminal (_status (ctx (snd (complete new_world)))) = true
  /\ _status (ctx (snd (complete new_world))) = COMPLETED
  /\ observed [OpFail "late failure"] (snd (complete new_world)) = [FAILED].
Proof. repeat split. Qed.

(** C2 (amended). The context does not guard its terminal states, but a
    run does not need it to: in the sequence of statuses observable
    during a pipeline run (start, then each step entered and completed in
    order, stopping at the first step whose body raises, then complete),
    a terminal status can only be the last one, so nothing changes it
    afterwards; the sequence of operations is the one [run] performs, and
    step entry and step completion never change the overall status. *)
Theorem C2_run_terminal_is_final (cfg : AppConfig) (input : WorkflowInput)
        (steps : list step_spec) :
  (exists init last,
     observed (ops_of_run cfg input steps) new_world = init ++ [last]
     /\ Forall (fun s => terminal s = false) init)
  /\ ctx (snd (Protocol.run cfg input steps new_world))
     = ctx (fold_left (fun w o => snd (run_op o w)) (ops_of_run cfg input steps) new_world)
  /\ (forall sid name pct msg w,
        _status (ctx (snd (step_enter sid name pct msg w))) = _status (ctx w))
  /\ (forall sid w,
        _status (ctx (snd (step_complete sid w))) = _status (ctx w)).
Proof.
  split; [|split; [|split]].
  - unfold ops_of_run. cbn [observed run_op].
    destruct (start cfg input new_world) as [[e|[]] w1] eqn:Hs; cbn [fst snd].
    + exists [], (_status (ctx w1)). split; [reflexivity | constructor].
    + assert (Hw1 : _status (ctx w1) = RUNNING).
      { revert Hs. unfold start.
        destruct (WORKFLOW_SECRET_ENABLED cfg);
          [destruct (negb (truthy_ostr (WORKFLOW_SECRET_KEY cfg)));
           [|destruct (negb (ostr_eqb (secret_key input) (WORKFLOW_SECRET_KEY cfg)))]|];
          unfold raise, modify; intros H; inversion H; reflexivity. }
      destruct (observed_steps steps w1) as (init & last & Hobs & Hinit & _).
      { rewrite Hw1. reflexivity. }
      exists (_status (ctx w1) :: init), last. rewrite Hobs. split; [reflexivity|].
      constructor; [rewrite Hw1; reflexivity | exact Hinit].
  - unfold Protocol.run, ops_of_run. cbn [fold_left run_op].
    unfold bind at 1.
    destruct (start cfg input new_world) as [[e|[]] w1] eqn:Hs; cbn [fst snd].
    + reflexivity.
    + apply run_steps_ops.
  - reflexivity.
  - intros sid w. apply step_complete_status.
Qed.

(** ** Fallback-aware completion *)

Section Fallback.
Import LiteLLM.

Variable json_loads : string -> option value.
Variable llm : provider.
Variable self : LiteLLMClient.
Variable request : CompletionRequest.
Variable msgs : option (list Message).

Let primary_model : string := ostr_or (model request) (_primary_model self).
Let backup_model : string := fallback_model (_fallback_config self).

(** An attempt is exactly one call of the provider, with the model of
    the attempt. *)
Lemma attempt_calls (m : string) (fu : bool) (calls : list acompletion_kwargs) :
  snd (_complete_with_model json_loads llm self request m fu calls)
  = calls ++ [build_kwargs self request m].
Proof.
  unfold _complete_with_model, bind, acompletion.
  destruct (llm calls (build_kwargs self request m)) as [e|resp]; [reflexivity|].
  destruct (choices resp) as [|choice rest]; [reflexivity|].
  destruct (if json_mode request then json_loads (ostr_or choice "") else None)
    as [[]|]; reflexivity.
Qed.

Lemma attempt_flag (m : string) (fu : bool) (calls : list acompletion_kwargs) resp :
  fst (_complete_with_model json_loads llm self request m fu calls) = inr resp ->
  fallback_used resp = fu /\ cr_model resp = m.
Proof.
  unfold _complete_with_model, bind, acompletion.
  destruct (llm calls (build_kwargs self request m)) as [e|r]; [discriminate|].
  destruct (choices r) as [|choice rest]; [discriminate|].
  destruct (if json_mode request then json_loads (ostr_or choice "") else None)
    as [[]|]; cbn; intros H; inversion H; split; reflexivity.
Qed.

Lemma both_failed_message_embeds (m fb : string) (e1 e2 : exception) :
  exists pre mid,
    both_failed_message m fb e1 e2 = (pre ++ str_exc e1 ++ mid ++ str_exc e2)%string.
Proof.
  exists ("Both primary (" ++ m ++ ") and fallback (" ++ fb
          ++ ") models failed. Primary error: ")%string,
         ". Fallback error: "%string.
  unfold both_failed_message.
  repeat rewrite app_string_assoc. reflexivity.
Qed.

(** C3. A completion call makes its primary attempt first. If it succeeds,
    its response is returned and the provider was called once, so no
    fallback attempt was made. If it fails and fallback is disabled or
    the error is not classified transient by [_should_fallback], the very
    same error is raised after that single call. If it fails with a
    transient error and fallback is enabled, exactly one further call is
    made, with the fallback model: its response is returned with
    [fallback_used] set, or, when it fails too, a RuntimeError is raised
    whose message contains the messages of both errors and whose cause is
    the fallback error. *)
Theorem C3_fallback_policy (calls : list acompletion_kwargs) :
  let primary := _complete_with_model json_loads llm self request primary_model false calls in
  let result := complete json_loads llm self msgs (Some request) calls in
  (forall resp, fst primary = inr resp ->
     result = (inr resp, calls ++ [build_kwargs self request primary_model])
     /\ fallback_used resp = false)
  /\ (forall e, fst primary = inl e ->
        enabled (_fallback_config self) = false \/ _should_fallback self e = false ->
        result = (inl e, calls ++ [build_kwargs self request primary_model]))
  /\ (forall e, fst primary = inl e ->
        enabled (_fallback_config self) = true -> _should_fallback self e = true ->
        let backup := _complete_with_model json_loads llm self request backup_model true
                        (calls ++ [build_kwargs self request primary_model]) in
        snd result = calls ++ [build_kwargs self request primary_model;
                               build_kwargs self request backup_model]
        /\ (forall resp, fst backup = inr resp ->
              fst result = inr resp /\ fallback_used resp = true)
        /\ (forall e2, fst backup = inl e2 ->
              exists msg,
                fst result = inl (ExcFrom "RuntimeError" msg false e2)
                /\ contains (str_exc e) msg = true
                /\ contains (str_exc e2) msg = true)).
Proof.
  intros primary result.
  pose proof (attempt_calls primary_model false calls) as Hcalls.
  fold primary in Hcalls.
  assert (Hres : result
                 = try_except (fun _ => primary)
                     (fun primary_error =>
                        if negb (enabled (_fallback_config self)) then raise primary_error
                        else if negb (_should_fallback self primary_error) then raise primary_error
                        else
                          try_except (_complete_with_model json_loads llm self request backup_model true)
                            (fun fallback_error =>
                               raise (ExcFrom "RuntimeError"
                                        (both_failed_message primary_model backup_model
                                                             primary_error fallback_error)
                                        false fallback_error))) calls) by reflexivity.
  unfold try_except in Hres.
  destruct primary as [[e|resp] calls1] eqn:Hp; cbn [fst snd] in *; subst calls1.
  - split; [intros resp H; discriminate|]. split.
    + intros e' He' Hno. inversion He'; subst e'. rewrite Hres.
      destruct (enabled (_fallback_config self)); cbn [negb].
      * destruct Hno as [Hno|Hno]; [discriminate|]. rewrite Hno. reflexivity.
      * reflexivity.
    + intros e' He' Hen Htr. inversion He'; subst e'.
      rewrite Hen, Htr in Hres. cbn [negb] in Hres.
      pose proof (attempt_calls backup_model true
                    (calls ++ [build_kwargs self request primary_model])) as Hb.
      set (backup := _complete_with_model json_loads llm self request backup_model true
                       (calls ++ [build_kwargs self request primary_model])) in *.
      rewrite <- app_assoc in Hb. cbn [app] in Hb.
      destruct backup as [[e2|resp] calls2] eqn:Hbk; cbn [fst snd] in *; subst calls2;
        rewrite Hres; cbn [fst snd raise].
      * split; [reflexivity|]. split; [intros resp H; discriminate|].
        intros e2' He2. inversion He2; subst e2'.
        exists (both_failed_message primary_model backup_model e e2).
        split; [reflexivity|].
        destruct (both_failed_message_embeds primary_model backup_model e e2)
          as (pre & mid & ->).
        split; apply contains_spec.
        -- exists pre, (mid ++ str_exc e2)%string. reflexivity.
        -- exists (pre ++ str_exc e ++ mid)%string, ""%string.
           repeat rewrite app_string_assoc.
           replace (str_exc e2 ++ "")%string with (str_exc e2); [reflexivity|].
           clear. induction (str_exc e2); simpl; congruence.
      * split; [reflexivity|]. split.
        -- intros resp' H. inversion H; subst resp'. split; [reflexivity|].
           apply (attempt_flag backup_model true
                    (calls ++ [build_kwargs self request primary_model])).
           fold backup. rewrite Hbk. reflexivity.
        -- intros e2 H. discriminate.
  - split.
    + intros resp' H. inversion H; subst resp'. split; [rewrite Hres; reflexivity|].
      apply (attempt_flag primary_model false calls).
      fold primary. rewrite Hp. reflexivity.
    + split; intros e H; discriminate.
Qed.

End Fallback.

Lemma C3_fallback_policy_witness :
  fst (LiteLLM.complete Sample.no_json Sample.rate_limited Sample.client
         None (Some Sample.hi_request) [])
  = inr (mkCompletionResponse "hello" "openai/gpt-5-nano" (mkUsageInfo 0 0 0) true None)
  /\ fallback_used
       (mkCompletionResponse "hello" "openai/gpt-5-nano" (mkUsageInfo 0 0 0) true None)
     = true.
Proof.
  apply (proj1 (proj2 (proj2 (proj2
           (C3_fallback_policy Sample.no_json Sample.rate_limited Sample.client
              Sample.hi_request None []))
           (Exc "RateLimitError" "quota exceeded" false)
           eq_refl eq_refl eq_refl))).
  reflexivity.
Defined.

(** ** Fan-out and gather *)

Lemma map_snd_combine {A B} (l : list A) :
  forall l' : list B, length l' = length l -> map snd (combine l l') = l'.
Proof.
  induction l as [|a l IH]; intros [|b l'] H; try discriminate; cbn.
  - reflexivity.
  - rewrite IH; [reflexivity | now injection H].
Qed.

Section FanOut.
Import Slideshows Spec.

Variable rt : runtime.

Lemma gather_scrape (queries : list string) :
  forall w,
    gather_return_exceptions (map (scrape_task rt) queries) w
    = (inr (outcomes rt queries (executed w)),
       mkWorld (ctx w) (executed w ++ map scrape_activity_call queries)).
Proof.
  induction queries as [|q rest IH]; intros w.
  - cbn. rewrite app_nil_r. destruct w; reflexivity.
  - cbn [map gather_return_exceptions outcomes].
    unfold scrape_task at 1, run_activity at 1.
    rewrite IH. cbn [ctx executed]. rewrite <- app_assoc. reflexivity.
Qed.

Lemma outcomes_length (queries : list string) :
  forall h, length (outcomes rt queries h) = length queries.
Proof. induction queries; intros h; cbn; [reflexivity | rewrite IHqueries; reflexivity]. Qed.

Lemma collect_spec (branches : list (string * (exception + ExecuteToolOutput))) :
  forall all_pins errors,
    Forall pins_are_list (map snd branches) ->
    collect branches all_pins errors
    = inr (all_pins ++ flat_map branch_pins (map snd branches),
           errors ++ failure_lines branches).
Proof.
  induction branches as [|[q r] rest IH]; intros all_pins errors Hwf.
  - cbn. rewrite !app_nil_r. reflexivity.
  - inversion Hwf as [|? ? Hr Hrest]; subst.
    cbn [collect map snd flat_map failure_lines fst].
    destruct r as [e|out]; cbn [branch_failure branch_pins].
    + rewrite IH by assumption. cbn [app]. rewrite <- app_assoc. reflexivity.
    + destruct (success out) eqn:Hs; cbn [negb].
      * destruct (output out) as [|item items] eqn:Ho.
        -- rewrite IH by assumption. reflexivity.
        -- destruct (Hr Hs) as [l Hl]; [rewrite Ho; discriminate|].
           rewrite Ho in Hl. rewrite Hl. cbn [iterate].
           rewrite IH by assumption. rewrite <- app_assoc. reflexivity.
      * rewrite IH by assumption. cbn [app]. rewrite <- app_assoc. reflexivity.
Qed.

Lemma all_failed_spec (branches : list (string * (exception + ExecuteToolOutput))) :
  Forall (fun r => branch_failure r <> None) (map snd branches) ->
  Forall pins_are_list (map snd branches)
  /\ flat_map branch_pins (map snd branches) = []
  /\ length (failure_lines branches) = length branches.
Proof.
  induction branches as [|[q r] rest IH]; intros H.
  - repeat split. constructor.
  - inversion H as [|? ? Hr Hrest]; subst. destruct (IH Hrest) as (Hwf & Hp & Hl).
    cbn [map snd flat_map failure_lines fst length]. cbn [snd] in Hr.
    destruct r as [e|out]; cbn [branch_failure branch_pins] in *.
    + repeat split;
        [constructor; [exact I | exact Hwf] | exact Hp
         | cbn [app length]; f_equal; exact Hl].
    + destruct (success out) eqn:Hs; [congruence|].
      repeat split;
        [constructor; [|exact Hwf] | exact Hp
         | cbn [app length]; f_equal; exact Hl].
      cbn. rewrite Hs. discriminate.
Qed.

(** C4 (amended). [_scrape_pinterest] executes one scrape activity per
    query, in order, whatever the outcomes of the other branches. When
    the successful branches bring at least one pin, it returns exactly
    their pins, concatenated in branch order (the failures are logged,
    not returned). When every branch failed (and there is at least one),
    it raises a non-retryable ApplicationError whose message lists, for
    every branch in order, the query text and the error of the branch,
    one entry per branch. *)
Theorem C4_scrape_gather (queries : list string) (w : world) :
  let results := outcomes rt queries (executed w) in
  length results = length queries
  /\ executed (snd (_scrape_pinterest rt queries w))
     = executed w ++ map scrape_activity_call queries
  /\ ctx (snd (_scrape_pinterest rt queries w)) = ctx w
  /\ (Forall pins_are_list results ->
      flat_map branch_pins results <> [] ->
      fst (_scrape_pinterest rt queries w) = inr (flat_map branch_pins results))
  /\ (queries <> [] ->
      Forall (fun r => branch_failure r <> None) results ->
      fst (_scrape_pinterest rt queries w)
      = inl (ApplicationError
               (all_failed_message (failure_lines (combine queries results))) true)
      /\ length (failure_lines (combine queries results)) = length queries).
Proof.
  intros results.
  assert (Hlen : length results = length queries) by apply outcomes_length.
  assert (Hsnd : map snd (combine queries results) = results)
    by (apply map_snd_combine; exact Hlen).
  unfold _scrape_pinterest, bind. rewrite gather_scrape. fold results.
  split; [exact Hlen|].
  split.
  { destruct (collect (combine queries results) [] []) as [e|[[|p ps] [|er ers]]];
      reflexivity. }
  split.
  { destruct (collect (combine queries results) [] []) as [e|[[|p ps] [|er ers]]];
      reflexivity. }
  split.
  - intros Hwf Hne. rewrite collect_spec by (rewrite Hsnd; exact Hwf).
    rewrite Hsnd. cbn [app].
    destruct (flat_map branch_pins results) as [|p ps]; [congruence|].
    reflexivity.
  - intros Hq Hall. rewrite <- Hsnd in Hall.
    destruct (all_failed_spec _ Hall) as (Hwf & Hp & Hl).
    rewrite collect_spec by exact Hwf. rewrite Hp. cbn [app].
    assert (Hl' : length (failure_lines (combine queries results)) = length queries).
    { rewrite Hl, length_combine, Hlen. apply Nat.min_id. }
    split; [|exact Hl'].
    destruct (failure_lines (combine queries results)) as [|er ers].
    + destruct queries; [congruence | discriminate].
    + reflexivity.
Qed.

End FanOut.

(** C4 as the specification states it fails on the code: the value
    returned carries the pins only. With the branch of "dogs" failing,
    the call returns what it returns when no branch fails. *)
Lemma C4_failures_not_returned :
  Spec.branch_failure
    (nth 1 (Spec.outcomes (Sample.scraper Sample.dogs_time_out) ["cats"; "dogs"] [])
         (inl Sample.not_implemented))
  = Some "activity timed out"
  /\ fst (Slideshows._scrape_pinterest (Sample.scraper Sample.dogs_time_out)
            ["cats"; "dogs"] new_world)
     = inr [Sample.cat_pin]
  /\ fst (Slideshows._scrape_pinterest (Sample.scraper Sample.dogs_find_nothing)
            ["cats"; "dogs"] new_world)
     = inr [Sample.cat_pin].
Proof. repeat split. Qed.

(** With one branch succeeding without pins and the other failing, the
    call raises, and the message names the failed branch only. *)
Example scrape_without_pins_raises :
  fst (Slideshows._scrape_pinterest (Sample.scraper Sample.nothing_and_time_out)
         ["cats"; "dogs"] new_world)
  = inl (ApplicationError
           ("All Pinterest queries failed: Query " ++ dq ++ "dogs" ++ dq
            ++ ": activity timed out")%string true).
Proof. reflexivity. Qed.

Lemma C4_scrape_gather_witness :
  fst (Slideshows._scrape_pinterest (Sample.scraper Sample.dogs_time_out)
         ["cats"; "dogs"] new_world)
  = inr [Sample.cat_pin].
Proof.
  apply (proj1 (proj2 (proj2 (proj2
           (C4_scrape_gather (Sample.scraper Sample.dogs_time_out)
              ["cats"; "dogs"] new_world))))).
  - repeat constructor. intros _ _. eexists. reflexivity.
  - discriminate.
Defined.

(** ** Rounding to binary64 *)

Section Rounding.
Import Float64.
Local Open Scope Z_scope.

Lemma round_div_near (num den : Z) :
  0 < den -> 2 * Z.abs (round_div num den * den - num) <= den.
Proof.
  intros Hd. unfold round_div.
  pose proof (Z_div_mod num den ltac:(lia)) as H.
  destruct (Z.div_eucl num den) as [m r]. destruct H as [E Hr].
  destruct (Z.compare_spec (2 * r) den); [destruct (Z.even m)| |]; nia.
Qed.

Lemma round_div_ge (N num den : Z) :
  0 < den -> N * den <= num -> N <= round_div num den.
Proof.
  intros Hd H. unfold round_div.
  pose proof (Z_div_mod num den ltac:(lia)) as Hm.
  destruct (Z.div_eucl num den) as [m r]. destruct Hm as [E Hr].
  assert (N <= m) by nia.
  destruct (2 * r ?= den); [destruct (Z.even m)| |]; lia.
Qed.

Lemma round_div_le (N num den : Z) :
  0 < den -> num <= N * den -> round_div num den <= N.
Proof.
  intros Hd H. unfold round_div.
  pose proof (Z_div_mod num den ltac:(lia)) as Hm.
  destruct (Z.div_eucl num den) as [m r]. destruct Hm as [E Hr].
  destruct (Z.eq_dec r 0) as [->|Hr0].
  - assert (m <= N) by nia.
    destruct (Z.compare_spec (2 * 0) den); [lia | lia | lia].
  - assert (m + 1 <= N) by nia.
    destruct (2 * r ?= den); [destruct (Z.even m)| |]; lia.
Qed.

(** [2 ^ (e - 1) <= n / d] for [e] the exponent of [n / d]. *)
Lemma exponent_lower (n : Z) (d : positive) :
  0 < n ->
  let e := exponent n d in
  if 0 <=? e - 1 then Zpos d * 2 ^ (e - 1) <= n else Zpos d <= n * 2 ^ (1 - e).
Proof.
  intros Hn. unfold exponent.
  pose proof (Z.log2_spec n Hn) as [Hn1 Hn2].
  pose proof (Z.log2_spec (Zpos d) ltac:(lia)) as [Hd1 Hd2].
  pose proof (Z.log2_nonneg n) as Ln. pose proof (Z.log2_nonneg (Zpos d)) as Ld.
  set (ln := Z.log2 n) in *. set (ld := Z.log2 (Zpos d)) in *.
  set (k := ln - ld).
  destruct (if 0 <=? k then Zpos d * 2 ^ k <=? n else Zpos d <=? n * 2 ^ (- k)) eqn:T;
    cbv zeta.
  - replace (k + 1 - 1) with k by lia. replace (1 - (k + 1)) with (- k) by lia.
    destruct (0 <=? k); apply Z.leb_le; exact T.
  - destruct (Z.leb_spec 0 (k - 1)) as [Hk|Hk].
    + apply Z.lt_le_incl. apply Z.lt_le_trans with (2 ^ Z.succ ld * 2 ^ (k - 1)).
      * apply Z.mul_lt_mono_pos_r; [apply Z.pow_pos_nonneg; lia | exact Hd2].
      * rewrite <- Z.pow_add_r by lia. replace (Z.succ ld + (k - 1)) with ln by lia.
        exact Hn1.
    + apply Z.lt_le_incl. apply Z.lt_le_trans with (2 ^ Z.succ ld); [exact Hd2|].
      replace (Z.succ ld) with (ln + (1 - k)) by lia.
      rewrite Z.pow_add_r by lia.
      apply Z.mul_le_mono_nonneg_r; [apply Z.pow_nonneg; lia | exact Hn1].
Qed.

Lemma round_Qeq (x y : Q) : (x == y)%Q -> round x = round y.
Proof. intros H. unfold round. rewrite (Qred_complete x y H). reflexivity. Qed.

#[global] Instance round_Proper : Proper (Qeq ==> Qeq) round.
Proof. intros x y H. rewrite (round_Qeq x y H). reflexivity. Qed.

#[global] Instance fadd_Proper : Proper (Qeq ==> Qeq ==> Qeq) fadd.
Proof. intros a b H c d H'. unfold fadd. rewrite H, H'. reflexivity. Qed.

#[global] Instance fsub_Proper : Proper (Qeq ==> Qeq ==> Qeq) fsub.
Proof. intros a b H c d H'. unfold fsub. rewrite H, H'. reflexivity. Qed.

Lemma exponent_le (n : Z) (d : positive) (B : Z) :
  0 < n -> 0 <= B -> n < 2 ^ B * Zpos d -> exponent n d <= B.
Proof.
  intros Hn HB Hlt. pose proof (exponent_lower n d Hn) as H. cbv zeta in H.
  destruct (Z.leb_spec 0 (exponent n d - 1)) as [He|He]; [|lia].
  assert (Hp : 2 ^ (exponent n d - 1) < 2 ^ B).
  { apply Z.mul_lt_mono_pos_l with (Zpos d); [lia|]. lia. }
  apply Z.pow_lt_mono_r_iff in Hp; lia.
Qed.

Lemma pow2_pos (s : Z) : 0 <= s -> 0 < 2 ^ s.
Proof. intros. apply Z.pow_pos_nonneg; lia. Qed.

(** The quantum of a number below [2 ^ B] in absolute value. *)
Lemma quantum_le (n : Z) (d : positive) (B : Z) :
  n <> 0 -> 0 <= B -> B <= 53 -> Z.abs n < 2 ^ B * Zpos d ->
  Z.max (exponent (Z.abs n) d - 53) (-1074) <= Z.max (B - 53) (-1074).
Proof.
  intros Hn HB HB' Hlt.
  pose proof (exponent_le (Z.abs n) d B ltac:(lia) HB Hlt). lia.
Qed.

Lemma Qred_value (x : Q) (n : Z) (d : positive) :
  Qred x = n # d -> (x == n # d)%Q.
Proof. intros E. rewrite <- E. symmetry. apply Qred_correct. Qed.

Lemma round_zero (x : Q) (n : Z) (d : positive) :
  Qred x = n # d -> n = 0 -> round x = 0%Q /\ (x == 0)%Q.
Proof.
  intros E Hn. split.
  - unfold round. rewrite E, Hn. reflexivity.
  - rewrite (Qred_value x n d E), Hn. reflexivity.
Qed.

Lemma round_fine (x : Q) (n : Z) (d : positive) (fe : Z) :
  Qred x = n # d ->
  n <> 0 -> fe = Z.max (exponent (Z.abs n) d - 53) (-1074) -> fe <= 0 ->
  (round x == round_div (n * 2 ^ (- fe)) (Zpos d) # Z.to_pos (2 ^ (- fe)))%Q.
Proof.
  intros E Hn -> Hfe. unfold round. rewrite E. cbn [Qnum Qden].
  destruct (Z.eqb_spec n 0) as [|_]; [contradiction|]. cbv zeta.
  destruct (Z.leb_spec (Z.max (exponent (Z.abs n) d - 53) (-1074)) 0); [|lia].
  apply Qred_correct.
Qed.

Lemma round_coarse (x : Q) (n : Z) (d : positive) (fe : Z) :
  Qred x = n # d ->
  n <> 0 -> fe = Z.max (exponent (Z.abs n) d - 53) (-1074) -> 0 < fe ->
  round x = inject_Z (round_div n (Zpos d * 2 ^ fe) * 2 ^ fe).
Proof.
  intros E Hn -> Hfe. unfold round. rewrite E. cbn [Qnum Qden].
  destruct (Z.eqb_spec n 0) as [|_]; [contradiction|]. cbv zeta.
  destruct (Z.leb_spec (Z.max (exponent (Z.abs n) d - 53) (-1074)) 0); [lia|].
  reflexivity.
Qed.

Lemma Qle_int_frac (N k : Z) (P : positive) :
  (inject_Z N <= k # P)%Q <-> N * Zpos P <= k.
Proof. unfold Qle. cbn. lia. Qed.

Lemma Qle_frac_int (N k : Z) (P : positive) :
  (k # P <= inject_Z N)%Q <-> k <= N * Zpos P.
Proof. unfold Qle. cbn. lia. Qed.

Lemma small_quantum (x : Q) (n : Z) (d : positive) (B : Z) :
  Qred x = n # d -> n <> 0 -> 0 <= B -> B <= 53 ->
  (- inject_Z (2 ^ B) < x)%Q -> (x < inject_Z (2 ^ B))%Q ->
  Z.max (exponent (Z.abs n) d - 53) (-1074) <= Z.max (B - 53) (-1074).
Proof.
  intros E Hn HB HB' Hlo Hhi. apply quantum_le; try assumption.
  assert (Hlo' : (- inject_Z (2 ^ B) < n # d)%Q)
    by (rewrite <- (Qred_value x n d E); exact Hlo).
  assert (Hhi' : (n # d < inject_Z (2 ^ B))%Q)
    by (rewrite <- (Qred_value x n d E); exact Hhi).
  unfold Qlt in Hlo', Hhi'. cbn [Qnum Qden inject_Z Qopp] in Hlo', Hhi'. lia.
Qed.

(** Rounding does not cross an integer: fine quantum. *)
Lemma round_fine_ge (x : Q) (n : Z) (d : positive) (N : Z) :
  Qred x = n # d -> n <> 0 ->
  Z.max (exponent (Z.abs n) d - 53) (-1074) <= 0 ->
  (inject_Z N <= x)%Q -> (inject_Z N <= round x)%Q.
Proof.
  intros E Hn Hfe HN.
  rewrite (round_fine x n d _ E Hn eq_refl Hfe).
  set (s := - Z.max (exponent (Z.abs n) d - 53) (-1074)) in *.
  assert (Hs : 0 <= s) by (unfold s; lia).
  pose proof (pow2_pos s Hs) as HT.
  apply Qle_int_frac. rewrite Z2Pos.id by exact HT.
  apply round_div_ge; [lia|].
  assert (HN' : (inject_Z N <= n # d)%Q)
    by (rewrite <- (Qred_value x n d E); exact HN).
  apply (proj1 (Qle_int_frac N n d)) in HN'.
  replace (N * 2 ^ s * Zpos d) with (N * Zpos d * 2 ^ s) by ring.
  apply Z.mul_le_mono_nonneg_r; lia.
Qed.

Lemma round_fine_le (x : Q) (n : Z) (d : positive) (N : Z) :
  Qred x = n # d -> n <> 0 ->
  Z.max (exponent (Z.abs n) d - 53) (-1074) <= 0 ->
  (x <= inject_Z N)%Q -> (round x <= inject_Z N)%Q.
Proof.
  intros E Hn Hfe HN.
  rewrite (round_fine x n d _ E Hn eq_refl Hfe).
  set (s := - Z.max (exponent (Z.abs n) d - 53) (-1074)) in *.
  assert (Hs : 0 <= s) by (unfold s; lia).
  pose proof (pow2_pos s Hs) as HT.
  apply Qle_frac_int. rewrite Z2Pos.id by exact HT.
  apply round_div_le; [lia|].
  assert (HN' : (n # d <= inject_Z N)%Q)
    by (rewrite <- (Qred_value x n d E); exact HN).
  apply (proj1 (Qle_frac_int N n d)) in HN'.
  replace (N * 2 ^ s * Zpos d) with (N * Zpos d * 2 ^ s) by ring.
  apply Z.mul_le_mono_nonneg_r; lia.
Qed.

(** Rounding a number below 2^53 in absolute value does not cross an
    integer. *)
Lemma round_int_ge (x : Q) (N : Z) :
  (- inject_Z (2 ^ 53) < x)%Q -> (x < inject_Z (2 ^ 53))%Q ->
  (inject_Z N <= x)%Q -> (inject_Z N <= round x)%Q.
Proof.
  intros Hlo Hhi HN. destruct (Qred x) as [n d] eqn:E.
  destruct (Z.eq_dec n 0) as [Hn|Hn].
  - destruct (round_zero x n d E Hn) as [-> Hx]. rewrite <- Hx. exact HN.
  - apply (round_fine_ge x n d N E Hn); [|exact HN].
    pose proof (small_quantum x n d 53 E Hn ltac:(lia) ltac:(lia) Hlo Hhi). lia.
Qed.

Lemma round_int_le (x : Q) (N : Z) :
  (- inject_Z (2 ^ 53) < x)%Q -> (x < inject_Z (2 ^ 53))%Q ->
  (x <= inject_Z N)%Q -> (round x <= inject_Z N)%Q.
Proof.
  intros Hlo Hhi HN. destruct (Qred x) as [n d] eqn:E.
  destruct (Z.eq_dec n 0) as [Hn|Hn].
  - destruct (round_zero x n d E Hn) as [-> Hx]. rewrite <- Hx. exact HN.
  - apply (round_fine_le x n d N E Hn); [|exact HN].
    pose proof (small_quantum x n d 53 E Hn ltac:(lia) ltac:(lia) Hlo Hhi). lia.
Qed.

Lemma round_exact (x : Q) (z : Z) :
  - 2 ^ 53 < z < 2 ^ 53 -> (x == inject_Z z)%Q -> (round x == inject_Z z)%Q.
Proof.
  intros Hz Hx.
  assert (Hlo : (- inject_Z (2 ^ 53) < x)%Q).
  { rewrite Hx. change (- inject_Z (2 ^ 53))%Q with (inject_Z (- 2 ^ 53)).
    rewrite <- Zlt_Qlt. lia. }
  assert (Hhi : (x < inject_Z (2 ^ 53))%Q).
  { rewrite Hx. rewrite <- Zlt_Qlt. lia. }
  apply Qle_antisym.
  - apply round_int_le; try assumption. rewrite Hx. apply Qle_refl.
  - apply round_int_ge; try assumption. rewrite Hx. apply Qle_refl.
Qed.

(** Rounding keeps a number at or above a natural number up to 2^52 at or
    above it, whatever its size. *)
Lemma round_ge_nat (x : Q) (N : Z) :
  0 <= N <= 2 ^ 52 -> (inject_Z N <= x)%Q -> (inject_Z N <= round x)%Q.
Proof.
  intros HN Hx. destruct (Qred x) as [n d] eqn:E.
  destruct (Z.eq_dec n 0) as [Hn|Hn].
  - destruct (round_zero x n d E Hn) as [-> Hx0]. rewrite <- Hx0. exact Hx.
  - destruct (Z_le_gt_dec (Z.max (exponent (Z.abs n) d - 53) (-1074)) 0) as [Hfe|Hfe].
    + apply (round_fine_ge x n d N E Hn Hfe Hx).
    + rewrite (round_coarse x n d _ E Hn eq_refl ltac:(lia)).
      set (fe := Z.max (exponent (Z.abs n) d - 53) (-1074)) in *.
      assert (Hpos : 0 < n).
      { assert (Hx' : (inject_Z N <= n # d)%Q)
          by (rewrite <- (Qred_value x n d E); exact Hx).
        apply (proj1 (Qle_int_frac N n d)) in Hx'. nia. }
      pose proof (exponent_lower (Z.abs n) d ltac:(lia)) as He. cbv zeta in He.
      assert (Hfe' : exponent (Z.abs n) d - 1 = fe + 52) by (unfold fe; lia).
      rewrite Hfe' in He.
      destruct (Z.leb_spec 0 (fe + 52)); [|lia].
      rewrite Z.pow_add_r in He by lia.
      pose proof (pow2_pos fe ltac:(lia)) as HT.
      assert (Hk : 2 ^ 52 <= round_div n (Zpos d * 2 ^ fe)).
      { apply round_div_ge; [nia|]. rewrite Z.abs_eq in He by lia. nia. }
      rewrite <- Zle_Qle. nia.
Qed.

Lemma frac_diff (k n a : Z) (d T : positive) :
  k * Zpos d - n * Zpos T = a ->
  (k # T == (n # d) + (a # (d * T)))%Q.
Proof.
  intros <-. unfold Qeq, Qplus. cbn. rewrite !Pos2Z.inj_mul. ring.
Qed.

(** The rounding error for a number below 2^8 in absolute value. *)
Lemma round_near (x : Q) :
  (- inject_Z (2 ^ 8) < x)%Q -> (x < inject_Z (2 ^ 8))%Q ->
  (x - (1 # 2 ^ 46) <= round x)%Q /\ (round x <= x + (1 # 2 ^ 46))%Q.
Proof.
  intros Hlo Hhi. destruct (Qred x) as [n d] eqn:E.
  destruct (Z.eq_dec n 0) as [Hn|Hn].
  - destruct (round_zero x n d E Hn) as [-> Hx]. rewrite Hx. split; discriminate.
  - pose proof (small_quantum x n d 8 E Hn ltac:(lia) ltac:(lia) Hlo Hhi) as Hq.
    set (fe := Z.max (exponent (Z.abs n) d - 53) (-1074)) in *.
    assert (Hfe : fe <= -45) by lia.
    rewrite (round_fine x n d fe E Hn eq_refl ltac:(lia)).
    set (s := - fe). assert (Hs : 45 <= s) by (unfold s; lia).
    pose proof (pow2_pos s ltac:(lia)) as HT.
    assert (HT45 : 2 ^ 45 <= 2 ^ s) by (apply Z.pow_le_mono_r; lia).
    pose proof (round_div_near (n * 2 ^ s) (Zpos d) ltac:(lia)) as Hk.
    set (k := round_div (n * 2 ^ s) (Zpos d)) in *.
    rewrite (frac_diff k n (k * Zpos d - n * Zpos (Z.to_pos (2 ^ s))) d (Z.to_pos (2 ^ s)) eq_refl).
    rewrite (Qred_value x n d E).
    set (a := k * Zpos d - n * Zpos (Z.to_pos (2 ^ s))).
    assert (Ha : 2 * Z.abs a <= Zpos d).
    { unfold a. rewrite Z2Pos.id by exact HT. exact Hk. }
    assert (Hb1 : (- (1 # 2 ^ 46) <= a # (d * Z.to_pos (2 ^ s)))%Q).
    { unfold Qle. cbn [Qnum Qden Qopp]. rewrite Pos2Z.inj_mul, Z2Pos.id by exact HT.
      change (Zpos (2 ^ 46)) with (2 * 2 ^ 45).
      assert (H1 : 0 <= Zpos d * (2 ^ s - 2 ^ 45)) by nia.
      assert (H2 : 0 <= (Zpos d - 2 * Z.abs a) * 2 ^ 45) by nia.
      lia. }
    assert (Hb2 : (a # (d * Z.to_pos (2 ^ s)) <= 1 # 2 ^ 46)%Q).
    { unfold Qle. cbn [Qnum Qden Qopp]. rewrite Pos2Z.inj_mul, Z2Pos.id by exact HT.
      change (Zpos (2 ^ 46)) with (2 * 2 ^ 45).
      assert (H1 : 0 <= Zpos d * (2 ^ s - 2 ^ 45)) by nia.
      assert (H2 : 0 <= (Zpos d - 2 * Z.abs a) * 2 ^ 45) by nia.
      lia. }
    split; lra.
Qed.

(** [n / d < 2 ^ e] for [e] the exponent of [n / d]. *)
Lemma exponent_upper (n : Z) (d : positive) :
  0 < n ->
  let e := exponent n d in
  if 0 <=? e then n < Zpos d * 2 ^ e else n * 2 ^ (- e) < Zpos d.
Proof.
  intros Hn. unfold exponent.
  pose proof (Z.log2_spec n Hn) as [Hn1 Hn2].
  pose proof (Z.log2_spec (Zpos d) ltac:(lia)) as [Hd1 Hd2].
  pose proof (Z.log2_nonneg n) as Ln. pose proof (Z.log2_nonneg (Zpos d)) as Ld.
  set (ln := Z.log2 n) in *. set (ld := Z.log2 (Zpos d)) in *.
  set (k := ln - ld).
  destruct (if 0 <=? k then Zpos d * 2 ^ k <=? n else Zpos d <=? n * 2 ^ (- k)) eqn:T;
    cbv zeta.
  - destruct (Z.leb_spec 0 (k + 1)) as [Hk|Hk].
    + apply Z.lt_le_trans with (2 ^ ld * 2 ^ (k + 1)).
      * rewrite <- Z.pow_add_r by lia. replace (ld + (k + 1)) with (Z.succ ln) by lia.
        exact Hn2.
      * apply Z.mul_le_mono_nonneg_r; [apply Z.pow_nonneg; lia | exact Hd1].
    + apply Z.lt_le_trans with (2 ^ ld); [|exact Hd1].
      replace (2 ^ ld) with (2 ^ Z.succ ln * 2 ^ (- (k + 1)))
        by (rewrite <- Z.pow_add_r by lia; f_equal; lia).
      apply Z.mul_lt_mono_pos_r; [apply Z.pow_pos_nonneg; lia | exact Hn2].
  - destruct (Z.leb_spec 0 k) as [Hk|Hk].
    + apply Z.leb_gt in T. exact T.
    + apply Z.leb_gt in T. exact T.
Qed.

(** On the sample quotients and sums, [Float64] gives the float of the
    IEEE 754 specification of the Standard Library. *)
Example Float64_agrees_with_IEEE :
  Forall (fun x : Z * Z * Z =>
            let '(a, b, c) := x in
            IEEE.divide_add a b c
            = Some (fadd (round (inject_Z a / inject_Z b)) (inject_Z c)))
         Sample.float_cases.
Proof. repeat constructor. Qed.

(** Rounding does not pass the largest float from below. *)
Lemma round_max (x : Q) :
  (x <= inject_Z Spec.max_float)%Q -> (round x <= inject_Z Spec.max_float)%Q.
Proof.
  intros Hx. destruct (Qred x) as [n d] eqn:E.
  destruct (Z.eq_dec n 0) as [Hn|Hn].
  - destruct (round_zero x n d E Hn) as [-> _].
    change 0%Q with (inject_Z 0). rewrite <- Zle_Qle. unfold Spec.max_float.
    assert (2 ^ 971 < 2 ^ 1024) by (apply Z.pow_lt_mono_r; lia). lia.
  - destruct (Z_le_gt_dec (Z.max (exponent (Z.abs n) d - 53) (-1074)) 0) as [Hfe|Hfe].
    + apply (round_fine_le x n d _ E Hn Hfe Hx).
    + rewrite (round_coarse x n d _ E Hn eq_refl ltac:(lia)).
      set (fe := Z.max (exponent (Z.abs n) d - 53) (-1074)) in *.
      assert (Hx' : (n # d <= inject_Z Spec.max_float)%Q)
        by (rewrite <- (Qred_value x n d E); exact Hx).
      apply (proj1 (Qle_frac_int _ n d)) in Hx'.
      pose proof (pow2_pos fe ltac:(lia)) as HT.
      assert (Hmax : Spec.max_float = (2 ^ 53 - 1) * 2 ^ 971).
      { unfold Spec.max_float. replace 1024 with (53 + 971) by lia.
        rewrite Z.pow_add_r by lia. ring. }
      assert (H971 : 0 < 2 ^ 971) by (apply pow2_pos; lia).
      rewrite <- Zle_Qle.
      destruct (Z_lt_le_dec n 0) as [Hneg|Hpos].
      * assert (Hk : round_div n (Zpos d * 2 ^ fe) <= 0)
          by (apply round_div_le; nia).
        rewrite Hmax. nia.
      * assert (He : exponent (Z.abs n) d <= 1024).
        { apply exponent_le; [lia | lia |]. rewrite Z.abs_eq by lia.
          apply Z.le_lt_trans with (Spec.max_float * Zpos d); [exact Hx'|].
          apply Z.mul_lt_mono_pos_r; [lia|]. unfold Spec.max_float. lia. }
        assert (Hfe' : fe <= 971) by (unfold fe; lia).
        assert (Hsplit : 2 ^ 971 = 2 ^ (971 - fe) * 2 ^ fe).
        { rewrite <- Z.pow_add_r by lia. f_equal. lia. }
        assert (Hk : round_div n (Zpos d * 2 ^ fe) <= (2 ^ 53 - 1) * 2 ^ (971 - fe)).
        { apply round_div_le; [nia|].
          replace ((2 ^ 53 - 1) * 2 ^ (971 - fe) * (Zpos d * 2 ^ fe))
            with ((2 ^ 53 - 1) * (2 ^ (971 - fe) * 2 ^ fe) * Zpos d) by ring.
          rewrite <- Hsplit, <- Hmax. exact Hx'. }
        rewrite Hmax, Hsplit.
        replace ((2 ^ 53 - 1) * (2 ^ (971 - fe) * 2 ^ fe))
          with ((2 ^ 53 - 1) * 2 ^ (971 - fe) * 2 ^ fe) by ring.
        apply Z.mul_le_mono_nonneg_r; lia.
Qed.

(** Rounding does not bring a number from [2 ^ 1024] on below it. *)
Lemma round_overflow (x : Q) :
  (inject_Z (2 ^ 1024) <= x)%Q -> (inject_Z (2 ^ 1024) <= round x)%Q.
Proof.
  intros Hx. destruct (Qred x) as [n d] eqn:E.
  assert (Hx' : (inject_Z (2 ^ 1024) <= n # d)%Q)
    by (rewrite <- (Qred_value x n d E); exact Hx).
  apply (proj1 (Qle_int_frac _ n d)) in Hx'.
  pose proof (pow2_pos 1024 ltac:(lia)) as H1024.
  assert (Hpos : 0 < n) by nia.
  assert (Hn : n <> 0) by lia.
  assert (He : 1025 <= exponent (Z.abs n) d).
  { pose proof (exponent_upper (Z.abs n) d ltac:(lia)) as Hu. cbv zeta in Hu.
    rewrite Z.abs_eq in * by lia.
    destruct (Z_le_gt_dec 1025 (exponent n d)) as [|Hlt]; [assumption|exfalso].
    destruct (Z.leb_spec 0 (exponent n d)) as [H0|H0].
    - assert (2 ^ exponent n d <= 2 ^ 1024) by (apply Z.pow_le_mono_r; lia).
      nia.
    - pose proof (pow2_pos (- exponent n d) ltac:(lia)). nia. }
  rewrite (round_coarse x n d _ E Hn eq_refl ltac:(lia)).
  set (fe := Z.max (exponent (Z.abs n) d - 53) (-1074)) in *.
  pose proof (exponent_lower (Z.abs n) d ltac:(lia)) as Hl. cbv zeta in Hl.
  assert (Hfe' : exponent (Z.abs n) d - 1 = fe + 52) by (unfold fe; lia).
  rewrite Hfe' in Hl.
  destruct (Z.leb_spec 0 (fe + 52)); [|lia].
  rewrite Z.pow_add_r in Hl by lia.
  pose proof (pow2_pos fe ltac:(lia)) as HT.
  assert (Hk : 2 ^ 52 <= round_div n (Zpos d * 2 ^ fe)).
  { apply round_div_ge; [nia|]. rewrite Z.abs_eq in Hl by lia. nia. }
  assert (Hbig : 2 ^ 1024 <= 2 ^ (fe + 52)) by (apply Z.pow_le_mono_r; lia).
  rewrite Z.pow_add_r in Hbig by lia.
  rewrite <- Zle_Qle. nia.
Qed.

End Rounding.

(** ** The score of a candidate *)

Section Score.
Import Slideshows Spec.
Open Scope Q_scope.

Lemma py_min_Qmin (a b : Q) : py_min a b = Qmin a b.
Proof.
  unfold py_min, Qmin, GenericMinMax.gmin.
  destruct (Qle_bool a b) eqn:E.
  - pose proof (proj1 (Qle_alt a b) (proj1 (Qle_bool_iff a b) E)) as H.
    destruct (a ?= b); try reflexivity. exfalso. apply H. reflexivity.
  - destruct (a ?= b) eqn:C; try reflexivity; exfalso;
      assert (H : a <= b) by (apply Qle_alt; rewrite C; discriminate);
      apply Qle_bool_iff in H; congruence.
Qed.

Lemma lower_app (a b : string) : lower (a ++ b) = (lower a ++ lower b)%string.
Proof. induction a as [|c a IH]; simpl; [reflexivity | rewrite IH; reflexivity]. Qed.

Lemma combined_text_lower (p : pin) :
  combined_text p = lower (title_of p ++ " " ++ description_of p)%string.
Proof. unfold combined_text, title_of, description_of. rewrite !lower_app. reflexivity. Qed.

(** The loop only counts: its result is determined by the number of
    keywords that match. *)
Lemma penalty_loop_matches (keywords : list string) (text : string) :
  forall penalty found,
    penalty_loop keywords text penalty found
    = add_matches (matches keywords text) penalty found.
Proof.
  unfold matches.
  induction keywords as [|k rest IH]; intros penalty found; cbn [penalty_loop filter].
  - reflexivity.
  - destruct (contains k text); cbn [length add_matches].
    + destruct (found + 1 =? 1)%Z; apply IH.
    + apply IH.
Qed.

Lemma matches_perm (text : string) (l l' : list string) :
  Permutation l l' -> matches l text = matches l' text.
Proof.
  unfold matches. induction 1 as [|x l l' _ IH|x y l|l l' l'' _ IH1 _ IH2]; cbn [filter].
  - reflexivity.
  - destruct (contains x text); cbn [length]; congruence.
  - destruct (contains x text), (contains y text); reflexivity.
  - congruence.
Qed.

Lemma add_matches_later (n : nat) :
  forall penalty found, (0 < found)%Z ->
    add_matches n penalty found == penalty + 15 * inject_Z (Z.of_nat n).
Proof.
  induction n as [|n IH]; intros penalty found Hpos.
  - cbn. ring.
  - cbn [add_matches].
    destruct (Z.eqb_spec (found + 1) 1) as [E|_]; [lia|].
    rewrite IH by lia. rewrite Nat2Z.inj_succ, <- Z.add_1_r, inject_Z_plus.
    change (inject_Z 1) with 1. ring.
Qed.

Lemma add_matches_first (n : nat) :
  add_matches (S n) 0 0 == 50 + 15 * inject_Z (Z.of_nat n).
Proof.
  cbn [add_matches]. change (0 + 1 =? 1)%Z with true. cbn iota.
  rewrite add_matches_later by lia. ring.
Qed.

Lemma text_penalty_spec (keywords : list string) (p : pin) :
  Permutation keywords _UNWANTED_IMAGE_KEYWORDS ->
  _calculate_text_penalty keywords p
  == penalty_of (matches _UNWANTED_IMAGE_KEYWORDS (combined_text p)).
Proof.
  intros Hperm. unfold _calculate_text_penalty.
  rewrite penalty_loop_matches, py_min_Qmin, (matches_perm _ _ _ Hperm).
  destruct (matches _UNWANTED_IMAGE_KEYWORDS (combined_text p)) as [|m].
  - reflexivity.
  - cbn [penalty_of]. apply Q.min_compat; [reflexivity | apply add_matches_first].
Qed.

(** The conditions of the code, read on the dimensions that are present
    and not zero. *)
Lemma dims_known (p : pin) :
  truthy_int (oint_or (k_image_width p) 0) && truthy_int (oint_or (k_image_height p) 0)
  = match nonzero (k_image_width p), nonzero (k_image_height p) with
    | Some _, Some _ => true
    | _, _ => false
    end.
Proof.
  unfold nonzero, oint_or, truthy_int.
  destruct (k_image_width p) as [w|], (k_image_height p) as [h|]; try reflexivity.
  - destruct (Z.eqb_spec w 0), (Z.eqb_spec h 0); subst; cbn [negb andb];
      repeat match goal with
             | H : ?z <> 0%Z |- context [(?z =? 0)%Z] =>
                 rewrite (proj2 (Z.eqb_neq z 0) H)
             end; reflexivity.
  - destruct (Z.eqb_spec w 0); subst; cbn [negb andb];
      repeat match goal with
             | H : ?z <> 0%Z |- context [(?z =? 0)%Z] =>
                 rewrite (proj2 (Z.eqb_neq z 0) H)
             end; reflexivity.
Qed.

Lemma dims_value (o : option Z) (z : Z) :
  nonzero o = Some z -> oint_or o 0 = z.
Proof.
  unfold nonzero, oint_or, truthy_int. destruct o as [w|]; [|discriminate].
  destruct (w =? 0)%Z; [discriminate|]. cbn. congruence.
Qed.

Lemma resolution_eq (p : pin) :
  (if truthy_int (oint_or (k_image_width p) 0) && truthy_int (oint_or (k_image_height p) 0)
   then Qmin 40 (inject_Z (oint_or (k_image_width p) 0 * oint_or (k_image_height p) 0) / 25000)
   else 0)
  = resolutionTerm nonzero p.
Proof.
  unfold resolutionTerm. rewrite dims_known.
  destruct (nonzero (k_image_width p)) as [w|] eqn:Hw; [|reflexivity].
  destruct (nonzero (k_image_height p)) as [h|] eqn:Hh; [|reflexivity].
  rewrite (dims_value _ _ Hw), (dims_value _ _ Hh). reflexivity.
Qed.

Lemma aspect_eq (p : pin) (a : string) :
  (if (a =? "9:16")%string || (a =? "9:16")%string then 30
   else if (a =? "2:3")%string || (a =? "2:3")%string
           || (a =? "3:4")%string || (a =? "3:4")%string then 25
   else if (a =? "1:1")%string || (a =? "1:1")%string then 15
   else if truthy_int (oint_or (k_image_width p) 0)
           && truthy_int (oint_or (k_image_height p) 0)
           && (oint_or (k_image_height p) 0 >? oint_or (k_image_width p) 0)%Z
        then 20 else 0)
  = (if (a =? "9:16")%string then 30
     else if (a =? "2:3")%string || (a =? "3:4")%string then 25
     else if (a =? "1:1")%string then 15
     else match nonzero (k_image_width p), nonzero (k_image_height p) with
          | Some width, Some height => if (height >? width)%Z then 20 else 0
          | _, _ => 0
          end).
Proof.
  rewrite dims_known.
  destruct (a =? "9:16")%string; [reflexivity|].
  destruct (a =? "2:3")%string; [reflexivity|].
  destruct (a =? "3:4")%string; [reflexivity|].
  destruct (a =? "1:1")%string; [reflexivity|]. cbn [orb].
  destruct (nonzero (k_image_width p)) as [w|] eqn:Hw; [|reflexivity].
  destruct (nonzero (k_image_height p)) as [h|] eqn:Hh; [|reflexivity].
  rewrite (dims_value _ _ Hw), (dims_value _ _ Hh). reflexivity.
Qed.


(** The penalty is a whole number between 0 and 100, whatever the
    keywords. *)
Lemma penalty_any (keywords : list string) (p : pin) :
  _calculate_text_penalty keywords p
  == penalty_of (matches keywords (combined_text p)).
Proof.
  unfold _calculate_text_penalty.
  rewrite penalty_loop_matches, py_min_Qmin.
  destruct (matches keywords (combined_text p)) as [|m].
  - reflexivity.
  - cbn [penalty_of]. apply Q.min_compat; [reflexivity | apply add_matches_first].
Qed.

Lemma penalty_of_whole (m : nat) :
  exists pz : Z, (0 <= pz <= 100)%Z /\ penalty_of m == inject_Z pz.
Proof.
  destruct m as [|m]; cbn [penalty_of].
  - exists 0%Z. split; [lia | reflexivity].
  - destruct (Q.min_spec 100 (50 + 15 * inject_Z (Z.of_nat m))) as [[Hlt Em]|[Hle Em]].
    + exists 100%Z. split; [lia | exact Em].
    + exists (50 + 15 * Z.of_nat m)%Z.
      assert (E : 50 + 15 * inject_Z (Z.of_nat m) == inject_Z (50 + 15 * Z.of_nat m)).
      { rewrite inject_Z_plus, inject_Z_mult. reflexivity. }
      split; [|rewrite Em; exact E]. split; [lia|].
      rewrite Zle_Qle, <- E. exact Hle.
Qed.

Lemma penalty_whole (keywords : list string) (p : pin) :
  exists pz : Z, (0 <= pz <= 100)%Z /\ _calculate_text_penalty keywords p == inject_Z pz.
Proof.
  destruct (penalty_of_whole (matches keywords (combined_text p))) as (pz & Hpz & E).
  exists pz. split; [exact Hpz|]. rewrite penalty_any. exact E.
Qed.

(** *** A float that follows an exact value *)

Lemma half_quantum_pos : 0 <= half_quantum.
Proof. unfold half_quantum, Qle. cbn. lia. Qed.

Lemma whole_eq (t t' : Q) : t == t' -> whole t -> whole t'.
Proof. intros E [z Hz]. exists z. rewrite <- E. exact Hz. Qed.

Lemma whole_int (z : Z) : whole (inject_Z z).
Proof. exists z. reflexivity. Qed.

Lemma whole_plus (a b : Q) : whole a -> whole b -> whole (a + b).
Proof.
  intros [x Hx] [y Hy]. exists (x + y)%Z. rewrite inject_Z_plus, Hx, Hy. reflexivity.
Qed.

Lemma whole_opp (a : Q) : whole a -> whole (- a).
Proof. intros [x Hx]. exists (- x)%Z. rewrite inject_Z_opp, Hx. reflexivity. Qed.

Lemma whole_unshift (t c : Q) : whole c -> whole (t + c) -> whole t.
Proof.
  intros Hc Ht. apply (whole_eq (t + c + - c)); [ring|].
  apply whole_plus; [exact Ht | apply whole_opp, Hc].
Qed.

Lemma follows_weaken (e e' : Q) (lo lo' hi hi' : Z) (s t t' : Q) :
  follows e lo hi s t -> e <= e' -> (lo' <= lo)%Z -> (hi <= hi')%Z -> t == t' ->
  follows e' lo' hi' s t'.
Proof.
  intros ((Hl & Hh) & (Ha & Hb) & Hw) He Hlo Hhi Ht.
  rewrite Zle_Qle in Hlo, Hhi.
  repeat split.
  - lra.
  - lra.
  - rewrite <- Ht. lra.
  - rewrite <- Ht. lra.
  - intros W. rewrite <- Ht. apply Hw. apply (whole_eq t'); [symmetry; exact Ht | exact W].
Qed.

Lemma follows_zero (e : Q) (hi : Z) : 0 <= e -> (0 <= hi)%Z -> follows e 0 hi 0 0.
Proof.
  intros He Hhi.
  assert (Hhi' : inject_Z 0 <= inject_Z hi) by (rewrite <- Zle_Qle; exact Hhi).
  change (inject_Z 0) with 0 in Hhi'.
  repeat split; change (inject_Z 0) with 0; lra.
Qed.

Lemma follows_shift (e : Q) (lo hi : Z) (s t c : Q) (cz : Z) :
  follows e lo hi s t -> c == inject_Z cz ->
  follows e (lo + cz) (hi + cz) (s + c) (t + c).
Proof.
  intros ((Hl & Hh) & (Ha & Hb) & Hw) Hc.
  repeat split; rewrite ?inject_Z_plus; try lra.
  intros W. rewrite Hw; [reflexivity|].
  apply (whole_unshift t c); [exists cz; exact Hc | exact W].
Qed.

(** One rounding of a float between -256 and 256 adds half a quantum to
    the distance, keeps the integer bounds, and keeps a whole value. *)
Lemma follows_round (e : Q) (lo hi : Z) (s t x : Q) :
  follows e lo hi s t -> x == s -> (-256 < lo)%Z -> (hi < 256)%Z ->
  follows (e + half_quantum) lo hi (Float64.round x) t.
Proof.
  intros ((Hl & Hh) & (Ha & Hb) & Hw) Hx Hlo Hhi.
  rewrite (round_Qeq x s Hx).
  assert (Hlo8 : - inject_Z (2 ^ 8) < s).
  { apply Qlt_le_trans with (inject_Z lo); [|exact Hl].
    change (- inject_Z (2 ^ 8)) with (inject_Z (-256)). rewrite <- Zlt_Qlt. lia. }
  assert (Hhi8 : s < inject_Z (2 ^ 8)).
  { apply Qle_lt_trans with (inject_Z hi); [exact Hh|].
    change (2 ^ 8)%Z with 256%Z. rewrite <- Zlt_Qlt. lia. }
  assert (H53 : inject_Z (2 ^ 8) <= inject_Z (2 ^ 53)).
  { rewrite <- Zle_Qle. apply Z.pow_le_mono_r; lia. }
  assert (Hlo53 : - inject_Z (2 ^ 53) < s) by lra.
  assert (Hhi53 : s < inject_Z (2 ^ 53)) by lra.
  destruct (round_near s Hlo8 Hhi8) as [Hn1 Hn2].
  change (1 # 2 ^ 46) with half_quantum in Hn1, Hn2.
  repeat split.
  - apply round_int_ge; assumption.
  - apply round_int_le; assumption.
  - lra.
  - lra.
  - intros W. specialize (Hw W). destruct W as [z Hz].
    transitivity (inject_Z z); [|symmetry; exact Hz].
    apply round_exact; [|rewrite Hw; exact Hz].
    rewrite Hw, Hz in Hl, Hh. rewrite <- Zle_Qle in Hl, Hh.
    assert (256 < 2 ^ 53)%Z by (change 256%Z with (2 ^ 8)%Z; apply Z.pow_lt_mono_r; lia).
    lia.
Qed.

Lemma follows_add (e : Q) (lo hi : Z) (s t c : Q) (cz k : Z) :
  follows e lo hi s t -> c = inject_Z cz -> (0 <= cz <= k)%Z ->
  (-256 < lo)%Z -> (hi + k < 256)%Z ->
  follows (e + half_quantum) lo (hi + k) (Float64.fadd s c) (t + c).
Proof.
  intros F -> Hcz Hlo Hhi. unfold Float64.fadd.
  apply (follows_weaken (e + half_quantum) _ (lo + cz) _ (hi + cz) _ _
           (t + inject_Z cz)); [|lra|lia|lia|reflexivity].
  apply (follows_round e _ _ (s + inject_Z cz)); [|reflexivity|lia|lia].
  apply follows_shift; [exact F | reflexivity].
Qed.

Lemma follows_keep (e : Q) (lo hi : Z) (s t : Q) (k : Z) :
  follows e lo hi s t -> (0 <= k)%Z ->
  follows (e + half_quantum) lo (hi + k) s (t + 0).
Proof.
  intros F Hk. pose proof half_quantum_pos.
  apply (follows_weaken e _ lo _ hi _ s t _ F); [lra|lia|lia|ring].
Qed.

(** A conditional increment [if b: score += c]. *)
Lemma follows_opt (b : bool) (e : Q) (lo hi : Z) (s t c : Q) (cz : Z) :
  follows e lo hi s t -> c = inject_Z cz -> (0 <= cz)%Z ->
  (-256 < lo)%Z -> (hi + cz < 256)%Z ->
  follows (e + half_quantum) lo (hi + cz)
          (if b then Float64.fadd s c else s) (t + (if b then c else 0)).
Proof.
  intros F Hc Hcz Hlo Hhi. destruct b.
  - apply (follows_add e lo hi s t c cz cz F Hc); lia.
  - apply follows_keep; assumption.
Qed.

(** [min(40, pixels / 25000)] follows the exact minimum. *)
Lemma resolution_follows (q : Q) :
  0 <= q -> follows half_quantum 0 40 (py_min 40 (Float64.round q)) (Qmin 40 q).
Proof.
  intros Hq. pose proof half_quantum_pos as Hh.
  assert (H0 : 0 <= Float64.round q).
  { apply (round_ge_nat q 0); [|exact Hq].
    split; [lia | apply Z.pow_nonneg; lia]. }
  destruct (Qlt_le_dec q 40) as [Hlt|Hge].
  - assert (Em : Qmin 40 q == q) by (apply Q.min_r; lra).
    assert (Hhi8 : q < inject_Z (2 ^ 8)).
    { apply Qlt_trans with 40; [exact Hlt|]. reflexivity. }
    assert (Hlo8 : - inject_Z (2 ^ 8) < q).
    { apply Qlt_le_trans with 0; [reflexivity | exact Hq]. }
    assert (H53 : inject_Z (2 ^ 8) <= inject_Z (2 ^ 53)).
    { rewrite <- Zle_Qle. apply Z.pow_le_mono_r; lia. }
    assert (H40 : Float64.round q <= 40).
    { apply (round_int_le q 40); [lra | lra | apply Qlt_le_weak; exact Hlt]. }
    destruct (round_near q Hlo8 Hhi8) as [Hn1 Hn2].
    change (1 # 2 ^ 46) with half_quantum in Hn1, Hn2.
    assert (Ep : py_min 40 (Float64.round q) == Float64.round q).
    { unfold py_min. destruct (Qle_bool 40 (Float64.round q)) eqn:B; [|reflexivity].
      apply Qle_bool_iff in B. apply Qle_antisym; assumption. }
    split; [|split].
    + rewrite Ep. change (inject_Z 0) with 0. change (inject_Z 40) with 40. lra.
    + rewrite Ep, Em. lra.
    + intros W. rewrite Ep, Em. apply (whole_eq _ q Em) in W. destruct W as [z Hz].
      transitivity (inject_Z z); [|symmetry; exact Hz].
      apply round_exact; [|exact Hz].
      rewrite Hz in Hq, Hlt. change 0 with (inject_Z 0) in Hq.
      change 40 with (inject_Z 40) in Hlt.
      rewrite <- Zle_Qle in Hq. rewrite <- Zlt_Qlt in Hlt.
      assert (40 < 2 ^ 53)%Z by (apply Z.lt_trans with (2 ^ 8)%Z;
                                  [reflexivity | apply Z.pow_lt_mono_r; lia]).
      lia.
  - assert (Em : Qmin 40 q == 40) by (apply Q.min_l; exact Hge).
    assert (H40 : 40 <= Float64.round q).
    { apply (round_ge_nat q 40); [|exact Hge].
      split; [lia|]. apply Z.le_trans with (2 ^ 6)%Z;
                       [cbn; lia | apply Z.pow_le_mono_r; lia]. }
    assert (Ep : py_min 40 (Float64.round q) = 40).
    { unfold py_min. apply Qle_bool_iff in H40. rewrite H40. reflexivity. }
    rewrite Ep.
    split; [|split].
    + change (inject_Z 0) with 0. change (inject_Z 40) with 40. lra.
    + rewrite Em. lra.
    + intros _. symmetry. exact Em.
Qed.

Lemma pixels_quotient (p : pin) :
  (0 <= pixels p)%Z -> 0 <= inject_Z (pixels p) / 25000.
Proof.
  intros H. apply Qle_shift_div_l; [reflexivity|]. rewrite Qmult_0_l.
  change 0 with (inject_Z 0). rewrite <- Zle_Qle. exact H.
Qed.

(** The score follows the exact value of the formula: seven roundings
    lie between them, and with [pz] the penalty the score lies between
    [- pz] and [100 - pz]. *)
Lemma score_follows (keywords : list string) (p : pin) :
  (0 <= pixels p)%Z ->
  exists pz : Z,
    (0 <= pz <= 100)%Z
    /\ _calculate_text_penalty keywords p == inject_Z pz
    /\ follows (7 * half_quantum) (- pz) (100 - pz) (_score_pin keywords p)
               (resolutionTerm nonzero p + metadataTerm p + aspectTerm nonzero p
                + identityTerm p - _calculate_text_penalty keywords p).
Proof.
  intros Hpix. pose proof half_quantum_pos as Hh.
  destruct (penalty_whole keywords p) as (pz & Hpz & HP).
  exists pz. split; [exact Hpz|]. split; [exact HP|].
  pose proof (pixels_quotient p Hpix) as Hq. unfold pixels in Hq.
  pose proof (resolution_eq p) as ER.
  pose proof (aspect_eq p (get_str (k_aspect_ratio p) "")) as EA.
  set (W := oint_or (k_image_width p) 0) in *.
  set (H := oint_or (k_image_height p) 0) in *.
  set (a := get_str (k_aspect_ratio p) "") in *.
  set (bR := truthy_int W && truthy_int H) in *.
  set (bT := truthy_ostr (k_title p)).
  set (bD := truthy_ostr (k_description p)).
  set (bI := truthy_ostr (k_id p)).
  set (c1 := (a =? "9:16")%string || (a =? "9:16")%string) in *.
  set (c2 := (a =? "2:3")%string || (a =? "2:3")%string
             || (a =? "3:4")%string || (a =? "3:4")%string) in *.
  set (c3 := (a =? "1:1")%string || (a =? "1:1")%string) in *.
  set (bP := bR && (H >? W)%Z) in *.
  set (P := _calculate_text_penalty keywords p) in *.
  pose (s1 := if bR
              then Float64.fadd 0 (py_min 40 (Float64.round (inject_Z (W * H) / 25000)))
              else 0).
  pose (s2 := if bT then Float64.fadd s1 10 else s1).
  pose (s3 := if bD then Float64.fadd s2 10 else s2).
  pose (s4 := if c1 then Float64.fadd s3 30
              else if c2 then Float64.fadd s3 25
              else if c3 then Float64.fadd s3 15
              else if bP then Float64.fadd s3 20 else s3).
  pose (s5 := if bI then Float64.fadd s4 10 else s4).
  change (_score_pin keywords p) with (Float64.fsub s5 P).
  set (R := if bR then Qmin 40 (inject_Z (W * H) / 25000) else 0) in *.
  set (A := if c1 then 30 else if c2 then 25 else if c3 then 15
            else if bP then 20 else 0) in *.
  assert (F1 : follows (2 * half_quantum) 0 40 s1 R).
  { unfold s1, R. destruct bR.
    - apply (follows_weaken (half_quantum + half_quantum) _ 0 _ 40 _ _
               (Qmin 40 (inject_Z (W * H) / 25000))); [|lra|lia|lia|reflexivity].
      apply (follows_round _ _ _ (py_min 40 (Float64.round (inject_Z (W * H) / 25000))));
        [apply resolution_follows; exact Hq | ring | lia | lia].
    - apply follows_zero; [lra | lia]. }
  assert (F2 : follows (3 * half_quantum) 0 50 s2 (R + (if bT then 10 else 0))).
  { apply (follows_weaken _ _ _ _ _ _ _ _ _
             (follows_opt bT _ _ _ _ _ 10 10 F1 eq_refl ltac:(lia) ltac:(lia) ltac:(lia)));
      [lra|lia|lia|reflexivity]. }
  assert (F3 : follows (4 * half_quantum) 0 60 s3
                       (R + (if bT then 10 else 0) + (if bD then 10 else 0))).
  { apply (follows_weaken _ _ _ _ _ _ _ _ _
             (follows_opt bD _ _ _ _ _ 10 10 F2 eq_refl ltac:(lia) ltac:(lia) ltac:(lia)));
      [lra|lia|lia|reflexivity]. }
  assert (F4 : follows (5 * half_quantum) 0 90 s4
                       (R + (if bT then 10 else 0) + (if bD then 10 else 0) + A)).
  { unfold s4, A.
    destruct c1;
      [apply (follows_weaken _ _ _ _ _ _ _ _ _
                (follows_add _ _ _ _ _ _ 30 30 F3 eq_refl ltac:(lia) ltac:(lia) ltac:(lia)));
       [lra|lia|lia|reflexivity]|].
    destruct c2;
      [apply (follows_weaken _ _ _ _ _ _ _ _ _
                (follows_add _ _ _ _ _ _ 25 30 F3 eq_refl ltac:(lia) ltac:(lia) ltac:(lia)));
       [lra|lia|lia|reflexivity]|].
    destruct c3;
      [apply (follows_weaken _ _ _ _ _ _ _ _ _
                (follows_add _ _ _ _ _ _ 15 30 F3 eq_refl ltac:(lia) ltac:(lia) ltac:(lia)));
       [lra|lia|lia|reflexivity]|].
    destruct bP;
      [apply (follows_weaken _ _ _ _ _ _ _ _ _
                (follows_add _ _ _ _ _ _ 20 30 F3 eq_refl ltac:(lia) ltac:(lia) ltac:(lia)));
       [lra|lia|lia|reflexivity]|].
    apply (follows_weaken _ _ _ _ _ _ _ _ _ (follows_keep _ _ _ _ _ 30 F3 ltac:(lia)));
      [lra|lia|lia|reflexivity]. }
  assert (F5 : follows (6 * half_quantum) 0 100 s5
                       (R + (if bT then 10 else 0) + (if bD then 10 else 0) + A
                        + (if bI then 10 else 0))).
  { apply (follows_weaken _ _ _ _ _ _ _ _ _
             (follows_opt bI _ _ _ _ _ 10 10 F4 eq_refl ltac:(lia) ltac:(lia) ltac:(lia)));
      [lra|lia|lia|reflexivity]. }
  assert (HP' : - P == inject_Z (- pz)).
  { rewrite inject_Z_opp, HP. reflexivity. }
  pose proof (follows_round _ _ _ _ _ (s5 - P)
                (follows_shift _ _ _ _ _ _ _ F5 HP')
                ltac:(reflexivity) ltac:(lia) ltac:(lia)) as F6.
  apply (follows_weaken _ _ _ _ _ _ _ _ _ F6); [lra|lia|lia|].
  assert (EA' : A = aspectTerm nonzero p) by exact EA.
  rewrite ER, EA'. unfold identityTerm, metadataTerm. fold bT bD bI.
  destruct bT, bD, bI; cbn [b2q]; ring.
Qed.

Lemma seven_roundings : 7 * half_quantum <= score_error.
Proof. unfold half_quantum, score_error, Qle. vm_compute. discriminate. Qed.

Lemma whole_if (b : bool) (x y : Q) : whole x -> whole y -> whole (if b then x else y).
Proof. destruct b; trivial. Qed.

Lemma metadata_whole (p : pin) : whole (metadataTerm p).
Proof.
  unfold metadataTerm.
  destruct (truthy_ostr (k_title p)), (truthy_ostr (k_description p)); cbn [b2q];
    [exists 20%Z | exists 10%Z | exists 10%Z | exists 0%Z]; ring.
Qed.

Lemma aspect_whole (p : pin) : whole (aspectTerm nonzero p).
Proof.
  unfold aspectTerm. cbv zeta.
  apply whole_if; [apply (whole_int 30)|].
  apply whole_if; [apply (whole_int 25)|].
  apply whole_if; [apply (whole_int 15)|].
  destruct (nonzero (k_image_width p)); [|apply (whole_int 0)].
  destruct (nonzero (k_image_height p)); [|apply (whole_int 0)].
  apply whole_if; [apply (whole_int 20) | apply (whole_int 0)].
Qed.

Lemma identity_whole (p : pin) : whole (identityTerm p).
Proof. apply whole_if; [apply (whole_int 10) | apply (whole_int 0)]. Qed.

(** The division [pixels / 25000]: it gives a float up to the largest
    float and raises from [2 ^ 1024] on. *)
Lemma divide_in_range (a : Z) :
  (0 <= a <= 25000 * max_float)%Z ->
  exists q, Float64.true_divide a 25000 = inr q.
Proof.
  intros [Ha0 Ha]. unfold Float64.true_divide.
  change (25000 =? 0)%Z with false. cbv iota zeta.
  set (x := inject_Z a / inject_Z 25000).
  assert (Hx0 : 0 <= x).
  { apply Qle_shift_div_l; [reflexivity|]. rewrite Qmult_0_l.
    change 0 with (inject_Z 0). rewrite <- Zle_Qle. exact Ha0. }
  assert (Hx : x <= inject_Z max_float).
  { apply Qle_shift_div_r; [reflexivity|].
    rewrite <- inject_Z_mult, <- Zle_Qle. lia. }
  pose proof (round_max x Hx) as Hr.
  assert (Hr0 : 0 <= Float64.round x).
  { apply (round_ge_nat x 0); [|exact Hx0]. split; [lia | apply Z.pow_nonneg; lia]. }
  assert (Hlt : inject_Z max_float < inject_Z (2 ^ 1024)).
  { rewrite <- Zlt_Qlt. unfold max_float.
    pose proof (pow2_pos 971 ltac:(lia)). lia. }
  assert (Hpos : 0 < inject_Z (2 ^ 1024)).
  { change 0 with (inject_Z 0). rewrite <- Zlt_Qlt. apply pow2_pos. lia. }
  unfold Float64.too_large.
  destruct (Qle_bool (inject_Z (2 ^ 1024)) (Float64.round x)) eqn:B1.
  - apply Qle_bool_iff in B1. lra.
  - destruct (Qle_bool (Float64.round x) (- inject_Z (2 ^ 1024))) eqn:B2.
    + apply Qle_bool_iff in B2. lra.
    + eexists. reflexivity.
Qed.

Lemma divide_overflow (a : Z) :
  (25000 * 2 ^ 1024 <= a)%Z ->
  Float64.true_divide a 25000 = inl Float64.OverflowError.
Proof.
  intros Ha. unfold Float64.true_divide.
  change (25000 =? 0)%Z with false. cbv iota zeta.
  set (x := inject_Z a / inject_Z 25000).
  assert (Hx : inject_Z (2 ^ 1024) <= x).
  { apply Qle_shift_div_l; [reflexivity|].
    rewrite <- inject_Z_mult, <- Zle_Qle. lia. }
  pose proof (round_overflow x Hx) as Hr.
  unfold Float64.too_large. apply Qle_bool_iff in Hr. rewrite Hr. reflexivity.
Qed.

Lemma dims_of_pixels (p : pin) :
  pixels p <> 0%Z ->
  truthy_int (oint_or (k_image_width p) 0) && truthy_int (oint_or (k_image_height p) 0)
  = true.
Proof.
  unfold pixels, truthy_int. intros H.
  destruct (Z.eqb_spec (oint_or (k_image_width p) 0) 0) as [E|_]; [rewrite E in H; lia|].
  destruct (Z.eqb_spec (oint_or (k_image_height p) 0) 0) as [E|_]; [rewrite E in H; lia|].
  reflexivity.
Qed.

(** C5 (amended). The score of a candidate whose pixel count is not
    negative is the formula
    resolutionTerm + metadataTerm + aspectTerm + identityTerm - penalty
    evaluated in binary64, one rounded operation after the other: it
    lies within 2^-43 of the exact value of the formula and is that
    value when the resolution term is a whole number. In the formula a
    dimension counts as known when it is present and not zero, and the
    penalty counts the block-listed keywords that occur in the
    lower-cased title, a space, and the lower-cased description; the
    order in which the keyword set is iterated does not matter. The call
    returns this score while the pixel count is at most 25000 times the
    largest float, and raises OverflowError from 25000 * 2^1024 on. *)
Theorem C5_score_formula (keywords : list string) (p : pin) :
  Permutation keywords _UNWANTED_IMAGE_KEYWORDS ->
  (0 <= pixels p)%Z ->
  (amended_score p - score_error <= _score_pin keywords p
   /\ _score_pin keywords p <= amended_score p + score_error)
  /\ (whole (resolutionTerm nonzero p) -> _score_pin keywords p == amended_score p)
  /\ ((pixels p <= 25000 * max_float)%Z ->
      _score_pin_or_raise keywords p = inr (_score_pin keywords p))
  /\ ((25000 * 2 ^ 1024 <= pixels p)%Z ->
      _score_pin_or_raise keywords p = inl Float64.OverflowError).
Proof.
  intros Hperm Hpix.
  destruct (score_follows keywords p Hpix) as (pz & Hpz & HP & (_ & (Ha1 & Ha2) & Hw)).
  assert (E : resolutionTerm nonzero p + metadataTerm p + aspectTerm nonzero p
              + identityTerm p - _calculate_text_penalty keywords p
              == amended_score p).
  { unfold amended_score, score_formula, penalty.
    rewrite <- combined_text_lower.
    apply Qplus_comp; [reflexivity|].
    apply Qopp_comp. apply text_penalty_spec. exact Hperm. }
  split; [|split; [|split]].
  - pose proof seven_roundings. rewrite <- E. split; lra.
  - intros WR. rewrite <- E. apply Hw.
    apply whole_plus; [|apply whole_opp; exists pz; exact HP].
    apply whole_plus; [|apply identity_whole].
    apply whole_plus; [|apply aspect_whole].
    apply whole_plus; [exact WR | apply metadata_whole].
  - intros Hmax. unfold _score_pin_or_raise. cbv zeta.
    destruct (truthy_int (oint_or (k_image_width p) 0)
              && truthy_int (oint_or (k_image_height p) 0)); [|reflexivity].
    destruct (divide_in_range (pixels p) (conj Hpix Hmax)) as [q Hq].
    unfold pixels in Hq. rewrite Hq. reflexivity.
  - intros Hbig. unfold _score_pin_or_raise. cbv zeta.
    pose proof (pow2_pos 1024 ltac:(lia)) as H1024.
    rewrite (dims_of_pixels p) by lia.
    pose proof (divide_overflow (pixels p) Hbig) as Hq.
    unfold pixels in Hq. rewrite Hq. reflexivity.
Qed.

End Score.

(** C5 as the specification states it fails on the code. With the
    title "The best" and the description "of nature", the code scans
    "the best of nature", finds "best of" and subtracts 50, where the
    concatenation "the bestof nature" holds no keyword. With a width of
    0 and a height of 1308 the code gives no portrait bonus. *)
Lemma C5_claimed_score_differs :
  ~ (Slideshows._score_pin Slideshows._UNWANTED_IMAGE_KEYWORDS Sample.best_of_pin
     == Spec.claimed_score Sample.best_of_pin)%Q
  /\ (Slideshows._score_pin Slideshows._UNWANTED_IMAGE_KEYWORDS Sample.best_of_pin == 10)%Q
  /\ (Spec.claimed_score Sample.best_of_pin == 60)%Q
  /\ ~ (Slideshows._score_pin Slideshows._UNWANTED_IMAGE_KEYWORDS Sample.zero_width_pin
        == Spec.claimed_score Sample.zero_width_pin)%Q
  /\ (Slideshows._score_pin Slideshows._UNWANTED_IMAGE_KEYWORDS Sample.zero_width_pin == 10)%Q
  /\ (Spec.claimed_score Sample.zero_width_pin == 30)%Q.
Proof.
  repeat split; try (vm_compute; reflexivity);
    intros H; vm_compute in H; discriminate.
Qed.

(** The score is a float. The 10 by 10 image has the exact score
    100/25000 + 10 + 30 + 10 - 50 = 1/250; the code returns the float
    562949953421 / 2^47 = 0.003999999999997783, since 50.004 is no
    float. *)
Example score_pin_is_rounded :
  Slideshows._score_pin Slideshows._UNWANTED_IMAGE_KEYWORDS Sample.thumbnail_pin
  = (562949953421 # 140737488355328)%Q
  /\ (Spec.amended_score Sample.thumbnail_pin == 1 # 250)%Q
  /\ Slideshows._score_pin_or_raise Slideshows._UNWANTED_IMAGE_KEYWORDS Sample.huge_pin
     = inl Float64.OverflowError.
Proof. repeat split; vm_compute; reflexivity. Qed.

Lemma C5_score_formula_witness :
  ((Spec.amended_score Sample.thumbnail_pin - Spec.score_error
    <= Slideshows._score_pin Slideshows._UNWANTED_IMAGE_KEYWORDS Sample.thumbnail_pin)%Q
   /\ (Slideshows._score_pin Slideshows._UNWANTED_IMAGE_KEYWORDS Sample.thumbnail_pin
       <= Spec.amended_score Sample.thumbnail_pin + Spec.score_error)%Q)
  /\ (Slideshows._score_pin Slideshows._UNWANTED_IMAGE_KEYWORDS Sample.best_of_pin
      == Spec.amended_score Sample.best_of_pin)%Q
  /\ Slideshows._score_pin_or_raise Slideshows._UNWANTED_IMAGE_KEYWORDS Sample.thumbnail_pin
     = inr (Slideshows._score_pin Slideshows._UNWANTED_IMAGE_KEYWORDS Sample.thumbnail_pin)
  /\ Slideshows._score_pin_or_raise Slideshows._UNWANTED_IMAGE_KEYWORDS Sample.huge_pin
     = inl Float64.OverflowError.
Proof.
  pose proof (C5_score_formula Slideshows._UNWANTED_IMAGE_KEYWORDS Sample.thumbnail_pin
                (Permutation_refl _) ltac:(vm_compute; discriminate))
    as (Hnear & _ & Hreturns & _).
  pose proof (C5_score_formula Slideshows._UNWANTED_IMAGE_KEYWORDS Sample.best_of_pin
                (Permutation_refl _) ltac:(vm_compute; discriminate))
    as (_ & Hexact & _ & _).
  pose proof (C5_score_formula Slideshows._UNWANTED_IMAGE_KEYWORDS Sample.huge_pin
                (Permutation_refl _) ltac:(vm_compute; discriminate))
    as (_ & _ & _ & Hraises).
  split; [exact Hnear|].
  split; [apply Hexact; exists 0%Z; reflexivity|].
  split; [apply Hreturns; vm_compute; discriminate|].
  apply Hraises. vm_compute. discriminate.
Defined.

(** ** Ranking and selection *)

Section Selection.
Import Slideshows Spec.

(** *** The sort *)

Lemma insert_desc_perm (x : Q * pin) (l : list (Q * pin)) :
  Permutation (insert_desc x l) (x :: l).
Proof.
  induction l as [|y l IH]; cbn [insert_desc].
  - apply Permutation_refl.
  - destruct (Qle_bool (fst y) (fst x)).
    + apply Permutation_refl.
    + eapply perm_trans; [apply perm_skip, IH | apply perm_swap].
Qed.

Lemma sort_desc_perm (l : list (Q * pin)) : Permutation (sort_desc l) l.
Proof.
  induction l as [|x l IH]; cbn [sort_desc].
  - constructor.
  - eapply perm_trans; [apply insert_desc_perm | apply perm_skip, IH].
Qed.

Lemma insert_desc_sorted (x : Q * pin) (l : list (Q * pin)) :
  StronglySorted score_ge l -> StronglySorted score_ge (insert_desc x l).
Proof.
  induction l as [|y l IH]; intros Hs; cbn [insert_desc].
  - repeat constructor.
  - inversion Hs as [|? ? Hl Hy]; subst.
    destruct (Qle_bool (fst y) (fst x)) eqn:E.
    + apply Qle_bool_iff in E. constructor; [exact Hs|].
      constructor; [exact E|].
      eapply Forall_impl; [|exact Hy].
      intros z Hz. unfold score_ge in *. eapply Qle_trans; eassumption.
    + constructor; [apply IH, Hl|].
      assert (Hxy : (fst x <= fst y)%Q).
      { destruct (Qlt_le_dec (fst y) (fst x)) as [Hlt|Hle]; [|exact Hle].
        apply Qlt_le_weak, Qle_bool_iff in Hlt. congruence. }
      apply Forall_forall. intros z Hz.
      apply (Permutation_in _ (insert_desc_perm x l)) in Hz.
      destruct Hz as [<-|Hz]; [exact Hxy|].
      exact (proj1 (Forall_forall _ _) Hy z Hz).
Qed.

Lemma sort_desc_sorted (l : list (Q * pin)) : StronglySorted score_ge (sort_desc l).
Proof.
  induction l as [|x l IH]; cbn [sort_desc].
  - constructor.
  - apply insert_desc_sorted, IH.
Qed.

(** Insertion passes only entries of a strictly higher score, so the
    entries of any one score keep their order. *)
Lemma insert_desc_stable (s : Q) (x : Q * pin) (l : list (Q * pin)) :
  with_score s (insert_desc x l) = with_score s (x :: l).
Proof.
  unfold with_score. induction l as [|y l IH]; cbn [insert_desc].
  - reflexivity.
  - destruct (Qle_bool (fst y) (fst x)) eqn:E; [reflexivity|].
    cbn [filter] in *. rewrite IH.
    destruct (Qeq_bool (fst x) s) eqn:Ex; [|reflexivity].
    destruct (Qeq_bool (fst y) s) eqn:Ey; [|reflexivity].
    exfalso. apply Qeq_bool_iff in Ex, Ey.
    assert (H : (fst y <= fst x)%Q) by (rewrite Ex, Ey; apply Qle_refl).
    apply Qle_bool_iff in H. congruence.
Qed.

Lemma sort_desc_stable (s : Q) (l : list (Q * pin)) :
  with_score s (sort_desc l) = with_score s l.
Proof.
  induction l as [|x l IH]; cbn [sort_desc].
  - reflexivity.
  - rewrite insert_desc_stable. unfold with_score in *. cbn [filter].
    rewrite IH. reflexivity.
Qed.

(** *** Deduplication *)

Lemma subsequence_nil {A} (l : list A) : subsequence [] l.
Proof. induction l; constructor; assumption. Qed.

Lemma dedup_subsequence (keywords : list string) (pins : list pin) :
  forall seen, subsequence (map snd (dedup_and_score keywords pins seen)) pins.
Proof.
  induction pins as [|p rest IH]; intros seen; cbn [dedup_and_score].
  - constructor.
  - destruct (negb (truthy_str (get_str (k_image_url p) ""))
              || existsb (String.eqb (get_str (k_image_url p) "")) seen).
    + apply sub_skip, IH.
    + cbn [map snd]. apply sub_take, IH.
Qed.

(** *** Independence of the iteration order of the keyword set *)

Lemma score_pin_perm (k1 k2 : list string) (p : pin) :
  Permutation k1 k2 -> _score_pin k1 p = _score_pin k2 p.
Proof.
  intros H. unfold _score_pin, _calculate_text_penalty.
  rewrite !penalty_loop_matches, (matches_perm _ _ _ H). reflexivity.
Qed.

Lemma dedup_and_score_perm (k1 k2 : list string) (pins : list pin) :
  Permutation k1 k2 ->
  forall seen, dedup_and_score k1 pins seen = dedup_and_score k2 pins seen.
Proof.
  intros H. induction pins as [|p rest IH]; intros seen; cbn [dedup_and_score].
  - reflexivity.
  - rewrite (score_pin_perm _ _ p H), !IH. reflexivity.
Qed.

(** *** The greedy walk *)

Lemma too_similar_iff (h : string) (hs : list string) :
  _is_too_similar h hs = true <-> In (str_prefix 4 h) (map (str_prefix 4) hs).
Proof.
  unfold _is_too_similar. rewrite existsb_exists, in_map_iff. split.
  - intros (e & He & Heq). apply String.eqb_eq in Heq. exists e. split; congruence.
  - intros (e & Heq & He). exists e. split; [exact He|]. apply String.eqb_eq. congruence.
Qed.

Lemma fingerprint_to_image (p : pin) :
  image_fingerprint (to_image p) = _compute_image_hash p.
Proof. reflexivity. Qed.

Lemma select_loop_spec (scored : list (Q * pin)) :
  forall selected hashes,
    hashes = map image_fingerprint selected ->
    NoDup (map (str_prefix 4) hashes) ->
    snd (select_loop scored selected hashes)
    = map image_fingerprint (fst (select_loop scored selected hashes))
    /\ NoDup (map (str_prefix 4) (snd (select_loop scored selected hashes)))
    /\ (length (fst (select_loop scored selected hashes))
        <= Nat.max _NUM_IMAGES_TO_RETURN (length selected))%nat
    /\ (exists extra, snd (select_loop scored selected hashes) = hashes ++ extra)
    /\ (exists chosen,
          fst (select_loop scored selected hashes) = selected ++ map to_image chosen
          /\ subsequence chosen (map snd scored))
    /\ ((length (fst (select_loop scored selected hashes)) < _NUM_IMAGES_TO_RETURN)%nat ->
        forall x, In x scored ->
          In (str_prefix 4 (_compute_image_hash (snd x)))
             (map (str_prefix 4) (snd (select_loop scored selected hashes)))).
Proof.
  induction scored as [|[score p] rest IH]; intros selected hashes Hh Hnd;
    cbn [select_loop].
  - cbn [fst snd]. repeat split; try assumption.
    + apply Nat.le_max_r.
    + exists []. rewrite app_nil_r. reflexivity.
    + exists []. rewrite app_nil_r. split; [reflexivity | constructor].
    + intros _ x [].
  - destruct (Nat.leb_spec _NUM_IMAGES_TO_RETURN (length selected)) as [Hfull|Hroom].
    + cbn [fst snd]. repeat split; try assumption.
      * apply Nat.le_max_r.
      * exists []. rewrite app_nil_r. reflexivity.
      * exists []. rewrite app_nil_r. split; [reflexivity | apply subsequence_nil].
      * intros Hlt. lia.
    + destruct (_is_too_similar (_compute_image_hash p) hashes) eqn:Hsim.
      * destruct (IH selected hashes Hh Hnd)
          as (H1 & H2 & H3 & [extra H4] & (chosen & H5 & H6) & H7).
        repeat split; try assumption.
        -- exists extra. exact H4.
        -- exists chosen. split; [exact H5 | apply sub_skip, H6].
        -- intros Hlt x [<-|Hx]; [|apply H7; assumption].
           cbn [snd]. rewrite H4, map_app. apply in_or_app. left.
           apply too_similar_iff, Hsim.
      * assert (Hh' : hashes ++ [_compute_image_hash p]
                      = map image_fingerprint (selected ++ [to_image p])).
        { rewrite map_app, Hh. reflexivity. }
        assert (Hnew : ~ In (str_prefix 4 (_compute_image_hash p))
                         (map (str_prefix 4) hashes)).
        { intros Hin. apply too_similar_iff in Hin. congruence. }
        assert (Hnd' : NoDup (map (str_prefix 4) (hashes ++ [_compute_image_hash p]))).
        { rewrite map_app. cbn [map].
          eapply Permutation_NoDup; [apply Permutation_cons_append|].
          constructor; assumption. }
        destruct (IH _ _ Hh' Hnd')
          as (H1 & H2 & H3 & [extra H4] & (chosen & H5 & H6) & H7).
        repeat split; try assumption.
        -- rewrite length_app in H3. cbn [length] in H3. lia.
        -- exists (_compute_image_hash p :: extra).
           rewrite H4, <- app_assoc. reflexivity.
        -- exists (p :: chosen). split.
           ++ rewrite H5, <- app_assoc. reflexivity.
           ++ cbn [map snd]. apply sub_take, H6.
        -- intros Hlt x [<-|Hx]; [|apply H7; assumption].
           cbn [snd]. rewrite H4, !map_app. apply in_or_app. left.
           apply in_or_app. right. left. reflexivity.
Qed.

Lemma select_best_images_spec (keywords : list string) (pins : list pin) :
  NoDup (map fingerprint_prefix (_select_best_images keywords pins))
  /\ (length (_select_best_images keywords pins) <= _NUM_IMAGES_TO_RETURN)%nat
  /\ (exists chosen,
        _select_best_images keywords pins = map to_image chosen
        /\ subsequence chosen (map snd (scored_pins_of keywords pins)))
  /\ ((length (_select_best_images keywords pins) < _NUM_IMAGES_TO_RETURN)%nat ->
      forall x, In x (scored_pins_of keywords pins) ->
        In (str_prefix 4 (_compute_image_hash (snd x)))
           (map fingerprint_prefix (_select_best_images keywords pins))).
Proof.
  unfold _select_best_images.
  destruct (select_loop_spec (scored_pins_of keywords pins) [] [] eq_refl (NoDup_nil _))
    as (H1 & H2 & H3 & _ & (chosen & H5 & H6) & H7).
  assert (Hmap : map fingerprint_prefix (fst (select_loop (scored_pins_of keywords pins) [] []))
                 = map (str_prefix 4) (snd (select_loop (scored_pins_of keywords pins) [] []))).
  { rewrite H1, map_map. reflexivity. }
  rewrite Hmap. cbn [length] in H3. rewrite Nat.max_0_r in H3.
  split; [exact H2|]. split; [exact H3|]. split; [|exact H7].
  exists chosen. split; [exact H5 | exact H6].
Qed.

(** C6. Selection is a function of the candidate list: the result does
    not depend on the order in which the keyword set happens to be
    iterated. The ranking is a permutation of the deduplicated candidates
    (themselves a subsequence of the input), sorted descending by score,
    in which the candidates of any one score keep their input order; and
    the selected images are taken along the ranking, in its order. *)
Theorem C6_selection_deterministic_stable (k1 k2 : list string) (pins : list pin) :
  Permutation k1 _UNWANTED_IMAGE_KEYWORDS ->
  Permutation k2 _UNWANTED_IMAGE_KEYWORDS ->
  _select_best_images k1 pins = _select_best_images k2 pins
  /\ Permutation (scored_pins_of k1 pins) (dedup_and_score k1 pins [])
  /\ StronglySorted score_ge (scored_pins_of k1 pins)
  /\ (forall s, with_score s (scored_pins_of k1 pins)
                = with_score s (dedup_and_score k1 pins []))
  /\ subsequence (map snd (dedup_and_score k1 pins [])) pins
  /\ (exists chosen,
        _select_best_images k1 pins = map to_image chosen
        /\ subsequence chosen (map snd (scored_pins_of k1 pins))).
Proof.
  intros H1 H2.
  assert (H12 : Permutation k1 k2).
  { eapply perm_trans; [exact H1 | apply Permutation_sym, H2]. }
  split.
  { unfold _select_best_images, scored_pins_of.
    rewrite (dedup_and_score_perm k1 k2 pins H12). reflexivity. }
  split; [apply sort_desc_perm|].
  split; [apply sort_desc_sorted|].
  split; [intros s; apply sort_desc_stable|].
  split; [apply dedup_subsequence|].
  apply select_best_images_spec.
Qed.


End Selection.

(** The ranking puts [sunset] and its copy first, then [forest] and
    [lake], tied, in their input order; the copy is not selected. *)
Example select_candidates :
  map snd (Slideshows.scored_pins_of Slideshows._UNWANTED_IMAGE_KEYWORDS Sample.candidates)
  = [Sample.sunset; Sample.sunset_copy; Sample.forest; Sample.lake]
  /\ Slideshows._select_best_images Slideshows._UNWANTED_IMAGE_KEYWORDS Sample.candidates
     = map Slideshows.to_image [Sample.sunset; Sample.forest; Sample.lake].
Proof. split; vm_compute; reflexivity. Qed.

Lemma C6_selection_deterministic_stable_witness :
  Spec.with_score 50
    (Slideshows.scored_pins_of Slideshows._UNWANTED_IMAGE_KEYWORDS Sample.candidates)
  = Spec.with_score 50
      (Slideshows.dedup_and_score Slideshows._UNWANTED_IMAGE_KEYWORDS Sample.candidates []).
Proof.
  apply (C6_selection_deterministic_stable
           Slideshows._UNWANTED_IMAGE_KEYWORDS Slideshows._UNWANTED_IMAGE_KEYWORDS
           Sample.candidates (Permutation_refl _) (Permutation_refl _)).
Defined.


(** ** The sequential pipeline with rewriting disabled *)

Section Rewrite.
Import Ruby Spec.

Variable rt : runtime.



















End Rewrite.



(** ** The scraper tool *)

Section Scraper.
Import PinterestTool.

Variable py_str : value -> string.
Variable validate_str : value -> option string.
Variable validate_optional_str : value -> option (option string).
Variable validate_int : value -> option Z.
Variable validate_optional_int : value -> option (option Z).






End Scraper.

Example scraper_keeps_9_16_only :
  option_map PinterestTool.pins
    (match PinterestTool.execute Sample.simple_str Sample.strict_str
             Sample.strict_optional_str Sample.strict_int
             Sample.strict_optional_int (Some "key") Sample.scraper_input
             (PinterestTool.Json Sample.api_response)
     with inr out => Some out | inl _ => None end)
  = Some [PinterestTool.mkPin "1" (Some "Cat") None
            "https://i.pinimg.com/736x/aa/bb/cat.jpg" PORTRAIT_9_16
            (Some 736) (Some 1308)].
Proof. reflexivity. Qed.


(** ** Query generation *)

Section Queries.
Import Slideshows.

(** Where the fallback of [_generate_queries] applies, and the bound on
    the number of generated queries. *)
Lemma parse_queries_spec (prompt : string) (response : CompletionResponse) :
  (parsed response = None -> parse_queries prompt response = inr (VList [VStr prompt]))
  /\ (forall d, parsed response = Some (VDict d) -> assoc "queries" d = None ->
        parse_queries prompt response = inr (VList [VStr prompt]))
  /\ (forall d, parsed response = Some (VDict d) ->
        assoc "queries" d = Some (VList []) ->
        parse_queries prompt response = inr (VList [VStr prompt]))
  /\ (forall d q qs, parsed response = Some (VDict d) ->
        assoc "queries" d = Some (VList (q :: qs)) ->
        parse_queries prompt response = inr (VList (firstn _NUM_QUERIES (q :: qs)))
        /\ (length (firstn _NUM_QUERIES (q :: qs)) <= _NUM_QUERIES)%nat).
Proof.
  unfold parse_queries. split; [|split; [|split]].
  - intros ->. reflexivity.
  - intros d -> Hq. destruct d as [|item items]; [reflexivity|].
    unfold dict_get. rewrite Hq. reflexivity.
  - intros d -> Hq. destruct d as [|item items]; [reflexivity|].
    unfold dict_get. rewrite Hq. reflexivity.
  - intros d q qs -> Hq. split; [|apply firstn_le_length].
    destruct d as [|item items]; [discriminate|].
    unfold dict_get. rewrite Hq. reflexivity.
Qed.

(** C10, at an input where the code misses the fallback. When the
    completion's JSON holds a number under "queries", there is no list of
    queries, yet [_generate_queries] raises a TypeError instead of
    returning the prompt; when it holds a string, the first five
    characters of that string are returned in place of a list. *)
Theorem C10_queries_not_a_list (prompt : string) (w : world) :
  fst (_generate_queries (Sample.completes_with Sample.queries_is_a_number) prompt w)
  = inl (TypeError "object is not subscriptable")
  /\ fst (_generate_queries (Sample.completes_with Sample.queries_is_a_string) prompt w)
     = inr (VStr "sunse")
  /\ fst (step "generate_queries" "Generate Search Queries" 10 ""
            (_generate_queries (Sample.completes_with Sample.queries_is_a_number) prompt)
            new_world)
     = inl (TypeError "object is not subscriptable")
  /\ _status (ctx (snd (step "generate_queries" "Generate Search Queries" 10 ""
            (_generate_queries (Sample.completes_with Sample.queries_is_a_number) prompt)
            new_world)))
     = FAILED.
Proof. repeat split. Qed.

End Queries.

(** * Further properties of the code *)

(** ** The step context manager and the outputs of a context *)

Section Steps.
Import Extra.

Lemma step_outcome {A} (sid name : string) (pct : Z) (msg : string)
      (body : M A) (w : world) :
  ctx_untouched body ->
  match step sid name pct msg body w with
  | (inr a, w') =>
      fst (body (snd (step_enter sid name pct msg w))) = inr a
      /\ ctx w'
         = mkContext (_status (ctx w))
             (Some (mkStepProgress sid name COMPLETED pct
                      (Some (running_message name msg))))
             (_completed_steps (ctx w) ++ [sid]) (_outputs (ctx w))
  | (inl e, w') =>
      fst (body (snd (step_enter sid name pct msg w))) = inl e
      /\ ctx w'
         = mkContext FAILED
             (Some (mkStepProgress sid name FAILED pct (Some (str_exc e))))
             (_completed_steps (ctx w)) (_outputs (ctx w))
  end.
Proof.
  intros Hbody.
  set (w0 := snd (step_enter sid name pct msg w)).
  change (step sid name pct msg body w)
    with (try_except (a <- body ;; step_complete sid ;;; ret a)
                     (fun e => step_fail e ;;; raise e) w0).
  specialize (Hbody w0).
  unfold try_except, bind.
  destruct (body w0) as [[e|a] w1]; cbn [fst snd] in *.
  - unfold step_fail. rewrite Hbody. cbn. split; reflexivity.
  - unfold step_complete, ret. rewrite Hbody. cbn. split; reflexivity.
Qed.

(** X1. A step whose body leaves the context alone ends in one of two
    ways. If the body returns, the step returns its value, the current
    step is the step at its percentage with status COMPLETED, its id is
    appended to the completed steps and the overall status is unchanged.
    If the body raises, the step raises the same exception, the current
    step and the overall status are FAILED, the message of the step is
    the text of the exception and the completed steps are unchanged. *)
Theorem X1_step_lifecycle {A} (sid name : string) (pct : Z) (msg : string)
        (body : M A) (w : world) :
  ctx_untouched body ->
  match fst (body (snd (step_enter sid name pct msg w))) with
  | inr a =>
      fst (step sid name pct msg body w) = inr a
      /\ ctx (snd (step sid name pct msg body w))
         = mkContext (_status (ctx w))
             (Some (mkStepProgress sid name COMPLETED pct
                      (Some (running_message name msg))))
             (_completed_steps (ctx w) ++ [sid]) (_outputs (ctx w))
  | inl e =>
      fst (step sid name pct msg body w) = inl e
      /\ ctx (snd (step sid name pct msg body w))
         = mkContext FAILED
             (Some (mkStepProgress sid name FAILED pct (Some (str_exc e))))
             (_completed_steps (ctx w)) (_outputs (ctx w))
  end.
Proof.
  intros Hbody. pose proof (step_outcome sid name pct msg body w Hbody) as H.
  destruct (step sid name pct msg body w) as [[e|a] w']; destruct H as [-> H];
    cbn [fst snd]; split; [reflexivity | exact H | reflexivity | exact H].
Qed.

Lemma X1_step_lifecycle_witness :
  fst (step "upload" "Upload" 90 ""
         (upload_output Sample.studio Sample.generated_face "ruby/faces") new_world)
  = inr Sample.stored_face.
Proof.
  exact (proj1 (X1_step_lifecycle "upload" "Upload" 90 ""
                  (upload_output Sample.studio Sample.generated_face "ruby/faces")
                  new_world (fun w => eq_refl))).
Defined.

Lemma assoc_app_miss {V} (k : string) (d : list (string * V)) (kv : string * V) :
  assoc k d = None ->
  assoc k (d ++ [kv]) = if String.eqb (fst kv) k then Some (snd kv) else None.
Proof.
  induction d as [|[k' v'] d IH]; cbn [assoc app].
  - destruct kv. reflexivity.
  - destruct (String.eqb k' k); [discriminate | exact IH].
Qed.

Lemma assoc_app_hit {V} (k : string) (d d' : list (string * V)) (v : V) :
  assoc k d = Some v -> assoc k (d ++ d') = Some v.
Proof.
  induction d as [|[k' v'] d IH]; cbn [assoc app]; [discriminate|].
  destruct (String.eqb k' k); [trivial | exact IH].
Qed.

Lemma assoc_replace (key k : string) (v : value) (d : list (string * value)) :
  assoc k (map (fun kv' => if String.eqb (fst kv') key then (key, v) else kv') d)
  = if String.eqb key k
    then match assoc k d with Some _ => Some v | None => None end
    else assoc k d.
Proof.
  induction d as [|[k' v'] d IH]; cbn [map assoc fst].
  - destruct (String.eqb key k); reflexivity.
  - destruct (String.eqb_spec k' key) as [->|Hne]; cbn [assoc].
    + destruct (String.eqb key k); [reflexivity | exact IH].
    + destruct (String.eqb_spec key k) as [->|Hne'].
      * destruct (String.eqb_spec k' k) as [->|_]; [congruence | exact IH].
      * destruct (String.eqb k' k); [reflexivity | exact IH].
Qed.

Lemma dict_set_get (d : list (string * value)) (key k : string) (v : value) :
  assoc k (dict_update d [(key, v)])
  = if String.eqb key k then Some v else assoc k d.
Proof.
  unfold dict_update. cbn [fold_left fst].
  destruct (assoc key d) as [old|] eqn:Hk.
  - rewrite assoc_replace.
    destruct (String.eqb_spec key k) as [<-|_]; [rewrite Hk|]; reflexivity.
  - destruct (String.eqb_spec key k) as [<-|Hne].
    + rewrite (assoc_app_miss _ _ (key, v) Hk). cbn. rewrite String.eqb_refl. reflexivity.
    + destruct (assoc k d) as [x|] eqn:Hx.
      * apply assoc_app_hit. exact Hx.
      * rewrite (assoc_app_miss _ _ (key, v) Hx). cbn.
        destruct (String.eqb_spec key k); [congruence | reflexivity].
Qed.

(** X2. [get_output] after [set_output] returns the value stored under
    the key and what [get_output] returned before under any other key;
    [set_output] changes nothing else of the context, and [get_output] of
    a key never set returns None. *)
Theorem X2_outputs_round_trip (key : string) (v : value) (w : world) :
  fst (get_output key (snd (set_output key v w))) = inr v
  /\ (forall other, other <> key ->
        fst (get_output other (snd (set_output key v w)))
        = fst (get_output other w))
  /\ _status (ctx (snd (set_output key v w))) = _status (ctx w)
  /\ _current_step (ctx (snd (set_output key v w))) = _current_step (ctx w)
  /\ _completed_steps (ctx (snd (set_output key v w))) = _completed_steps (ctx w)
  /\ fst (get_output key new_world) = inr VNone.
Proof.
  unfold get_output, set_output, modify, dict_get. cbn [fst snd ctx _outputs].
  split; [|split; [|repeat split]].
  - rewrite dict_set_get, String.eqb_refl. reflexivity.
  - intros other Hne. rewrite dict_set_get.
    destruct (String.eqb_spec key other); [congruence | reflexivity].
Qed.

End Steps.

Lemma X2_outputs_round_trip_witness :
  fst (get_output "face" (snd (set_output "video" (VStr "v.mp4") new_world)))
  = fst (get_output "face" new_world).
Proof.
  apply (proj1 (proj2 (X2_outputs_round_trip "video" (VStr "v.mp4") new_world))
               "face"%string).
  discriminate.
Defined.

(** ** The sequential pipeline, step by step *)

Lemma bind_run {S A B} (m : Eff.ST S A) (k : A -> Eff.ST S B) (s : S) :
  Eff.bind m k s
  = match m s with
    | (inr a, s') => k a s'
    | (inl e, s') => (inl e, s')
    end.
Proof. reflexivity. Qed.

Section Pipeline.
Import Extra Ruby.

Variable rt : runtime.

Lemma untouched_ret {A} (a : A) : ctx_untouched (ret a : M A).
Proof. intros w. reflexivity. Qed.

Lemma untouched_raise {A} (e : exception) : ctx_untouched (raise e : M A).
Proof. intros w. reflexivity. Qed.

Lemma untouched_bind {A B} (m : M A) (k : A -> M B) :
  ctx_untouched m -> (forall a, ctx_untouched (k a)) -> ctx_untouched (bind m k).
Proof.
  intros Hm Hk w. unfold bind. specialize (Hm w).
  destruct (m w) as [[e|a] w']; cbn [snd] in *; [exact Hm | rewrite Hk; exact Hm].
Qed.

Lemma untouched_run_activity (a : activity) t h r :
  ctx_untouched (run_activity rt a t h r).
Proof. intros w. reflexivity. Qed.

Lemma untouched_rewrite_images urls input :
  ctx_untouched (maybe_rewrite_images rt urls input).
Proof.
  unfold maybe_rewrite_images.
  destruct (negb (rewrite_enabled input) || match urls with [] => true | _ => false end).
  - apply untouched_ret.
  - apply untouched_bind; [apply untouched_run_activity | intros ?; apply untouched_ret].
Qed.

Lemma untouched_rewrite_image url input :
  ctx_untouched (maybe_rewrite_image rt url input).
Proof.
  unfold maybe_rewrite_image. destruct (negb (rewrite_enabled input)).
  - apply untouched_ret.
  - apply untouched_bind; [apply untouched_rewrite_images|].
    intros [|u urls]; [apply untouched_raise | apply untouched_ret].
Qed.

Lemma untouched_rewrite_video url input speed :
  ctx_untouched (maybe_rewrite_video rt url input speed).
Proof.
  unfold maybe_rewrite_video. destruct (negb (rewrite_enabled input)).
  - apply untouched_ret.
  - apply untouched_bind; [apply untouched_run_activity | intros ?; apply untouched_ret].
Qed.

Lemma proceeds_step {A} (sid name : string) (pct : Z) (msg : string) (body : M A) :
  ctx_untouched body -> proceeds [sid] running_with (step sid name pct msg body).
Proof.
  intros Hbody w done [Hs Hd].
  pose proof (step_outcome sid name pct msg body w Hbody) as H.
  destruct (step sid name pct msg body w) as [[e|a] w']; destruct H as [_ H].
  - split.
    + split; [rewrite H; reflexivity|]. eexists. rewrite H. cbn. repeat split.
    + exists 0%nat. split; [cbn; lia|]. rewrite H. cbn. rewrite app_nil_r. exact Hd.
  - split; rewrite H; cbn; [exact Hs | rewrite Hd; reflexivity].
Qed.

Lemma proceeds_ret {A} (a : A) : proceeds [] running_with (ret a : M A).
Proof. intros w done H. cbn. rewrite app_nil_r. exact H. Qed.

Lemma proceeds_bind {A B} (s1 s2 : list string) post (m : M A) (k : A -> M B) :
  proceeds s1 running_with m -> (forall a, proceeds s2 post (k a)) ->
  proceeds (s1 ++ s2) post (bind m k).
Proof.
  intros Hm Hk w done Hw. unfold bind. specialize (Hm w done Hw).
  destruct (m w) as [[e|a] w1].
  - destruct Hm as [Hf (k0 & Hk0 & Hc)]. split; [exact Hf|].
    exists k0. split; [rewrite length_app; lia|].
    rewrite firstn_app. replace (k0 - length s1)%nat with 0%nat by lia.
    cbn. rewrite app_nil_r. exact Hc.
  - specialize (Hk a w1 (done ++ s1) Hm).
    destruct (k a w1) as [[e|b] w2].
    + destruct Hk as [Hf (k0 & Hk0 & Hc)]. split; [exact Hf|].
      exists (length s1 + k0)%nat. split; [rewrite length_app; lia|].
      rewrite firstn_app_2, app_assoc. exact Hc.
    + rewrite app_assoc. exact Hk.
Qed.

Lemma proceeds_complete {A} (a : A) : proceeds [] completed_with (complete ;;; ret a).
Proof.
  intros w done [Hs Hd]. cbn. rewrite app_nil_r. repeat split. exact Hd.
Qed.

Ltac untouched :=
  repeat first
    [ apply untouched_ret | apply untouched_raise | apply untouched_run_activity
    | apply untouched_rewrite_image | apply untouched_rewrite_video
    | apply untouched_bind; [|intros ?] ].

Lemma proceeds_slowmo input url :
  proceeds (if slowed_video input then ["slowmo"] else []) running_with
           (slowmo_step rt input url).
Proof.
  unfold slowmo_step. destruct (slowed_video input).
  - apply proceeds_step. untouched.
  - apply proceeds_ret.
Qed.

Lemma proceeds_text input url :
  proceeds (if truthy_ostr (text_overlay input) then ["text"] else []) running_with
           (text_step rt input url).
Proof.
  unfold text_step, truthy_ostr.
  destruct (text_overlay input) as [text|]; [destruct (truthy_str text)|].
  - apply proceeds_step. untouched.
  - apply proceeds_ret.
  - apply proceeds_ret.
Qed.

Lemma proceeds_rewrite input face video :
  proceeds (if rewrite_enabled (base input) then ["rewrite"] else []) running_with
           (rewrite_step rt input face video).
Proof.
  unfold rewrite_step. destruct (rewrite_enabled (base input)).
  - apply proceeds_step. untouched.
  - apply proceeds_ret.
Qed.

(** X3. What a run of the sequential pipeline leaves behind. If it
    returns, the status is COMPLETED, the current step is the step
    "complete" at 100 percent and the completed steps are prompts, face,
    video, then slowmo, text and rewrite when they are requested, then
    upload. If it raises, then either the secret key was rejected and
    nothing changed; or the aspect ratio is not one of the enumeration,
    no activity was executed and the status is still RUNNING; or one of
    the steps failed: the status and the current step are FAILED, the
    message of the step is the text of the exception raised, and the
    completed steps are the steps before the failing one. *)
Theorem X3_ruby_run_outcome (cfg : AppConfig) (input : RubyInput) :
  match run cfg rt input new_world with
  | (inr _, w) => completed_with (ruby_steps input) w
  | (inl e, w) =>
      (w = new_world /\ type_name e = "ApplicationError"%string
       /\ is_non_retryable e = true)
      \/ (ctx w = set_status RUNNING init /\ executed w = []
          /\ AspectRatio_of_value (aspect_ratio input) = inl e)
      \/ failed_in (ruby_steps input) [] e w
  end.
Proof.
  unfold run. rewrite bind_run.
  assert (Hstart :
            (exists e, start cfg (base input) new_world = (inl e, new_world)
                       /\ type_name e = "ApplicationError"%string
                       /\ is_non_retryable e = true)
            \/ start cfg (base input) new_world
               = (inr tt, mkWorld (set_status RUNNING init) [])).
  { unfold start.
    destruct (WORKFLOW_SECRET_ENABLED cfg); [|right; reflexivity].
    destruct (negb (truthy_ostr (WORKFLOW_SECRET_KEY cfg)));
      [left; eexists; repeat split|].
    destruct (negb (ostr_eqb (secret_key (base input)) (WORKFLOW_SECRET_KEY cfg)));
      [left; eexists; repeat split | right; reflexivity]. }
  destruct Hstart as [(e & -> & Ht & Hn) | ->].
  { left. repeat split; assumption. }
  rewrite bind_run.
  destruct (AspectRatio_of_value (aspect_ratio input)) as [e|aspect] eqn:Ha;
    cbn [lift raise ret].
  { right. left. repeat split. }
  match goal with
  | |- context [bind ?m ?k (mkWorld (set_status RUNNING init) [])] =>
      assert (Hp : proceeds (ruby_steps input) completed_with (bind m k))
  end.
  { unfold ruby_steps, prompts_step, face_step, video_step, upload_step.
    apply (proceeds_bind ["prompts"]); [apply proceeds_step; untouched|].
    intros [enhanced_image_prompt enhanced_video_prompt].
    apply (proceeds_bind ["face"]); [apply proceeds_step; untouched|].
    intros face_image_url.
    apply (proceeds_bind ["video"]); [apply proceeds_step; untouched|].
    intros raw_video_url.
    apply proceeds_bind; [apply proceeds_slowmo|]. intros slowed_url.
    apply proceeds_bind; [apply proceeds_text|]. intros final_video_url.
    apply proceeds_bind; [apply proceeds_rewrite|]. intros [face_url video_url].
    apply (proceeds_bind ["upload"] []);
      [apply proceeds_step; unfold upload_output; untouched|].
    intros stored. apply proceeds_complete. }
  specialize (Hp (mkWorld (set_status RUNNING init) []) [] (conj eq_refl eq_refl)).
  match goal with
  | |- context [bind ?m ?k (mkWorld (set_status RUNNING init) [])] =>
      destruct (bind m k (mkWorld (set_status RUNNING init) [])) as [[e|out] w]
  end.
  - right. right. exact Hp.
  - exact Hp.
Qed.

End Pipeline.

(** ** Uploading the selected images *)

Section Upload.
Import Extra Slideshows Spec.

Variable rt : runtime.

Lemma gather_upload (images : list PinterestImage) :
  forall w,
    gather_return_exceptions (map (upload_task rt) images) w
    = (inr (upload_outcomes rt images (executed w)),
       mkWorld (ctx w) (executed w ++ map upload_call images)).
Proof.
  induction images as [|image rest IH]; intros w.
  - cbn. rewrite app_nil_r. destruct w; reflexivity.
  - cbn [map gather_return_exceptions upload_outcomes].
    unfold upload_task at 1, run_activity at 1.
    rewrite IH. cbn [ctx executed]. rewrite <- app_assoc. reflexivity.
Qed.

Lemma upload_outcomes_length (images : list PinterestImage) :
  forall h, length (upload_outcomes rt images h) = length images.
Proof.
  induction images as [|i rest IH]; intros h; cbn; [reflexivity | rewrite IH; reflexivity].
Qed.

Lemma uploaded_subsequence (images : list PinterestImage) :
  forall results,
    subsequence (map without_url (uploaded_images (combine images results)))
                (map without_url images).
Proof.
  induction images as [|i rest IH]; intros [|[e|out] results]; cbn.
  - constructor.
  - constructor.
  - constructor.
  - apply subsequence_nil.
  - apply sub_skip, IH.
  - apply sub_take, IH.
Qed.

Lemma uploaded_urls (images : list PinterestImage) :
  forall results,
    length results = length images ->
    map image_url (uploaded_images (combine images results))
    = map so_url (successes results).
Proof.
  induction images as [|i rest IH]; intros [|[e|out] results] Hlen;
    try discriminate; cbn.
  - reflexivity.
  - apply IH. now injection Hlen.
  - f_equal. apply IH. now injection Hlen.
Qed.

Lemma uploaded_all (images : list PinterestImage) :
  forall results,
    length results = length images ->
    Forall (fun r => exists out, r = inr out) results ->
    map without_url (uploaded_images (combine images results))
    = map without_url images.
Proof.
  induction images as [|i rest IH]; intros [|r results] Hlen Hall;
    try discriminate; cbn.
  - reflexivity.
  - inversion Hall as [|? ? [out ->] Hrest]; subst. cbn.
    f_equal. apply IH; [now injection Hlen | exact Hrest].
Qed.

(** X4. Uploading the selected images never raises and leaves the
    context alone. It executes one upload per image, in the order of
    the images, each with the folder "pinterest/images", and nothing
    else. The images returned are the images whose upload succeeded, in
    their order and with every field but the url unchanged; their urls
    are the urls the storage returned. If every upload succeeds, every
    image is returned. *)
Theorem X4_upload_images (images : list PinterestImage) (w : world) :
  let results := upload_outcomes rt images (executed w) in
  let uploaded := uploaded_images (combine images results) in
  _upload_images rt images w
  = (inr uploaded, mkWorld (ctx w) (executed w ++ map upload_call images))
  /\ subsequence (map without_url uploaded) (map without_url images)
  /\ map image_url uploaded = map so_url (successes results)
  /\ (Forall (fun r => exists out, r = inr out) results ->
      map without_url uploaded = map without_url images).
Proof.
  intros results uploaded. split; [|split; [|split]].
  - unfold _upload_images. destruct images as [|i rest].
    + cbn. rewrite app_nil_r. destruct w; reflexivity.
    + unfold bind. rewrite gather_upload. reflexivity.
  - apply uploaded_subsequence.
  - apply uploaded_urls, upload_outcomes_length.
  - apply uploaded_all, upload_outcomes_length.
Qed.

End Upload.

Lemma X4_upload_images_witness :
  map Extra.without_url
    (Slideshows.uploaded_images
       (combine [Cases.sunset_image; Cases.forest_image]
          (Extra.upload_outcomes (Cases.storage "") [Cases.sunset_image; Cases.forest_image] [])))
  = map Extra.without_url [Cases.sunset_image; Cases.forest_image].
Proof.
  apply (proj2 (proj2 (proj2
           (X4_upload_images (Cases.storage "") [Cases.sunset_image; Cases.forest_image]
              new_world)))).
  repeat constructor; eexists; reflexivity.
Defined.

(** ** More on ranking and selection *)

Lemma subsequence_in {A} (l1 l2 : list A) :
  Spec.subsequence l1 l2 -> forall x, In x l1 -> In x l2.
Proof.
  induction 1 as [|y l1 l2 _ IH|y l1 l2 _ IH]; intros x Hx.
  - exact Hx.
  - destruct Hx as [<-|Hx]; [left; reflexivity | right; apply IH, Hx].
  - right. apply IH, Hx.
Qed.

Lemma subsequence_map {A B} (f : A -> B) (l1 l2 : list A) :
  Spec.subsequence l1 l2 -> Spec.subsequence (map f l1) (map f l2).
Proof. induction 1; cbn; constructor; assumption. Qed.

Lemma subsequence_NoDup {A} (l1 l2 : list A) :
  Spec.subsequence l1 l2 -> NoDup l2 -> NoDup l1.
Proof.
  induction 1 as [|y l1 l2 Hs IH|y l1 l2 Hs IH]; intros Hnd.
  - exact Hnd.
  - inversion Hnd as [|? ? Hy Hl]; subst. constructor; [|apply IH, Hl].
    intros Hin. apply Hy. eapply subsequence_in; eassumption.
  - inversion Hnd; subst. apply IH. assumption.
Qed.

Section MoreSelection.
Import Extra Slideshows Spec.

Variable keywords : list string.

Local Open Scope Q_scope.

Lemma dedup_spec (pins : list pin) :
  forall seen,
    NoDup (map url_of (map snd (dedup_and_score keywords pins seen)))
    /\ (forall p, In p (map snd (dedup_and_score keywords pins seen)) ->
          ~ In (url_of p) seen /\ truthy_str (url_of p) = true
          /\ find (fun x => String.eqb (url_of x) (url_of p)) pins = Some p)
    /\ (forall p, In p pins -> truthy_str (url_of p) = true -> ~ In (url_of p) seen ->
          In (url_of p) (map url_of (map snd (dedup_and_score keywords pins seen)))).
Proof.
  induction pins as [|p rest IH]; intros seen; cbn [dedup_and_score].
  - cbn. split; [constructor|]. split; [intros ? [] | intros ? []].
  - change (get_str (k_image_url p) "") with (url_of p).
    destruct (truthy_str (url_of p)) eqn:Ht; cbn [negb orb].
    + destruct (existsb (String.eqb (url_of p)) seen) eqn:Hseen.
      * assert (Hin : In (url_of p) seen).
        { apply existsb_exists in Hseen. destruct Hseen as (x & Hx & E).
          apply String.eqb_eq in E. rewrite E. exact Hx. }
        destruct (IH seen) as (Hnd & Hk & Hc). split; [exact Hnd|]. split.
        -- intros q Hq. destruct (Hk q Hq) as (Hns & Htq & Hf).
           repeat split; try assumption. cbn [find].
           destruct (String.eqb_spec (url_of p) (url_of q)) as [E|_]; [|exact Hf].
           exfalso. apply Hns. rewrite <- E. exact Hin.
        -- intros q [<-|Hq] Htq Hns; [contradiction | apply Hc; assumption].
      * assert (Hnin : ~ In (url_of p) seen).
        { intros Hin. assert (existsb (String.eqb (url_of p)) seen = true); [|congruence].
          apply existsb_exists. exists (url_of p). split; [exact Hin | apply String.eqb_refl]. }
        destruct (IH (url_of p :: seen)) as (Hnd & Hk & Hc).
        cbn [map snd]. split; [|split].
        -- constructor; [|exact Hnd]. intros Hin. apply in_map_iff in Hin.
           destruct Hin as (q & Eq & Hq). destruct (Hk q Hq) as (Hns & _).
           apply Hns. left. symmetry. exact Eq.
        -- intros q [<-|Hq].
           ++ repeat split; try assumption. cbn [find]. rewrite String.eqb_refl. reflexivity.
           ++ destruct (Hk q Hq) as (Hns & Htq & Hf).
              split; [intros Hin; apply Hns; right; exact Hin|]. split; [exact Htq|].
              cbn [find]. destruct (String.eqb_spec (url_of p) (url_of q)) as [E|_]; [|exact Hf].
              exfalso. apply Hns. left. exact E.
        -- intros q [<-|Hq] Htq Hns; [left; reflexivity|].
           destruct (string_dec (url_of p) (url_of q)) as [E|Hne]; [left; exact E|].
           right. apply Hc; try assumption. intros [E|Hin]; [exact (Hne E) | exact (Hns Hin)].
    + destruct (IH seen) as (Hnd & Hk & Hc). split; [exact Hnd|]. split.
      * intros q Hq. destruct (Hk q Hq) as (Hns & Htq & Hf).
        repeat split; try assumption. cbn [find].
        destruct (String.eqb_spec (url_of p) (url_of q)) as [E|_]; [|exact Hf].
        rewrite E in Ht. congruence.
      * intros q [<-|Hq] Htq Hns; [congruence | apply Hc; assumption].
Qed.

Lemma dedup_scores (pins : list pin) :
  forall seen,
    Forall (fun x => fst x = _score_pin keywords (snd x))
           (dedup_and_score keywords pins seen).
Proof.
  induction pins as [|p rest IH]; intros seen; cbn [dedup_and_score].
  - constructor.
  - destruct (negb (truthy_str (get_str (k_image_url p) ""))
              || existsb (String.eqb (get_str (k_image_url p) "")) seen).
    + apply IH.
    + constructor; [reflexivity | apply IH].
Qed.

(** X5. The first loop of the selection keeps, of the pins with a
    non-empty url, the first pin of every url and no other: the urls
    kept are pairwise distinct and not empty, every pin kept is the
    first pin of the input with its url, the url of every input pin with
    a non-empty url is kept, and every pin kept is paired with its
    score. *)
Theorem X5_dedup_first_occurrence (pins : list pin) :
  NoDup (map url_of (map snd (dedup_and_score keywords pins [])))
  /\ (forall p, In p (map snd (dedup_and_score keywords pins [])) ->
        truthy_str (url_of p) = true
        /\ find (fun x => String.eqb (url_of x) (url_of p)) pins = Some p)
  /\ (forall p, In p pins -> truthy_str (url_of p) = true ->
        In (url_of p) (map url_of (map snd (dedup_and_score keywords pins []))))
  /\ Forall (fun x => fst x = _score_pin keywords (snd x))
            (dedup_and_score keywords pins []).
Proof.
  destruct (dedup_spec pins []) as (Hnd & Hk & Hc).
  split; [exact Hnd|]. split; [|split].
  - intros p Hp. destruct (Hk p Hp) as (_ & Ht & Hf). split; assumption.
  - intros p Hp Ht. apply Hc; [assumption | assumption | intros []].
  - apply dedup_scores.
Qed.

(** The penalty is a function of the number of keywords that occur. *)
Lemma penalty_value (p : pin) :
  _calculate_text_penalty keywords p
  == penalty_of (matches keywords (combined_text p)).
Proof. apply penalty_any. Qed.

Lemma penalty_of_bounds (m : nat) :
  0 <= penalty_of m <= 100
  /\ (m = 0%nat -> penalty_of m == 0)
  /\ ((1 <= m)%nat -> 50 <= penalty_of m)
  /\ ((5 <= m)%nat -> penalty_of m == 100).
Proof.
  destruct m as [|m]; cbn [penalty_of].
  - repeat split; try lra; intros; lia.
  - assert (Hm : 0 <= inject_Z (Z.of_nat m)).
    { change 0 with (inject_Z 0). rewrite <- Zle_Qle. lia. }
    destruct (Q.min_spec 100 (50 + 15 * inject_Z (Z.of_nat m))) as [[Hlt ->]|[Hle ->]].
    + repeat split; try lra; intros; try lia; lra.
    + repeat split; try lra; intros; try lia.
      assert (H4 : inject_Z 4 <= inject_Z (Z.of_nat m)) by (rewrite <- Zle_Qle; lia).
      change (inject_Z 4) with 4 in H4. lra.
Qed.

Lemma matches_none (text : string) :
  (forall k, In k keywords -> contains k text = false) -> matches keywords text = 0%nat.
Proof.
  unfold matches. induction keywords as [|k rest IH]; intros H; cbn [filter].
  - reflexivity.
  - rewrite (H k (or_introl eq_refl)). apply IH. intros k' Hk'. apply H. right. exact Hk'.
Qed.

Lemma matches_some (text k : string) :
  In k keywords -> contains k text = true -> (1 <= matches keywords text)%nat.
Proof.
  unfold matches. induction keywords as [|k' rest IH]; intros Hin Hc; cbn [filter].
  - destruct Hin.
  - destruct Hin as [->|Hin].
    + rewrite Hc. cbn [length]. lia.
    + destruct (contains k' text); [cbn [length]; lia | apply IH; assumption].
Qed.

Lemma penalty_range (p : pin) :
  0 <= _calculate_text_penalty keywords p <= 100
  /\ ((forall k, In k keywords -> contains k (combined_text p) = false) ->
      _calculate_text_penalty keywords p == 0).
Proof.
  pose proof (penalty_value p) as E.
  destruct (penalty_of_bounds (matches keywords (combined_text p))) as (Hb & H0 & _).
  split; [lra|]. intros Hnone. rewrite E. apply H0, matches_none, Hnone.
Qed.

(** X6. The text penalty of a pin lies between 0 and 100. It is 0 when
    no keyword occurs in the lower-cased title and description, at
    least 50 as soon as one keyword occurs, and 100 when five or more
    occur. *)
Theorem X6_penalty_bounds (p : pin) :
  0 <= _calculate_text_penalty keywords p <= 100
  /\ ((forall k, In k keywords -> contains k (combined_text p) = false) ->
      _calculate_text_penalty keywords p == 0)
  /\ (forall k, In k keywords -> contains k (combined_text p) = true ->
        50 <= _calculate_text_penalty keywords p)
  /\ ((5 <= matches keywords (combined_text p))%nat ->
      _calculate_text_penalty keywords p == 100).
Proof.
  pose proof (penalty_value p) as E.
  destruct (penalty_of_bounds (matches keywords (combined_text p))) as (Hb & H0 & H1 & H5).
  split; [lra|]. split; [|split].
  - intros Hnone. rewrite E. apply H0, matches_none, Hnone.
  - intros k Hin Hc. rewrite E. apply H1. eapply matches_some; eassumption.
  - intros Hm. rewrite E. apply H5, Hm.
Qed.

Lemma oint_or_nonneg (o : option Z) :
  (forall z, o = Some z -> (0 <= z)%Z) -> (0 <= oint_or o 0)%Z.
Proof.
  intros H. unfold oint_or. destruct o as [z|]; [|lia].
  destruct (truthy_int z); [apply H; reflexivity | lia].
Qed.

(** X7. For a pin whose dimensions are not negative the score before
    the penalty lies between 0 and 100, so the score lies between -100
    and 100, and a pin in whose text no keyword occurs has a score that
    is not negative. *)
Theorem X7_score_bounds (p : pin) :
  dims_nonnegative p ->
  0 <= _score_pin keywords p + _calculate_text_penalty keywords p <= 100
  /\ -100 <= _score_pin keywords p <= 100
  /\ ((forall k, In k keywords -> contains k (combined_text p) = false) ->
      0 <= _score_pin keywords p).
Proof.
  intros [Hw Hh].
  pose proof (oint_or_nonneg _ Hw) as HW. pose proof (oint_or_nonneg _ Hh) as HH.
  assert (Hpix : (0 <= pixels p)%Z) by (unfold pixels; nia).
  destruct (score_follows keywords p Hpix) as (pz & Hpz & HP & ((Hlo & Hhi) & _ & _)).
  unfold Z.sub in Hhi. rewrite inject_Z_plus in Hhi. rewrite inject_Z_opp in Hlo, Hhi.
  change (inject_Z 100) with 100 in Hhi.
  assert (Hp0 : inject_Z 0 <= inject_Z pz) by (rewrite <- Zle_Qle; lia).
  assert (Hp1 : inject_Z pz <= inject_Z 100) by (rewrite <- Zle_Qle; lia).
  change (inject_Z 0) with 0 in Hp0. change (inject_Z 100) with 100 in Hp1.
  split; [rewrite HP; lra|]. split; [lra|].
  intros Hnone. destruct (penalty_range p) as (_ & HP0).
  rewrite (HP0 Hnone) in HP. lra.
Qed.

End MoreSelection.

Section Provenance.
Import Extra Slideshows Spec.

Variable keywords : list string.

Lemma scored_urls_distinct (pins : list pin) :
  NoDup (map url_of (map snd (scored_pins_of keywords pins))).
Proof.
  unfold scored_pins_of.
  eapply Permutation_NoDup.
  - apply Permutation_map, Permutation_map, Permutation_sym, sort_desc_perm.
  - apply (dedup_spec keywords pins []).
Qed.

Lemma scored_from_pins (pins : list pin) (p : pin) :
  In p (map snd (scored_pins_of keywords pins)) ->
  In p pins /\ truthy_str (url_of p) = true.
Proof.
  intros Hin. unfold scored_pins_of in Hin.
  assert (Hk : In p (map snd (dedup_and_score keywords pins []))).
  { eapply Permutation_in; [|exact Hin]. apply Permutation_map, sort_desc_perm. }
  destruct (dedup_spec keywords pins []) as (_ & H & _).
  destruct (H p Hk) as (_ & Ht & Hf). split; [|exact Ht].
  apply find_some in Hf. apply Hf.
Qed.

Lemma selection_starts_with_best (pins : list pin) (x : Q * pin) (rest : list (Q * pin)) :
  scored_pins_of keywords pins = x :: rest ->
  exists more, _select_best_images keywords pins = to_image (snd x) :: more.
Proof.
  intros Hs. unfold _select_best_images. rewrite Hs. destruct x as [score p].
  change (select_loop ((score, p) :: rest) [] [])
    with (select_loop rest [to_image p] [_compute_image_hash p]).
  destruct (select_loop_spec rest [to_image p] [_compute_image_hash p] eq_refl)
    as (_ & _ & _ & _ & (chosen & H & _) & _).
  { repeat constructor. intros []. }
  exists (map to_image chosen). exact H.
Qed.

(** X8. Where the selected images come from. Every selected image is
    built from a pin of the input that has a non-empty url, and no two
    selected images have the same url. The pin ranked first is always
    selected, and is the first image returned. The selection is empty
    exactly when no pin of the input has a non-empty url. *)
Theorem X8_selection_provenance (pins : list pin) :
  NoDup (map image_url (_select_best_images keywords pins))
  /\ (forall i, In i (_select_best_images keywords pins) ->
        truthy_str (image_url i) = true
        /\ exists p, In p pins /\ i = to_image p)
  /\ (forall x rest, scored_pins_of keywords pins = x :: rest ->
        exists more, _select_best_images keywords pins = to_image (snd x) :: more)
  /\ (_select_best_images keywords pins = []
      <-> Forall (fun p => truthy_str (url_of p) = false) pins).
Proof.
  destruct (select_best_images_spec keywords pins) as (_ & _ & (chosen & Hsel & Hsub) & _).
  split; [|split; [|split]].
  - rewrite Hsel, map_map.
    change (map (fun p => image_url (to_image p)) chosen) with (map url_of chosen).
    eapply subsequence_NoDup; [apply subsequence_map, Hsub | apply scored_urls_distinct].
  - intros i Hi. rewrite Hsel in Hi. apply in_map_iff in Hi. destruct Hi as (p & <- & Hp).
    destruct (scored_from_pins pins p (subsequence_in _ _ Hsub p Hp)) as [Hin Ht].
    split; [exact Ht|]. exists p. split; [exact Hin | reflexivity].
  - apply selection_starts_with_best.
  - split.
    + intros Hempty. apply Forall_forall. intros p Hp.
      destruct (truthy_str (url_of p)) eqn:Ht; [exfalso | reflexivity].
      destruct (dedup_spec keywords pins []) as (_ & _ & Hc).
      specialize (Hc p Hp Ht (fun F => F)).
      destruct (scored_pins_of keywords pins) as [|x rest] eqn:Hs.
      * unfold scored_pins_of in Hs.
        pose proof (Permutation_length (sort_desc_perm (dedup_and_score keywords pins []))) as Hl.
        rewrite Hs in Hl. destruct (dedup_and_score keywords pins []); [destruct Hc | discriminate].
      * destruct (selection_starts_with_best pins x rest Hs) as [more Hm]. congruence.
    + intros Hall. destruct (scored_pins_of keywords pins) as [|x rest] eqn:Hs.
      * unfold _select_best_images. rewrite Hs. reflexivity.
      * exfalso. destruct (scored_from_pins pins (snd x)) as [Hin Ht].
        { rewrite Hs. left. reflexivity. }
        rewrite Forall_forall in Hall. rewrite (Hall _ Hin) in Ht. discriminate.
Qed.

End Provenance.

Lemma X5_dedup_first_occurrence_witness :
  In (Extra.url_of Sample.sunset)
     (map Extra.url_of
        (map snd (Slideshows.dedup_and_score Slideshows._UNWANTED_IMAGE_KEYWORDS
                    Sample.candidates []))).
Proof.
  apply (proj1 (proj2 (proj2
           (X5_dedup_first_occurrence Slideshows._UNWANTED_IMAGE_KEYWORDS
              Sample.candidates))) Sample.sunset).
  - right. left. reflexivity.
  - reflexivity.
Defined.

Lemma X6_penalty_bounds_witness :
  (50 <= Slideshows._calculate_text_penalty Slideshows._UNWANTED_IMAGE_KEYWORDS
           Sample.best_of_pin)%Q.
Proof.
  apply (proj1 (proj2 (proj2
           (X6_penalty_bounds Slideshows._UNWANTED_IMAGE_KEYWORDS Sample.best_of_pin)))
           "best of"%string).
  - vm_compute. do 45 right. left. reflexivity.
  - vm_compute. reflexivity.
Defined.

Lemma X7_score_bounds_witness :
  (-100 <= Slideshows._score_pin Slideshows._UNWANTED_IMAGE_KEYWORDS Sample.sunset <= 100)%Q.
Proof.
  assert (Hd : Extra.dims_nonnegative Sample.sunset).
  { split; intros z H; simpl in H; injection H as <-; lia. }
  apply (proj1 (proj2
           (X7_score_bounds Slideshows._UNWANTED_IMAGE_KEYWORDS Sample.sunset Hd))).
Defined.

Lemma X8_selection_provenance_witness :
  exists more,
    Slideshows._select_best_images Slideshows._UNWANTED_IMAGE_KEYWORDS Sample.candidates
    = Slideshows.to_image Sample.sunset :: more.
Proof.
  apply (proj1 (proj2 (proj2
           (X8_selection_provenance Slideshows._UNWANTED_IMAGE_KEYWORDS Sample.candidates)))
           (Slideshows._score_pin Slideshows._UNWANTED_IMAGE_KEYWORDS Sample.sunset,
            Sample.sunset)
           (tl (Slideshows.scored_pins_of Slideshows._UNWANTED_IMAGE_KEYWORDS
                  Sample.candidates))).
  vm_compute. reflexivity.
Defined.

(** ** The tool registry and the activity that executes a tool *)

Section Tools.
Import Extra Registry.

Lemma assoc_filter_other {V} (k0 k : string) (r : list (string * V)) :
  assoc k (filter (fun kv => negb (String.eqb (fst kv) k0)) r)
  = if String.eqb k0 k then None else assoc k r.
Proof.
  induction r as [|[k' v] r IH]; cbn [filter assoc fst].
  - destruct (String.eqb k0 k); reflexivity.
  - destruct (String.eqb_spec k' k0) as [->|Hne]; cbn [negb assoc].
    + rewrite IH. destruct (String.eqb k0 k); reflexivity.
    + rewrite IH. destruct (String.eqb_spec k0 k) as [<-|_]; [|reflexivity].
      destruct (String.eqb_spec k' k0); [congruence | reflexivity].
Qed.

Lemma assoc_in_keys {V} (k : string) (r : list (string * V)) :
  In k (map fst r) <-> assoc k r <> None.
Proof.
  induction r as [|[k' v] r IH]; cbn [map assoc fst In].
  - split; [intros [] | congruence].
  - destruct (String.eqb_spec k' k) as [->|Hne].
    + split; [discriminate | left; reflexivity].
    + rewrite <- IH. split; [intros [E|H]; [congruence | exact H] | right; assumption].
Qed.

(** X9. The laws of the registry. [register] fails exactly when the id
    of the tool is taken, and then raises a ValueError; when it returns,
    [get] finds the tool under its id, every other id is looked up as
    before, and the id is appended to the ids listed. After [unregister]
    the id is not found, and every other id is looked up as before. *)
Theorem X9_registry_laws (r : ToolRegistry) (tool : ToolDefinition) (tool_id : string) :
  match register r tool with
  | inr r' =>
      get r (id tool) = None
      /\ get r' (id tool) = Some tool
      /\ (forall other, other <> id tool -> get r' other = get r other)
      /\ list_ids r' = list_ids r ++ [id tool]
      /\ len r' = S (len r)
  | inl e =>
      get r (id tool) <> None /\ type_name e = "ValueError"%string
  end
  /\ get (unregister r tool_id) tool_id = None
  /\ (forall other, other <> tool_id -> get (unregister r tool_id) other = get r other).
Proof.
  split; [|split].
  - unfold register, contains_id, get.
    destruct (assoc (id tool) r) as [old|] eqn:Hold.
    + split; [discriminate | reflexivity].
    + split; [reflexivity|]. split; [|split; [|split]].
      * rewrite (assoc_app_miss _ _ (id tool, tool) Hold). cbn [fst snd].
        rewrite String.eqb_refl. reflexivity.
      * intros other Hne. destruct (assoc other r) as [t|] eqn:Ho.
        -- apply assoc_app_hit. exact Ho.
        -- rewrite (assoc_app_miss _ _ (id tool, tool) Ho). cbn [fst snd].
           destruct (String.eqb_spec (id tool) other); [congruence | reflexivity].
      * unfold list_ids. rewrite map_app. reflexivity.
      * unfold len. rewrite length_app. cbn [length]. lia.
  - unfold unregister, contains_id, get.
    destruct (assoc tool_id r) eqn:Hk; [|exact Hk].
    rewrite assoc_filter_other, String.eqb_refl. reflexivity.
  - intros other Hne. unfold unregister, contains_id, get.
    destruct (assoc tool_id r); [|reflexivity].
    rewrite assoc_filter_other.
    destruct (String.eqb_spec tool_id other); [congruence | reflexivity].
Qed.

Lemma built_invariant (r : ToolRegistry) :
  built r -> NoDup (list_ids r) /\ keyed_by_id r.
Proof.
  unfold list_ids, keyed_by_id. induction 1 as [|r tool r' _ [Hnd Hk] Hreg|r k _ [Hnd Hk]].
  - split; constructor.
  - unfold register, contains_id in Hreg.
    destruct (assoc (id tool) r) eqn:Ha; [discriminate|]. injection Hreg as <-. split.
    + rewrite map_app. cbn [map fst].
      eapply Permutation_NoDup; [apply Permutation_cons_append|].
      constructor; [|exact Hnd]. intros Hin. apply assoc_in_keys in Hin. congruence.
    + apply Forall_app. split; [exact Hk|]. constructor; [reflexivity | constructor].
  - unfold unregister. destruct (contains_id r k); [|split; assumption]. split.
    + clear Hk. induction r as [|[k' v] r IH]; cbn [filter map fst]; [constructor|].
      inversion Hnd as [|? ? Hn Hr]; subst.
      destruct (negb (String.eqb k' k)); cbn [map fst]; [|apply IH, Hr].
      constructor; [|apply IH, Hr]. intros Hin. apply Hn.
      apply in_map_iff in Hin. destruct Hin as (x & <- & Hx).
      apply filter_In in Hx. apply in_map. apply Hx.
    + apply Forall_forall. intros x Hx. apply filter_In in Hx.
      rewrite Forall_forall in Hk. apply Hk, Hx.
Qed.

Lemma assoc_in {V} (k : string) (v : V) (r : list (string * V)) :
  assoc k r = Some v -> In (k, v) r.
Proof.
  induction r as [|[k' v'] r IH]; cbn [assoc]; [discriminate|].
  destruct (String.eqb_spec k' k) as [->|_].
  - intros H. injection H as ->. left. reflexivity.
  - intros H. right. apply IH, H.
Qed.

Lemma in_assoc {V} (k : string) (v : V) (r : list (string * V)) :
  NoDup (map fst r) -> In (k, v) r -> assoc k r = Some v.
Proof.
  induction r as [|[k' v'] r IH]; cbn [assoc map fst]; intros Hnd Hin; [destruct Hin|].
  inversion Hnd as [|? ? Hn Hr]; subst. destruct Hin as [E|Hin].
  - injection E as -> ->. rewrite String.eqb_refl. reflexivity.
  - destruct (String.eqb_spec k' k) as [->|_]; [|apply IH; assumption].
    exfalso. apply Hn. apply (in_map fst) in Hin. exact Hin.
Qed.

(** X10. In a registry built by [register] and [unregister] calls the
    ids listed are pairwise distinct, every tool is found under its own
    id and under no other, the tools listed are the tools found by
    [get], in the order of the ids listed, and an id is listed exactly
    when [get] finds a tool for it. *)
Theorem X10_registry_invariant (r : ToolRegistry) :
  built r ->
  NoDup (list_ids r)
  /\ (forall tool_id tool, get r tool_id = Some tool -> id tool = tool_id)
  /\ map id (list_all r) = list_ids r
  /\ (forall tool, In tool (list_all r) <-> get r (id tool) = Some tool)
  /\ (forall tool_id, In tool_id (list_ids r) <-> get r tool_id <> None)
  /\ len r = length (list_ids r).
Proof.
  intros Hb. destruct (built_invariant r Hb) as [Hnd Hk].
  unfold keyed_by_id in Hk. rewrite Forall_forall in Hk.
  split; [exact Hnd|]. split; [|split; [|split; [|split]]].
  - intros k t Hg. apply assoc_in in Hg. symmetry. exact (Hk _ Hg).
  - unfold list_all, list_ids. rewrite map_map. apply map_ext_in.
    intros kv Hin. symmetry. apply Hk, Hin.
  - intros t. unfold list_all, get. split.
    + intros Hin. apply in_map_iff in Hin. destruct Hin as ([k t'] & E & Hin).
      cbn [snd] in E. subst t'. apply in_assoc; [exact Hnd|].
      pose proof (Hk _ Hin) as E. cbn [fst snd] in E. rewrite <- E. exact Hin.
    + intros Hg. apply assoc_in in Hg. apply (in_map snd) in Hg. exact Hg.
  - intros k. apply assoc_in_keys.
  - unfold len, list_ids. rewrite length_map. reflexivity.
Qed.

(** X11. The activity that executes a tool raises for an unknown tool
    only, and then a ValueError. For a registered tool it returns an
    output that names the tool asked for: the result of the tool when
    validation and execution return, and otherwise a failure with an
    empty output whose error is the text of the exception. *)
Theorem X11_execute_tool_outcome (registry : ToolRegistry) (input : ExecuteToolInput) :
  match get registry (ti_tool_id input) with
  | None =>
      exists e, execute_tool registry input = inl e
                /\ type_name e = "ValueError"%string
  | Some tool =>
      exists out,
        execute_tool registry input = inr out
        /\ to_tool_id out = ti_tool_id input
        /\ match validate_input tool (params input) with
           | inl e => out = mkExecuteToolOutput (ti_tool_id input) false []
                              (Some (str_exc e))
           | inr tool_input =>
               match execute tool tool_input with
               | inl e => out = mkExecuteToolOutput (ti_tool_id input) false []
                                  (Some (str_exc e))
               | inr result =>
                   out = mkExecuteToolOutput (ti_tool_id input) (Registry.success result)
                           (model_dump result) (Registry.error result)
               end
           end
  end.
Proof.
  unfold execute_tool, get_or_raise, get.
  destruct (assoc (ti_tool_id input) registry) as [tool|].
  - destruct (validate_input tool (params input)) as [e|tool_input].
    + eexists. repeat split.
    + destruct (execute tool tool_input) as [e|result]; eexists; repeat split.
  - eexists. split; reflexivity.
Qed.

End Tools.

Lemma X9_registry_laws_witness :
  Registry.get (Registry.unregister Cases.two_tools "echo") "broken"
  = Registry.get Cases.two_tools "broken".
Proof.
  apply (proj2 (proj2 (X9_registry_laws Cases.two_tools Cases.echo "echo")) "broken"%string).
  discriminate.
Defined.

Lemma X10_registry_invariant_witness :
  NoDup (Registry.list_ids Cases.two_tools).
Proof.
  apply (proj1 (X10_registry_invariant Cases.two_tools
                  (Extra.built_register [("echo", Cases.echo)] Cases.broken _
                     (Extra.built_register Registry.empty Cases.echo _
                        Extra.built_empty eq_refl)
                     eq_refl))).
Defined.

(** ** The rewrite tools, their activities and the workflow helpers *)

Section Rewrite.
Import Extra.

Variable validate_str : value -> option string.

(** X12. The video rewrite tool reports success whenever it returns, and
    always returns the url it was given as the original url. Without an
    API key, or when the request times out, is answered with an error
    status, cannot be sent, or is answered by something that is not
    JSON, the rewritten url is the original url. A rewritten url that
    differs from the original is the validated, non-empty url of the
    response. The activity passes the url it was given on as the
    original url. *)
Theorem X12_video_rewrite_falls_back (key : option string)
        (input : RewriteTools.GptMarketVideoRewriteInput)
        (post : PinterestTool.post_outcome) :
  (forall out, RewriteTools.execute_video validate_str key input post = inr out ->
     RewriteTools.vo_success out = true /\ RewriteTools.vo_error out = None
     /\ RewriteTools.original_url out = RewriteTools.video_url input)
  /\ (truthy_ostr key = false \/ no_response post = true ->
      RewriteTools.execute_video validate_str key input post
      = inr (RewriteTools.video_original input))
  /\ (forall out, RewriteTools.execute_video validate_str key input post = inr out ->
        RewriteTools.rewritten_url out <> RewriteTools.video_url input ->
        exists data u,
          post = PinterestTool.Json data
          /\ RewriteTools.inner_get data "url" (VStr "") = inr u
          /\ truthy u = true
          /\ validate_str u = Some (RewriteTools.rewritten_url out))
  /\ (forall activity_input out,
        RewriteTools.rewrite_video validate_str key activity_input post = inr out ->
        rv_original_url out = rv_video_url activity_input).
Proof.
  split; [|split; [|split]].
  - unfold RewriteTools.execute_video. intros out.
    destruct (negb (truthy_ostr key)); [intros H; injection H as <-; repeat split|].
    destruct post as [|code text|e|e| |data];
      try (intros H; injection H as <-; repeat split); try discriminate.
    destruct (RewriteTools.inner_get data "url" (VStr "")) as [e|u]; [discriminate|].
    destruct (negb (truthy u)); [intros H; injection H as <-; repeat split|].
    destruct (validate_str u); [|discriminate]. intros H; injection H as <-. repeat split.
  - unfold RewriteTools.execute_video. intros [Hk|Hp].
    + rewrite Hk. reflexivity.
    + destruct (negb (truthy_ostr key)); [reflexivity|].
      destruct post; try discriminate; reflexivity.
  - unfold RewriteTools.execute_video. intros out.
    destruct (negb (truthy_ostr key)); [intros H; injection H as <-; cbn; congruence|].
    destruct post as [|code text|e|e| |data];
      try (intros H; injection H as <-; cbn; congruence); try discriminate.
    destruct (RewriteTools.inner_get data "url" (VStr "")) as [e|u] eqn:Hu; [discriminate|].
    destruct (truthy u) eqn:Ht; cbn [negb]; [|intros H; injection H as <-; cbn; congruence].
    destruct (validate_str u) as [url|] eqn:Hv; [|discriminate].
    intros H _. injection H as <-. exists data, u. repeat split; assumption.
  - intros ai out. unfold RewriteTools.rewrite_video.
    destruct (RewriteTools.execute_video validate_str key _ post); [discriminate|].
    intros H. injection H as <-. reflexivity.
Qed.

Lemma rewrite_each_spec (urls : value) (images : list string) :
  forall i l,
    RewriteTools.rewrite_each validate_str urls i images = inr l ->
    map RewriteTools.ri_original_url l = images
    /\ forall n im, nth_error l n = Some im ->
         match RewriteTools.url_at urls (i + n) with
         | inr None => RewriteTools.ri_rewritten_url im = RewriteTools.ri_original_url im
         | inr (Some u) => validate_str u = Some (RewriteTools.ri_rewritten_url im)
         | inl _ => False
         end.
Proof.
  induction images as [|original rest IH]; intros i l; cbn [RewriteTools.rewrite_each].
  - intros H. injection H as <-. split; [reflexivity|]. intros [|n] im; discriminate.
  - destruct (RewriteTools.url_at urls i) as [e|[u|]] eqn:Hat; [discriminate| |].
    + destruct (validate_str u) as [url|] eqn:Hv; [|discriminate].
      destruct (RewriteTools.rewrite_each validate_str urls (S i) rest)
        as [e|others] eqn:Hrest; [discriminate|].
      intros H. injection H as <-. destruct (IH _ _ Hrest) as [Hmap Hnth]. split.
      * cbn [map RewriteTools.ri_original_url]. rewrite Hmap. reflexivity.
      * intros [|n] im; cbn [nth_error].
        -- intros H. injection H as <-. rewrite Nat.add_0_r, Hat. exact Hv.
        -- intros H. specialize (Hnth n im H).
           replace (i + S n)%nat with (S i + n)%nat by lia. exact Hnth.
    + destruct (RewriteTools.rewrite_each validate_str urls (S i) rest)
        as [e|others] eqn:Hrest; [discriminate|].
      intros H. injection H as <-. destruct (IH _ _ Hrest) as [Hmap Hnth]. split.
      * cbn [map RewriteTools.ri_original_url]. rewrite Hmap. reflexivity.
      * intros [|n] im; cbn [nth_error].
        -- intros H. injection H as <-. rewrite Nat.add_0_r, Hat. reflexivity.
        -- intros H. specialize (Hnth n im H).
           replace (i + S n)%nat with (S i + n)%nat by lia. exact Hnth.
Qed.

Lemma fallback_spec (images : list string) :
  map RewriteTools.ri_original_url (RewriteTools._fallback_to_originals images) = images
  /\ map RewriteTools.ri_rewritten_url (RewriteTools._fallback_to_originals images) = images.
Proof.
  unfold RewriteTools._fallback_to_originals. rewrite !map_map. cbn.
  rewrite map_id. split; reflexivity.
Qed.

Lemma execute_images_originals key input post out :
  RewriteTools.execute_images validate_str key input post = inr out ->
  map RewriteTools.ri_original_url (RewriteTools.io_images out) = RewriteTools.images input
  /\ RewriteTools.io_total out = Z.of_nat (length (RewriteTools.images input))
  /\ RewriteTools.io_success out = true /\ RewriteTools.io_error out = None.
Proof.
  unfold RewriteTools.execute_images, RewriteTools.images_original.
  destruct (negb (truthy_ostr key)).
  { intros H. injection H as <-. cbn. repeat split. apply fallback_spec. }
  destruct post as [|code text|e|e| |data];
    try (intros H; injection H as <-; cbn; repeat split; apply fallback_spec);
    try discriminate.
  destruct (RewriteTools.inner_get data "urls" (VList [])) as [e|urls]; [discriminate|].
  destruct (RewriteTools.rewrite_each validate_str urls 0 (RewriteTools.images input))
    as [e|l] eqn:Hl; [discriminate|].
  intros H. injection H as <-. cbn.
  destruct (rewrite_each_spec _ _ _ _ Hl) as [Hmap _].
  repeat split; [exact Hmap|]. rewrite <- Hmap. rewrite length_map. reflexivity.
Qed.

Lemma execute_images_fallback key input post out :
  RewriteTools.execute_images validate_str key input post = inr out ->
  truthy_ostr key = false \/ no_response post = true ->
  map RewriteTools.ri_rewritten_url (RewriteTools.io_images out)
  = RewriteTools.images input.
Proof.
  unfold RewriteTools.execute_images, RewriteTools.images_original.
  intros Hout [Hk|Hp].
  - rewrite Hk in Hout. injection Hout as <-. apply fallback_spec.
  - destruct (negb (truthy_ostr key)); [injection Hout as <-; apply fallback_spec|].
    destruct post; try discriminate; injection Hout as <-; apply fallback_spec.
Qed.

(** X13. When the image rewrite tool returns, it reports success and
    returns one image per image of the input, in the order of the
    input and with the url of the input as original url, and the total
    is their number. Without an API key or without a usable response
    every rewritten url is the original url. With a response, the image
    at position n carries the validated url at position n of the
    response when there is one and it is not empty, and the original url
    otherwise. *)
Theorem X13_image_rewrite_positions (key : option string)
        (input : RewriteTools.GptMarketImageRewriteInput)
        (post : PinterestTool.post_outcome)
        (out : RewriteTools.GptMarketImageRewriteOutput) :
  RewriteTools.execute_images validate_str key input post = inr out ->
  RewriteTools.io_success out = true
  /\ map RewriteTools.ri_original_url (RewriteTools.io_images out)
     = RewriteTools.images input
  /\ RewriteTools.io_total out = Z.of_nat (length (RewriteTools.images input))
  /\ (truthy_ostr key = false \/ no_response post = true ->
      map RewriteTools.ri_rewritten_url (RewriteTools.io_images out)
      = RewriteTools.images input)
  /\ (forall data urls n im,
        truthy_ostr key = true -> post = PinterestTool.Json data ->
        RewriteTools.inner_get data "urls" (VList []) = inr urls ->
        nth_error (RewriteTools.io_images out) n = Some im ->
        match RewriteTools.url_at urls n with
        | inr None => RewriteTools.ri_rewritten_url im = RewriteTools.ri_original_url im
        | inr (Some u) => validate_str u = Some (RewriteTools.ri_rewritten_url im)
        | inl _ => False
        end).
Proof.
  intros Hout. destruct (execute_images_originals _ _ _ _ Hout) as (Hmap & Htot & Hs & _).
  split; [exact Hs|]. split; [exact Hmap|]. split; [exact Htot|]. split.
  - apply (execute_images_fallback _ _ _ _ Hout).
  - intros data urls n im Hk -> Hurls Hn.
    revert Hout. unfold RewriteTools.execute_images. rewrite Hk, Hurls. cbn [negb].
    destruct (RewriteTools.rewrite_each validate_str urls 0 (RewriteTools.images input))
      as [e|l] eqn:Hl; [discriminate|].
    intros H. injection H as <-. cbn in Hn.
    destruct (rewrite_each_spec _ _ _ _ Hl) as [_ Hnth]. exact (Hnth n im Hn).
Qed.

Lemma rewrite_images_length key activity_input post out :
  RewriteTools.rewrite_images validate_str key activity_input post = inr out ->
  ri_original_urls out = ri_image_urls activity_input
  /\ length (rewritten_urls out) = length (ri_image_urls activity_input)
  /\ (1 <= length (ri_image_urls activity_input) <= 50)%nat
  /\ (truthy_ostr key = false \/ no_response post = true ->
      rewritten_urls out = ri_image_urls activity_input).
Proof.
  unfold RewriteTools.rewrite_images.
  destruct (Nat.ltb_spec (length (ri_image_urls activity_input)) 1) as [|H1];
    [discriminate|].
  destruct (Nat.ltb_spec 50 (length (ri_image_urls activity_input))) as [|H50];
    [discriminate|]. cbn [orb].
  destruct (RewriteTools.execute_images validate_str key _ post) as [e|result] eqn:Hr;
    [discriminate|].
  intros H. injection H as <-. cbn.
  destruct (execute_images_originals _ _ _ _ Hr) as (Hmap & _).
  cbn in Hmap. split; [reflexivity|]. split; [|split; [lia|]].
  - rewrite <- Hmap. rewrite !length_map. reflexivity.
  - apply (execute_images_fallback _ _ _ _ Hr).
Qed.

Lemma image_eq (a b : Slideshows.PinterestImage) :
  without_url a = without_url b -> Slideshows.image_url a = Slideshows.image_url b ->
  a = b.
Proof.
  destruct a, b. unfold without_url. cbn. intros H1 H2. inversion H1. subst. reflexivity.
Qed.

Lemma with_rewritten_urls_spec (images : list Slideshows.PinterestImage) :
  forall urls,
    length urls = length images ->
    exists rewritten,
      Slideshows.with_rewritten_urls images urls = inr rewritten
      /\ map without_url rewritten = map without_url images
      /\ map Slideshows.image_url rewritten = urls.
Proof.
  induction images as [|img rest IH]; intros [|u urls] Hlen; try discriminate.
  - exists []. repeat split.
  - destruct (IH urls) as (others & Ho & Hw & Hu); [now injection Hlen|].
    cbn [Slideshows.with_rewritten_urls]. rewrite Ho. eexists. split; [reflexivity|].
    cbn [map]. rewrite Hw, Hu. split; reflexivity.
Qed.

Variable rt : runtime.
Variable key : option string.
Variable post : PinterestTool.post_outcome.
Hypothesis Hrt : runs_rewrite_images rt validate_str key post.

(** X14. When the runtime runs the rewrite activity of the repository,
    the workflow helpers never fail on the number of urls. The helper
    for a list returns as many urls as it was given, and the urls it
    was given when the API key is missing or the request got no usable
    response. The helper for one image returns a url or raises the
    exception of the activity, never an IndexError of its own. The
    rewrite step of the slideshow workflow returns the selected images
    with their urls replaced, or raises the exception of the activity. *)
Theorem X14_rewrite_keeps_count (input : WorkflowInput) (w : world) :
  (forall urls l,
     fst (maybe_rewrite_images rt urls input w) = inr l ->
     length l = length urls
     /\ (truthy_ostr key = false \/ no_response post = true -> l = urls))
  /\ (forall url,
        match fst (maybe_rewrite_image rt url input w) with
        | inr _ => True
        | inl e =>
            RewriteTools.rewrite_images validate_str key
              (mkRewriteImagesInput [url] (rewrite_device input)) post = inl e
        end)
  /\ (forall images,
        match fst (Slideshows.rewrite_selected rt images input w) with
        | inr rewritten =>
            map without_url rewritten = map without_url images
            /\ (truthy_ostr key = false \/ no_response post = true -> rewritten = images)
        | inl e =>
            RewriteTools.rewrite_images validate_str key
              (mkRewriteImagesInput (map Slideshows.image_url images) (rewrite_device input))
              post = inl e
        end).
Proof.
  assert (Hlist : forall urls,
            match fst (maybe_rewrite_images rt urls input w) with
            | inr l => length l = length urls
                       /\ (truthy_ostr key = false \/ no_response post = true -> l = urls)
            | inl e => RewriteTools.rewrite_images validate_str key
                         (mkRewriteImagesInput urls (rewrite_device input)) post = inl e
            end).
  { intros urls. unfold maybe_rewrite_images.
    destruct (negb (rewrite_enabled input) || match urls with [] => true | _ => false end).
    - cbn. split; [reflexivity | intros _; reflexivity].
    - unfold bind, run_activity. rewrite Hrt.
      destruct (RewriteTools.rewrite_images validate_str key _ post) as [e|out] eqn:Hout;
        cbn [fst ret].
      + reflexivity.
      + destruct (rewrite_images_length _ _ _ _ Hout) as (_ & Hlen & _ & Hsame).
        split; assumption. }
  split; [|split].
  - intros urls l Hl. specialize (Hlist urls). rewrite Hl in Hlist. exact Hlist.
  - intros url. unfold maybe_rewrite_image.
    destruct (negb (rewrite_enabled input)) eqn:Hen; [exact I|].
    unfold bind. specialize (Hlist [url]).
    destruct (maybe_rewrite_images rt [url] input w) as [[e|l] w']; cbn [fst] in *.
    + exact Hlist.
    + destruct Hlist as [Hlen _]. destruct l as [|u l]; [discriminate | exact I].
  - intros images. unfold Slideshows.rewrite_selected. unfold bind.
    specialize (Hlist (map Slideshows.image_url images)).
    destruct (maybe_rewrite_images rt (map Slideshows.image_url images) input w)
      as [[e|l] w']; cbn [fst] in *.
    + exact Hlist.
    + destruct Hlist as [Hlen Hsame]. rewrite length_map in Hlen.
      destruct (with_rewritten_urls_spec images l Hlen) as (rewritten & Hr & Hw & Hu).
      rewrite Hr. cbn [fst ret]. split; [exact Hw|].
      intros Hfail. specialize (Hsame Hfail). subst l.
      clear - Hw Hu. revert rewritten Hw Hu.
      induction images as [|img rest IH]; intros [|r rewritten] Hw Hu; try discriminate.
      * reflexivity.
      * cbn [map] in Hw, Hu.
        f_equal; [apply image_eq; congruence | apply IH; congruence].
Qed.

End Rewrite.

Lemma X12_video_rewrite_falls_back_witness :
  RewriteTools.execute_video Sample.strict_str None Cases.a_video
    PinterestTool.TimeoutException
  = inr (RewriteTools.video_original Cases.a_video).
Proof.
  apply (proj1 (proj2
           (X12_video_rewrite_falls_back Sample.strict_str None Cases.a_video
              PinterestTool.TimeoutException))).
  left. reflexivity.
Defined.

Lemma X13_image_rewrite_positions_witness :
  map RewriteTools.ri_original_url (RewriteTools.io_images Cases.one_rewritten)
  = RewriteTools.images Cases.two_images.
Proof.
  apply (proj1 (proj2
           (X13_image_rewrite_positions Sample.strict_str (Some "key"%string)
              Cases.two_images (PinterestTool.Json Cases.one_url)
              Cases.one_rewritten eq_refl))).
Defined.

Lemma X14_rewrite_keeps_count_witness :
  match fst (Slideshows.rewrite_selected Cases.rewriter
               [Cases.sunset_image; Cases.forest_image] Cases.rewriting_input new_world)
  with
  | inr rewritten =>
      map Extra.without_url rewritten
      = map Extra.without_url [Cases.sunset_image; Cases.forest_image]
      /\ (truthy_ostr (Some "key"%string) = false
          \/ Extra.no_response PinterestTool.TimeoutException = true ->
          rewritten = [Cases.sunset_image; Cases.forest_image])
  | inl e =>
      RewriteTools.rewrite_images Sample.strict_str (Some "key"%string)
        (mkRewriteImagesInput
           (map Slideshows.image_url [Cases.sunset_image; Cases.forest_image])
           (rewrite_device Cases.rewriting_input))
        PinterestTool.TimeoutException = inl e
  end.
Proof.
  apply (proj2 (proj2
           (X14_rewrite_keeps_count Sample.strict_str Cases.rewriter
              (Some "key"%string) PinterestTool.TimeoutException
              (fun _ _ => eq_refl) Cases.rewriting_input new_world))).
Defined.

(** ** More on the completion client *)

Section MoreFallback.
Import Extra LiteLLM.

Variable json_loads : string -> option value.
Variable llm : provider.
Variable self : LiteLLMClient.

(** X15. When a failure of the primary model is taken to the fallback
    model. The decision is [true] exactly when a configured exception
    name occurs in the name of the exception class, or, lower-cased, in
    the lower-cased message, or one of the eight transient indicators
    occurs in the lower-cased message. So the message is matched without
    regard to letter case, the class name with regard to it, and two
    exceptions of the same class whose messages differ in letter case
    only are treated alike. *)
Theorem X15_should_fallback_reasons (error : exception) :
  (_should_fallback self error = true
   <-> (exists name, In name (retry_exceptions (_fallback_config self))
                     /\ ((exists a b, type_name error = (a ++ name ++ b)%string)
                         \/ (exists a b, lower (str_exc error)
                                         = (a ++ lower name ++ b)%string)))
       \/ (exists indicator a b,
             In indicator transient_indicators
             /\ lower (str_exc error) = (a ++ indicator ++ b)%string))
  /\ (forall indicator pre part post,
        In indicator transient_indicators -> lower part = indicator ->
        str_exc error = (pre ++ part ++ post)%string ->
        _should_fallback self error = true)
  /\ (forall other,
        type_name other = type_name error ->
        lower (str_exc other) = lower (str_exc error) ->
        _should_fallback self other = _should_fallback self error).
Proof.
  assert (Hiff : _should_fallback self error = true
   <-> (exists name, In name (retry_exceptions (_fallback_config self))
                     /\ ((exists a b, type_name error = (a ++ name ++ b)%string)
                         \/ (exists a b, lower (str_exc error)
                                         = (a ++ lower name ++ b)%string)))
       \/ (exists indicator a b,
             In indicator transient_indicators
             /\ lower (str_exc error) = (a ++ indicator ++ b)%string)).
  { unfold _should_fallback.
    destruct (existsb _ (retry_exceptions (_fallback_config self))) eqn:Hname.
    - split; [intros _ | reflexivity]. left.
      apply existsb_exists in Hname. destruct Hname as (name & Hin & Hm).
      exists name. split; [exact Hin|]. apply orb_true_iff in Hm.
      destruct Hm as [Hm|Hm]; apply contains_spec in Hm; [left | right]; exact Hm.
    - rewrite existsb_exists. split.
      + intros (ind & Hin & Hc). right. apply contains_spec in Hc.
        destruct Hc as (a & b & Hc). exists ind, a, b. split; assumption.
      + intros [(name & Hin & Hm) | (ind & a & b & Hin & Hc)].
        * exfalso. assert (Ht : existsb
              (fun exc_name => contains exc_name (type_name error)
                 || contains (lower exc_name) (lower (str_exc error)))
              (retry_exceptions (_fallback_config self)) = true); [|congruence].
          apply existsb_exists. exists name. split; [exact Hin|]. apply orb_true_iff.
          destruct Hm as [Hm|Hm]; [left | right]; apply contains_spec; exact Hm.
        * exists ind. split; [exact Hin|]. apply contains_spec. exists a, b. exact Hc. }
  split; [exact Hiff|]. split.
  - intros ind pre part post Hin Hl Hs. apply Hiff. right.
    exists ind, (lower pre), (lower post). split; [exact Hin|].
    rewrite Hs, !lower_app, Hl. reflexivity.
  - intros other Ht Hs. unfold _should_fallback. rewrite Ht, Hs. reflexivity.
Qed.

Variable msgs : option (list Message).
Variable request : option CompletionRequest.

(** X16. A completion call without messages and without a request
    raises a ValueError and calls no provider. Otherwise it works on the
    request given, or on the default request for the messages, and
    calls the provider once, with the primary model, or, only when
    fallback is enabled, a second time with the fallback model; the
    arguments of the two calls differ in the model only. A response
    names the model that produced it: the fallback model when it is
    marked as a fallback, the primary model otherwise. *)
Theorem X16_complete_provenance (calls : list acompletion_kwargs) :
  match effective_request msgs request with
  | None =>
      complete json_loads llm self msgs request calls
      = (inl (ValueError "Either messages or request must be provided"), calls)
  | Some r =>
      let primary := ostr_or (model r) (_primary_model self) in
      let backup := fallback_model (_fallback_config self) in
      let result := complete json_loads llm self msgs request calls in
      (snd result = calls ++ [build_kwargs self r primary]
       \/ (enabled (_fallback_config self) = true
           /\ snd result
              = calls ++ [build_kwargs self r primary; build_kwargs self r backup]))
      /\ (forall resp, fst result = inr resp ->
            cr_model resp = if fallback_used resp then backup else primary)
      /\ build_kwargs self r backup
         = mkKwargs backup (kw_messages (build_kwargs self r primary))
             (kw_temperature (build_kwargs self r primary))
             (kw_max_tokens (build_kwargs self r primary))
             (kw_timeout (build_kwargs self r primary))
             (kw_num_retries (build_kwargs self r primary))
             (kw_response_format_json (build_kwargs self r primary))
  end.
Proof.
  destruct (effective_request msgs request) as [r|] eqn:Hr.
  - assert (Hc : complete json_loads llm self msgs request calls
                 = try_except
                     (_complete_with_model json_loads llm self r
                        (ostr_or (model r) (_primary_model self)) false)
                     (fun primary_error =>
                        if negb (enabled (_fallback_config self)) then raise primary_error
                        else if negb (_should_fallback self primary_error)
                             then raise primary_error
                        else
                          try_except
                            (_complete_with_model json_loads llm self r
                               (fallback_model (_fallback_config self)) true)
                            (fun fallback_error =>
                               raise (ExcFrom "RuntimeError"
                                        (both_failed_message
                                           (ostr_or (model r) (_primary_model self))
                                           (fallback_model (_fallback_config self))
                                           primary_error fallback_error)
                                        false fallback_error))) calls).
    { unfold complete, effective_request in *.
      destruct request as [r0|]; [|destruct msgs as [m|]]; try discriminate;
        injection Hr as <-; reflexivity. }
    cbv zeta. rewrite Hc. clear Hc. unfold try_except.
    pose proof (attempt_calls json_loads llm self r
                  (ostr_or (model r) (_primary_model self)) false calls) as H1.
    pose proof (attempt_flag json_loads llm self r
                  (ostr_or (model r) (_primary_model self)) false calls) as F1.
    destruct (_complete_with_model json_loads llm self r
                (ostr_or (model r) (_primary_model self)) false calls)
      as [[e1|resp1] calls1]; cbn [fst snd] in *.
    + destruct (enabled (_fallback_config self)) eqn:Hen; cbn [negb].
      * destruct (_should_fallback self e1); cbn [negb].
        -- pose proof (attempt_calls json_loads llm self r
                         (fallback_model (_fallback_config self)) true calls1) as H2.
           pose proof (attempt_flag json_loads llm self r
                         (fallback_model (_fallback_config self)) true calls1) as F2.
           destruct (_complete_with_model json_loads llm self r
                       (fallback_model (_fallback_config self)) true calls1)
             as [[e2|resp2] calls2]; cbn [fst snd raise] in *.
           ++ split; [|split; [discriminate | reflexivity]].
              right. split; [reflexivity|]. rewrite H2, H1, <- app_assoc. reflexivity.
           ++ split; [|split; [|reflexivity]].
              ** right. split; [reflexivity|]. rewrite H2, H1, <- app_assoc. reflexivity.
              ** intros resp E. injection E as <-. destruct (F2 _ eq_refl) as [-> ->].
                 reflexivity.
        -- cbn [raise fst snd]. split; [left; exact H1|]. split; [discriminate|reflexivity].
      * cbn [raise fst snd]. split; [left; exact H1|]. split; [discriminate|reflexivity].
    + split; [left; exact H1|]. split; [|reflexivity].
      intros resp E. injection E as <-. destruct (F1 _ eq_refl) as [-> ->]. reflexivity.
  - unfold complete, effective_request in *.
    destruct request as [r0|]; [|destruct msgs as [m|]]; try discriminate. reflexivity.
Qed.

End MoreFallback.

Lemma X15_should_fallback_reasons_witness :
  LiteLLM._should_fallback Sample.client (Exc "APIError" "Gateway TIMEOUT after 30s" false)
  = true.
Proof.
  apply (proj1 (proj2 (X15_should_fallback_reasons Sample.client
                         (Exc "APIError" "Gateway TIMEOUT after 30s" false)))
               "timeout"%string "Gateway "%string "TIMEOUT"%string " after 30s"%string).
  - right. left. reflexivity.
  - reflexivity.
  - reflexivity.
Defined.

Lemma X16_complete_provenance_witness :
  cr_model (mkCompletionResponse "hello" "openai/gpt-5-nano" (mkUsageInfo 0 0 0) true None)
  = "openai/gpt-5-nano"%string.
Proof.
  apply (proj1 (proj2
           (X16_complete_provenance Sample.no_json Sample.rate_limited Sample.client
              None (Some Sample.hi_request) []))
           (mkCompletionResponse "hello" "openai/gpt-5-nano" (mkUsageInfo 0 0 0) true None)).
  reflexivity.
Defined.

(** ** The file extension of an upload *)

Section Extensions.
Import Storage.

Lemma split_app_sep (sep : ascii) (a b : string) :
  ~ In sep (list_ascii_of_string a) ->
  split sep (a ++ String sep b) = a :: split sep b.
Proof.
  induction a as [|c a IH]; intros Hn; cbn [append split].
  - rewrite Ascii.eqb_refl. reflexivity.
  - cbn [list_ascii_of_string In] in Hn.
    destruct (Ascii.eqb_spec c sep) as [E|_]; [exfalso; apply Hn; left; exact E|].
    rewrite IH; [reflexivity | intros H; apply Hn; right; exact H].
Qed.

Lemma split_no_sep (sep : ascii) (a : string) :
  ~ In sep (list_ascii_of_string a) -> split sep a = [a].
Proof.
  induction a as [|c a IH]; intros Hn; cbn [split]; [reflexivity|].
  cbn [list_ascii_of_string In] in Hn.
  destruct (Ascii.eqb_spec c sep) as [E|_]; [exfalso; apply Hn; left; exact E|].
  rewrite IH; [reflexivity | intros H; apply Hn; right; exact H].
Qed.

Lemma split_ends (sep : ascii) (a b : string) :
  ~ In sep (list_ascii_of_string b) ->
  exists first init, split sep (a ++ String sep b) = (first :: init) ++ [b].
Proof.
  intros Hb. induction a as [|c a (first & init & IH)]; cbn [append split].
  - rewrite Ascii.eqb_refl, (split_no_sep _ _ Hb). exists EmptyString, []. reflexivity.
  - rewrite IH. destruct (Ascii.eqb c sep).
    + exists EmptyString, (first :: init). reflexivity.
    + exists (String c first), init. reflexivity.
Qed.

Lemma lower_ascii_semicolon (c : ascii) :
  Ascii.eqb (lower_ascii c) ";" = Ascii.eqb c ";".
Proof. destruct c as [[] [] [] [] [] [] [] []]; reflexivity. Qed.

Lemma is_space_lower (c : ascii) : is_space (lower_ascii c) = is_space c.
Proof. destruct c as [[] [] [] [] [] [] [] []]; reflexivity. Qed.

Lemma lower_ascii_idem (c : ascii) : lower_ascii (lower_ascii c) = lower_ascii c.
Proof. destruct c as [[] [] [] [] [] [] [] []]; reflexivity. Qed.

Lemma lower_idem (s : string) : lower (lower s) = lower s.
Proof.
  induction s as [|c s IH]; cbn [lower]; [reflexivity|].
  rewrite lower_ascii_idem, IH. reflexivity.
Qed.

Lemma split_lower (s : string) : split ";" (lower s) = map lower (split ";" s).
Proof.
  induction s as [|c s IH]; cbn [lower split]; [reflexivity|].
  rewrite lower_ascii_semicolon, IH.
  destruct (Ascii.eqb c ";"); [reflexivity|].
  destruct (split ";" s); reflexivity.
Qed.

Lemma lstrip_lower (s : string) : lstrip (lower s) = lower (lstrip s).
Proof.
  induction s as [|c s IH]; cbn [lower lstrip]; [reflexivity|].
  rewrite is_space_lower. destruct (is_space c); [exact IH | reflexivity].
Qed.

Lemma rstrip_lower (s : string) : rstrip (lower s) = lower (rstrip s).
Proof.
  induction s as [|c s IH]; cbn [lower rstrip]; [reflexivity|].
  rewrite IH, is_space_lower.
  destruct (rstrip s); cbn [lower]; [destruct (is_space c)|]; reflexivity.
Qed.

Lemma assoc_value {V} (k : string) (v : V) (d : list (string * V)) :
  assoc k d = Some v -> In v (map snd d).
Proof.
  induction d as [|[k' v'] d IH]; cbn [assoc map snd]; [discriminate|].
  destruct (String.eqb k' k); [intros H; injection H as ->; left; reflexivity|].
  intros H. right. apply IH, H.
Qed.

Lemma content_type_codomain (content_type : string) :
  In (get_extension_from_content_type content_type) (map snd mapping ++ ["bin"%string]).
Proof.
  unfold get_extension_from_content_type. cbv zeta.
  destruct (assoc _ mapping) as [ext|] eqn:Ha.
  - apply in_or_app. left. eapply assoc_value. exact Ha.
  - apply in_or_app. right. left. reflexivity.
Qed.

(** X17. The extension for a content type. It is one of the ten
    extensions of the table or "bin", and every content type of the
    table gets its extension. Parameters after a semicolon are ignored,
    and so is the letter case of the content type. *)
Theorem X17_content_type_extension (content_type : string) :
  In (get_extension_from_content_type content_type) (map snd mapping ++ ["bin"%string])
  /\ (forall base ext, In (base, ext) mapping ->
        get_extension_from_content_type base = ext)
  /\ (forall parameters,
        ~ In ";"%char (list_ascii_of_string content_type) ->
        get_extension_from_content_type (content_type ++ String ";" parameters)
        = get_extension_from_content_type content_type)
  /\ get_extension_from_content_type (lower content_type)
     = get_extension_from_content_type content_type.
Proof.
  split; [|split; [|split]].
  - apply content_type_codomain.
  - intros base ext Hin. cbn [mapping In] in Hin.
    repeat (destruct Hin as [E|Hin]; [injection E as <- <-; reflexivity|]).
    destruct Hin.
  - intros parameters Hn. unfold get_extension_from_content_type. cbv zeta.
    rewrite (split_app_sep _ _ _ Hn), (split_no_sep _ _ Hn). reflexivity.
  - unfold get_extension_from_content_type. cbv zeta.
    rewrite split_lower.
    replace (hd EmptyString (map lower (split ";" content_type)))
      with (lower (hd EmptyString (split ";" content_type)))
      by (destruct (split ";" content_type); reflexivity).
    unfold strip. rewrite lstrip_lower, rstrip_lower, lower_idem. reflexivity.
Qed.

Lemma url_extension_known (path ext : string) :
  get_extension_from_path path = Some ext -> In ext url_extensions.
Proof.
  unfold get_extension_from_path. destruct (contains "." path); [|discriminate].
  destruct (existsb _ url_extensions) eqn:He; [|discriminate].
  intros H. injection H as <-. apply existsb_exists in He.
  destruct He as (x & Hx & E). apply String.eqb_eq in E. rewrite E. exact Hx.
Qed.

(** X18. The extension under which an upload is stored, from the
    content type of the download and the path of the url. It is never
    empty: it is an extension of the content type table, an extension
    the url may carry, or "bin". A content type of the table decides the
    extension whatever the url says. Under an empty or unknown content
    type, a path that ends in a dot and one of the eleven url extensions,
    in any letter case, gives that extension in lower case. *)
Theorem X18_upload_extension (content_type path : string) :
  let extension := choose_extension content_type (get_extension_from_path path) in
  In extension (map snd mapping ++ url_extensions ++ ["bin"%string])
  /\ extension <> EmptyString
  /\ (truthy_str content_type = true ->
      get_extension_from_content_type content_type <> "bin"%string ->
      extension = get_extension_from_content_type content_type)
  /\ (forall stem ext,
        truthy_str content_type = false
        \/ get_extension_from_content_type content_type = "bin"%string ->
        path = (stem ++ String "." ext)%string ->
        ~ In "."%char (list_ascii_of_string ext) ->
        In (lower ext) url_extensions ->
        extension = lower ext).
Proof.
  intros extension.
  assert (Hpath : forall stem ext,
             path = (stem ++ String "." ext)%string ->
             ~ In "."%char (list_ascii_of_string ext) ->
             In (lower ext) url_extensions ->
             get_extension_from_path path = Some (lower ext)).
  { intros stem ext -> Hn Hin. unfold get_extension_from_path.
    assert (Hc : contains "." (stem ++ String "." ext) = true).
    { apply contains_spec. exists stem, ext. reflexivity. }
    rewrite Hc. destruct (split_ends "." stem ext Hn) as (first & init & ->).
    rewrite last_last.
    assert (He : existsb (String.eqb (lower ext)) url_extensions = true).
    { apply existsb_exists. exists (lower ext). split; [exact Hin | apply String.eqb_refl]. }
    cbv zeta. rewrite He. reflexivity. }
  assert (Hin : In extension (map snd mapping ++ url_extensions ++ ["bin"%string])).
  { subst extension. unfold choose_extension.
    pose proof (content_type_codomain content_type) as Hct.
    destruct (get_extension_from_path path) as [u|] eqn:Hu.
    - pose proof (url_extension_known _ _ Hu) as Hk.
      assert (Hor : In (ostr_or (Some u) "bin") (map snd mapping ++ url_extensions ++ ["bin"%string])).
      { unfold ostr_or. destruct (truthy_str u).
        - apply in_or_app. right. apply in_or_app. left. exact Hk.
        - apply in_or_app. right. apply in_or_app. right. left. reflexivity. }
      destruct (truthy_str content_type); cbv zeta.
      + destruct (String.eqb _ "bin" && truthy_ostr (Some u)); [exact Hor|].
        apply in_app_or in Hct. destruct Hct as [H|H].
        * apply in_or_app. left. exact H.
        * apply in_or_app. right. apply in_or_app. right. exact H.
      + destruct (truthy_ostr (Some u)); [exact Hor|].
        apply in_or_app. right. apply in_or_app. right. left. reflexivity.
    - destruct (truthy_str content_type); cbv zeta; cbn [truthy_ostr andb].
      + rewrite andb_false_r.
        apply in_app_or in Hct. destruct Hct as [H|H].
        * apply in_or_app. left. exact H.
        * apply in_or_app. right. apply in_or_app. right. exact H.
      + apply in_or_app. right. apply in_or_app. right. left. reflexivity. }
  split; [exact Hin|]. split; [|split].
  - intros E. rewrite E in Hin. cbn in Hin.
    repeat (destruct Hin as [F|Hin]; [discriminate|]). destruct Hin.
  - intros Ht Hk. subst extension. unfold choose_extension. rewrite Ht. cbv zeta.
    destruct (String.eqb_spec (get_extension_from_content_type content_type) "bin");
      [congruence | reflexivity].
  - intros stem ext Hct Hp Hn Hk. subst extension.
    rewrite (Hpath stem ext Hp Hn Hk). unfold choose_extension.
    assert (Ht : truthy_ostr (Some (lower ext)) = true).
    { cbn [truthy_ostr]. destruct (lower ext) eqn:E; [|reflexivity].
      cbn in Hk.
      repeat (destruct Hk as [F|Hk]; [discriminate|]). destruct Hk. }
    assert (Ho : ostr_or (Some (lower ext)) "bin" = lower ext).
    { unfold ostr_or. cbn [truthy_ostr] in Ht. rewrite Ht. reflexivity. }
    destruct (truthy_str content_type); cbv zeta.
    + destruct Hct as [F|Hb]; [discriminate|]. rewrite Hb, Ht. cbn. exact Ho.
    + rewrite Ht. exact Ho.
Qed.

End Extensions.

Lemma X17_content_type_extension_witness :
  Storage.get_extension_from_content_type "video/mp4; charset=utf-8" = "mp4"%string.
Proof.
  apply (proj1 (proj2 (proj2 (X17_content_type_extension "video/mp4")))
               " charset=utf-8"%string).
  cbn. intros H. repeat (destruct H as [H|H]; [discriminate|]). exact H.
Defined.

Lemma X18_upload_extension_witness :
  Storage.choose_extension "image/png"
    (Storage.get_extension_from_path "/out/face.JPG")
  = "png"%string.
Proof.
  apply (proj1 (proj2 (proj2 (X18_upload_extension "image/png" "/out/face.JPG"))));
    [reflexivity | discriminate].
Defined.

(** ** Queries and scraping, the remaining cases *)

Section Scrape.
Import Extra Slideshows Spec.

Variable rt : runtime.

Lemma no_failure_lines (branches : list (string * (exception + ExecuteToolOutput))) :
  Forall (fun r => branch_failure r = None) (map snd branches) ->
  failure_lines branches = [].
Proof.
  unfold failure_lines. induction branches as [|[q r] rest IH]; intros H; cbn.
  - reflexivity.
  - inversion H as [|? ? Hr Hrest]; subst. cbn [snd] in Hr. rewrite Hr. cbn.
    apply IH, Hrest.
Qed.

(** X19. What scraping returns, for outputs that are empty or hold a
    list under "pins". With at least one pin found, the pins are
    returned. With no pin found and at least one failed branch, the call
    raises the non-retryable error that lists the failures, also when
    other branches succeeded without finding a pin. With no pin found
    and no failed branch, among them the case of no query at all, the
    empty list is returned and nothing is raised. *)
Theorem X19_scrape_outcome (queries : list string) (w : world) :
  let results := outcomes rt queries (executed w) in
  Forall pins_are_list results ->
  fst (_scrape_pinterest rt queries w)
  = match flat_map branch_pins results, failure_lines (combine queries results) with
    | [], er :: ers => inl (ApplicationError (all_failed_message (er :: ers)) true)
    | pins, _ => inr pins
    end
  /\ (Forall (fun r => branch_failure r = None) results ->
      fst (_scrape_pinterest rt queries w) = inr (flat_map branch_pins results)).
Proof.
  intros results Hwf.
  assert (Hlen : length results = length queries) by apply outcomes_length.
  assert (Hsnd : map snd (combine queries results) = results)
    by (apply map_snd_combine; exact Hlen).
  assert (Hfst : fst (_scrape_pinterest rt queries w)
    = match flat_map branch_pins results, failure_lines (combine queries results) with
      | [], er :: ers => inl (ApplicationError (all_failed_message (er :: ers)) true)
      | pins, _ => inr pins
      end).
  { unfold _scrape_pinterest, bind. rewrite gather_scrape. fold results.
    rewrite collect_spec by (rewrite Hsnd; exact Hwf). rewrite Hsnd. cbn [app].
    destruct (flat_map branch_pins results) as [|p ps];
      destruct (failure_lines (combine queries results)); reflexivity. }
  split; [exact Hfst|].
  intros Hok. rewrite Hfst, no_failure_lines by (rewrite Hsnd; exact Hok).
  destruct (flat_map branch_pins results); reflexivity.
Qed.

(** X20. Generating the queries executes one activity, the JSON
    completion of the fixed request for the prompt with a timeout of one
    minute and the fast retry policy, and leaves the context alone. If
    the activity raises, its exception is raised. If it returns a
    response without parsed JSON, without the key "queries", or with an
    empty list under it, the prompt itself is the only query. If it
    returns a non-empty list, its first five elements are the queries. *)
Theorem X20_generate_queries (prompt : string) (w : world) :
  let call := generate_json (queries_request prompt) in
  snd (_generate_queries rt prompt w)
  = mkWorld (ctx w) (executed w ++ [mkCall call 1 FAST_RETRY None])
  /\ match rt (executed w) call with
     | inl e => fst (_generate_queries rt prompt w) = inl e
     | inr response =>
         (parsed response = None ->
          fst (_generate_queries rt prompt w) = inr (VList [VStr prompt]))
         /\ (forall d, parsed response = Some (VDict d) ->
               assoc "queries" d = None \/ assoc "queries" d = Some (VList []) ->
               fst (_generate_queries rt prompt w) = inr (VList [VStr prompt]))
         /\ (forall d q qs, parsed response = Some (VDict d) ->
               assoc "queries" d = Some (VList (q :: qs)) ->
               fst (_generate_queries rt prompt w)
               = inr (VList (firstn _NUM_QUERIES (q :: qs))))
     end.
Proof.
  cbv zeta. unfold _generate_queries, bind, run_activity.
  destruct (rt (executed w) (generate_json (queries_request prompt))) as [e|response].
  - split; reflexivity.
  - destruct (parse_queries_spec prompt response) as (H1 & H2 & H3 & H4).
    split; [destruct (parse_queries prompt response); reflexivity|].
    split; [|split].
    + intros Hp. rewrite (H1 Hp). reflexivity.
    + intros d Hp [Hq|Hq]; [rewrite (H2 d Hp Hq) | rewrite (H3 d Hp Hq)]; reflexivity.
    + intros d q qs Hp Hq. destruct (H4 d q qs Hp Hq) as [-> _]. reflexivity.
Qed.

End Scrape.

Lemma X19_scrape_outcome_witness :
  fst (Slideshows._scrape_pinterest (Sample.scraper (fun q => inr (Sample.found q [])))
         ["cats"; "dogs"] new_world)
  = inr [].
Proof.
  apply (proj2 (X19_scrape_outcome (Sample.scraper (fun q => inr (Sample.found q [])))
                  ["cats"; "dogs"] new_world
                  ltac:(repeat constructor; intros _ _; eexists; reflexivity))).
  repeat constructor.
Defined.

Lemma X20_generate_queries_witness :
  fst (Slideshows._generate_queries (Sample.completes_with Cases.three_queries)
         "sunsets" new_world)
  = inr (VList [VStr "moody sunset beach"; VStr "pastel sunset sky";
                VStr "golden hour city"]).
Proof.
  apply (proj2 (proj2 (proj2
           (X20_generate_queries (Sample.completes_with Cases.three_queries)
              "sunsets" new_world)))
           [("queries"%string,
             VList [VStr "moody sunset beach"; VStr "pastel sunset sky";
                    VStr "golden hour city"])]
           (VStr "moody sunset beach")
           [VStr "pastel sunset sky"; VStr "golden hour city"]
           eq_refl eq_refl).
Defined.

(** ** The activities of the sequential pipeline *)

Section Trace.
Import Extra Ruby.

Variable rt : runtime.

Lemma emits_ret {A} (a : A) : emits [] (ret a : M A).
Proof. intros w. cbn. rewrite app_nil_r. reflexivity. Qed.

Lemma emits_raise {A} (expected : list string) (e : exception) :
  emits expected (raise e : M A).
Proof. intros w. cbn. exists 0%nat. cbn. rewrite app_nil_r. reflexivity. Qed.

Lemma emits_modify (f : WorkflowContext -> WorkflowContext) : emits [] (modify f).
Proof. intros w. cbn. rewrite app_nil_r. reflexivity. Qed.

Lemma emits_run_activity (a : activity) t h r :
  emits [activity_name a] (run_activity rt a t h r).
Proof.
  intros w. unfold run_activity.
  destruct (rt (executed w) a); cbn [executed];
    [exists 1%nat|]; unfold names; rewrite map_app; reflexivity.
Qed.

Lemma emits_bind {A B} (l1 l2 : list string) (m : M A) (k : A -> M B) :
  emits l1 m -> (forall a, emits l2 (k a)) -> emits (l1 ++ l2) (bind m k).
Proof.
  intros Hm Hk w. unfold bind. specialize (Hm w).
  destruct (m w) as [[e|a] w1].
  - destruct Hm as [n Hn]. exists (Nat.min n (length l1)).
    rewrite Hn. f_equal. rewrite firstn_app.
    replace (Nat.min n (length l1) - length l1)%nat with 0%nat by lia.
    cbn [firstn]. rewrite app_nil_r.
    destruct (Nat.le_gt_cases n (length l1)) as [Hle|Hgt].
    + rewrite Nat.min_l by exact Hle. reflexivity.
    + rewrite Nat.min_r by lia. rewrite firstn_all, firstn_all2 by lia. reflexivity.
  - specialize (Hk a w1). destruct (k a w1) as [[e|b] w2].
    + destruct Hk as [n Hn]. exists (length l1 + n)%nat.
      rewrite Hn, Hm, firstn_app_2, app_assoc. reflexivity.
    + rewrite Hk, Hm, app_assoc. reflexivity.
Qed.

Lemma emits_step {A} (expected : list string) (sid name : string) (pct : Z)
      (msg : string) (body : M A) :
  emits expected body -> emits expected (step sid name pct msg body).
Proof.
  intros Hbody w. unfold step, bind, try_except. cbn [step_enter modify].
  specialize (Hbody (mkWorld
    (set_current_step
       (Some (mkStepProgress sid name RUNNING pct
                (Some (if truthy_str msg then msg else (name ++ "...")%string))))
       (ctx w)) (executed w))).
  cbn [executed] in Hbody.
  match goal with
  | |- context [body ?w0] => destruct (body w0) as [[e|a] w1]
  end.
  - unfold step_fail, raise. cbv beta.
    destruct (_current_step (ctx w1)); exact Hbody.
  - unfold step_complete, step_fail, ret, raise. cbv beta.
    destruct (_current_step (ctx w1)) eqn:Hc; cbn [executed]; [exact Hbody|].
    rewrite Hc. exists (length expected). rewrite firstn_all. exact Hbody.
Qed.

Lemma emits_start cfg input : emits [] (start cfg input).
Proof.
  unfold start.
  destruct (WORKFLOW_SECRET_ENABLED cfg);
    [destruct (negb (truthy_ostr (WORKFLOW_SECRET_KEY cfg)));
     [|destruct (negb (ostr_eqb (secret_key input) (WORKFLOW_SECRET_KEY cfg)))]|];
    try apply emits_raise; apply emits_modify.
Qed.

Lemma emits_lift {A} (x : exception + A) : emits [] (lift x).
Proof. destruct x; [apply emits_raise | apply emits_ret]. Qed.

Lemma emits_slowmo input url :
  emits (if slowed_video input then ["slow_down_video"] else []) (slowmo_step rt input url).
Proof.
  unfold slowmo_step. destruct (slowed_video input); [|apply emits_ret].
  apply emits_step.
  apply (emits_bind ["slow_down_video"] []);
    [apply emits_run_activity | intros ?; apply emits_ret].
Qed.

Lemma emits_text input url :
  emits (if truthy_ostr (text_overlay input) then ["add_text_overlay"] else [])
        (text_step rt input url).
Proof.
  unfold text_step, truthy_ostr.
  destruct (text_overlay input) as [text|]; [destruct (truthy_str text)|];
    try apply emits_ret.
  apply emits_step.
  apply (emits_bind ["add_text_overlay"] []);
    [apply emits_run_activity | intros ?; apply emits_ret].
Qed.

Lemma emits_rewrite input face video :
  emits (if rewrite_enabled (base input) then ["rewrite_images"; "rewrite_video"] else [])
        (rewrite_step rt input face video).
Proof.
  unfold rewrite_step. destruct (rewrite_enabled (base input)) eqn:Hen; [|apply emits_ret].
  apply emits_step.
  apply (emits_bind ["rewrite_images"] ["rewrite_video"]).
  - unfold maybe_rewrite_image, maybe_rewrite_images. rewrite Hen. cbn [negb orb].
    apply (emits_bind ["rewrite_images"] []).
    + apply (emits_bind ["rewrite_images"] []);
        [apply emits_run_activity | intros ?; apply emits_ret].
    + intros [|u urls]; [apply emits_raise | apply emits_ret].
  - intros face'. apply (emits_bind ["rewrite_video"] []).
    + unfold maybe_rewrite_video. rewrite Hen. cbn [negb].
      apply (emits_bind ["rewrite_video"] []);
        [apply emits_run_activity | intros ?; apply emits_ret].
    + intros ?. apply emits_ret.
Qed.

(** X21. The activities of a run of the sequential pipeline. A run that
    returns has executed, in this order and nothing else: the two prompt
    generations, the image generation, the video generation, the slow
    motion when requested, the text overlay when a text is given, the
    image rewrite and the video rewrite when rewriting is enabled, and
    one upload. A run that raises has executed a prefix of this list:
    nothing is executed after the first activity that fails. *)
Theorem X21_ruby_run_activities (cfg : AppConfig) (input : RubyInput) :
  match run cfg rt input new_world with
  | (inr _, w) => names (executed w) = ruby_activities input
  | (inl _, w) => exists k, names (executed w) = firstn k (ruby_activities input)
  end.
Proof.
  assert (H : emits (ruby_activities input) (run cfg rt input)).
  { unfold run, ruby_activities, prompts_step, face_step, video_step, upload_step,
      upload_output.
    apply (emits_bind []); [apply emits_start|]. intros _.
    apply (emits_bind []); [apply emits_lift|]. intros aspect.
    apply (emits_bind ["generate_ugc_person"; "generate_ugc_video_reaction"]).
    { apply emits_step.
      apply (emits_bind ["generate_ugc_person"] ["generate_ugc_video_reaction"]);
        [apply emits_run_activity|]. intros ?.
      apply (emits_bind ["generate_ugc_video_reaction"] []);
        [apply emits_run_activity | intros ?; apply emits_ret]. }
    intros [enhanced_image_prompt enhanced_video_prompt].
    apply (emits_bind ["generate_image_with_model"]).
    { apply emits_step.
      apply (emits_bind ["generate_image_with_model"] []);
        [apply emits_run_activity | intros ?; apply emits_ret]. }
    intros face_image_url.
    apply (emits_bind ["generate_video_with_model"]).
    { apply emits_step.
      apply (emits_bind ["generate_video_with_model"] []);
        [apply emits_run_activity | intros ?; apply emits_ret]. }
    intros raw_video_url.
    apply emits_bind; [apply emits_slowmo|]. intros slowed_url.
    apply emits_bind; [apply emits_text|]. intros final_video_url.
    apply emits_bind; [apply emits_rewrite|]. intros [face_url video_url].
    apply (emits_bind ["upload_to_storage"] []).
    { apply emits_step.
      apply (emits_bind ["upload_to_storage"] []);
        [apply emits_run_activity | intros ?; apply emits_ret]. }
    intros stored. apply (emits_bind [] []); [apply emits_modify | intros ?; apply emits_ret]. }
  exact (H new_world).
Qed.

End Trace.

(** ** Aspect ratios *)

(** X22. The aspect ratio enumeration and its values correspond one to
    one: a member is found again from its value, a string denotes at
    most one member, and a string that is the value of no member is
    rejected with a ValueError whose message is the repr of the string
    followed by " is not a valid AspectRatio". *)
Theorem X22_aspect_ratio_values (s : string) (a : AspectRatio) :
  AspectRatio_of_value (AspectRatio_value a) = inr a
  /\ (AspectRatio_of_value s = inr a <-> AspectRatio_value a = s)
  /\ (forall e, AspectRatio_of_value s = inl e ->
        (forall b, AspectRatio_value b <> s)
        /\ e = ValueError (repr s ++ " is not a valid AspectRatio")%string).
Proof.
  assert (H1 : forall b, AspectRatio_of_value (AspectRatio_value b) = inr b)
    by (intros b; destruct b; reflexivity).
  split; [apply H1|]. split.
  - split.
    + unfold AspectRatio_of_value.
      destruct (find _ all_aspect_ratios) as [b|] eqn:Hf; [|discriminate].
      intros H. injection H as <-. apply find_some in Hf. apply String.eqb_eq, Hf.
    + intros <-. apply H1.
  - intros e. unfold AspectRatio_of_value.
    destruct (find _ all_aspect_ratios) as [b|] eqn:Hf; [discriminate|].
    intros H. injection H as <-. split; [|reflexivity].
    intros b Hb. assert (Hin : In b all_aspect_ratios).
    { destruct b; cbn; tauto. }
    pose proof (find_none _ _ Hf b Hin) as Hn. cbn beta in Hn.
    rewrite Hb, String.eqb_refl in Hn. discriminate.
Qed.

Lemma X22_aspect_ratio_values_witness :
  AspectRatio_of_value "9:16" = inr PORTRAIT_9_16
  /\ (forall b, AspectRatio_value b <> "it's"%string)
  /\ AspectRatio_of_value "it's"
     = inl (ValueError (dq ++ "it's" ++ dq ++ " is not a valid AspectRatio")%string).
Proof.
  split.
  - apply (proj2 (proj1 (proj2 (X22_aspect_ratio_values "9:16" PORTRAIT_9_16)))).
    reflexivity.
  - destruct (proj2 (proj2 (X22_aspect_ratio_values "it's" SQUARE))
                (ValueError (dq ++ "it's" ++ dq ++ " is not a valid AspectRatio")%string)
                eq_refl) as [Hnone _].
    split; [exact Hnone | reflexivity].
Defined.

(** ** The scraper tool when it does not succeed *)

Section ScraperFailures.
Import Extra PinterestTool.

Variable py_str : value -> string.
Variable validate_str : value -> option string.
Variable validate_optional_str : value -> option (option string).
Variable validate_int : value -> option Z.
Variable validate_optional_int : value -> option (option Z).

(** X23. The scraper tool reports the failures of its request instead
    of raising them: without an API key, and when the request times
    out, is answered with an error status, cannot be sent or is answered
    by something that is not JSON, it returns an output that is marked
    as failed. An output marked as failed has an error text, no pins, a
    total of 0 and the query of the input; an output marked as
    successful has no error text and comes from a JSON response. The
    tool raises only with an API key, on an exception it does not
    handle or on a JSON response of an unexpected shape. *)
Theorem X23_scraper_failures (key : option string)
        (input : GptMarketPinterestScraperInput) (post : post_outcome) :
  (truthy_ostr key = false \/ no_response post = true ->
   exists msg,
     execute py_str validate_str validate_optional_str validate_int
             validate_optional_int key input post
     = inr (failure msg (search_query input)))
  /\ (forall out,
        execute py_str validate_str validate_optional_str validate_int
                validate_optional_int key input post = inr out ->
        if out_success out
        then out_error out = None /\ truthy_ostr key = true
             /\ exists data, post = Json data
        else out_error out <> None /\ pins out = [] /\ total out = 0
             /\ query out = search_query input)
  /\ (forall e,
        execute py_str validate_str validate_optional_str validate_int
                validate_optional_int key input post = inl e ->
        truthy_ostr key = true
        /\ (post = OtherException e \/ exists data, post = Json data)).
Proof.
  unfold execute, failure. split; [|split].
  - intros [Hk|Hp].
    + rewrite Hk. eexists. reflexivity.
    + destruct (negb (truthy_ostr key)); [eexists; reflexivity|].
      destruct post; try discriminate; eexists; reflexivity.
  - intros out. destruct (truthy_ostr key) eqn:Hk; cbn [negb].
    + destruct post as [|code text|e|e| |data];
        try (intros H; injection H as <-; cbn; repeat split; discriminate);
        try discriminate.
      unfold bind_exc.
      destruct (get data "data" (VDict [])) as [e|inner]; [discriminate|].
      destruct (get inner "data" (VDict [])) as [e|pins_data]; [discriminate|].
      destruct (get inner "metadata" (VDict [])) as [e|metadata]; [discriminate|].
      destruct (get pins_data "pins" (VList [])) as [e|raw_pins]; [discriminate|].
      destruct (iterate raw_pins) as [e|raw]; [discriminate|].
      destruct (get metadata "total_pins" _) as [e|total]; [discriminate|].
      destruct (get metadata "search_query" _) as [e|q]; [discriminate|].
      destruct (validate_int total); [|discriminate].
      destruct (validate_str q); [|discriminate].
      intros H. injection H as <-. cbn. repeat split. exists data. reflexivity.
    + intros H. injection H as <-. cbn. repeat split. discriminate.
  - intros e. destruct (truthy_ostr key); cbn [negb]; [|discriminate].
    destruct post as [|code text|e'|e'| |data]; try discriminate.
    + intros H. injection H as <-. split; [reflexivity | left; reflexivity].
    + intros _. split; [reflexivity | right; exists data; reflexivity].
Qed.

End ScraperFailures.

Lemma X23_scraper_failures_witness :
  exists msg,
    PinterestTool.execute Sample.simple_str Sample.strict_str Sample.strict_optional_str
      Sample.strict_int Sample.strict_optional_int None Sample.scraper_input
      (PinterestTool.Json Sample.api_response)
    = inr (PinterestTool.failure msg (PinterestTool.search_query Sample.scraper_input)).
Proof.
  apply (proj1 (X23_scraper_failures Sample.simple_str Sample.strict_str
                  Sample.strict_optional_str Sample.strict_int Sample.strict_optional_int
                  None Sample.scraper_input (PinterestTool.Json Sample.api_response))).
  left. reflexivity.
Defined.

(** ** What the fingerprint tells apart *)

Lemma NoDup_map_injective {A B} (f : A -> B) (l : list A) (x y : A) :
  NoDup (map f l) -> In x l -> In y l -> f x = f y -> x = y.
Proof.
  induction l as [|a l IH]; intros Hnd Hx Hy E; [destruct Hx|].
  cbn [map] in Hnd. inversion Hnd as [|? ? Hn Hl]; subst.
  destruct Hx as [->|Hx], Hy as [->|Hy].
  - reflexivity.
  - exfalso. apply Hn. rewrite E. apply in_map, Hy.
  - exfalso. apply Hn. rewrite <- E. apply in_map, Hx.
  - apply IH; assumption.
Qed.

(** X24. The fingerprint reads the last three segments of the url and
    the dimensions only. So of the candidates that agree on these, for
    instance the same picture served under two paths of the CDN, at
    most one is selected: two selected images that agree on the last
    three url segments, the width and the height are the same image. *)
Theorem X24_selection_distinct_tails (keywords : list string) (pins : list Slideshows.pin)
        (i j : Slideshows.PinterestImage) :
  In i (Slideshows._select_best_images keywords pins) ->
  In j (Slideshows._select_best_images keywords pins) ->
  last_n 3 (split "/" (Slideshows.image_url i))
  = last_n 3 (split "/" (Slideshows.image_url j)) ->
  oint_or (Slideshows.image_width i) 0 = oint_or (Slideshows.image_width j) 0 ->
  oint_or (Slideshows.image_height i) 0 = oint_or (Slideshows.image_height j) 0 ->
  i = j.
Proof.
  intros Hi Hj Hu Hw Hh.
  destruct (select_best_images_spec keywords pins) as (Hnd & _).
  apply (NoDup_map_injective Spec.fingerprint_prefix _ i j Hnd Hi Hj).
  unfold Spec.fingerprint_prefix, Spec.image_fingerprint. cbv zeta.
  rewrite Hu, Hw, Hh. reflexivity.
Qed.

Lemma X24_selection_distinct_tails_witness :
  Slideshows.to_image Sample.sunset = Slideshows.to_image Sample.sunset
  /\ ~ In (Slideshows.to_image Sample.sunset_copy)
         (Slideshows._select_best_images Slideshows._UNWANTED_IMAGE_KEYWORDS
            Sample.candidates).
Proof.
  assert (Hsun : In (Slideshows.to_image Sample.sunset)
                    (Slideshows._select_best_images Slideshows._UNWANTED_IMAGE_KEYWORDS
                       Sample.candidates)).
  { vm_compute. left. reflexivity. }
  split.
  - apply (X24_selection_distinct_tails Slideshows._UNWANTED_IMAGE_KEYWORDS
             Sample.candidates (Slideshows.to_image Sample.sunset)
             (Slideshows.to_image Sample.sunset) Hsun Hsun); reflexivity.
  - intros Hin.
    assert (E : Slideshows.to_image Sample.sunset = Slideshows.to_image Sample.sunset_copy).
    { apply (X24_selection_distinct_tails Slideshows._UNWANTED_IMAGE_KEYWORDS
               Sample.candidates (Slideshows.to_image Sample.sunset)
               (Slideshows.to_image Sample.sunset_copy) Hsun Hin); reflexivity. }
    discriminate E.
Defined.

(** ** What selection keeps and in which order *)

Section Complete.
Import Extra Slideshows Spec.

Variable keywords : list string.

Lemma select_loop_all (scored : list (Q * pin)) :
  forall selected hashes,
    NoDup (map (str_prefix 4) hashes
           ++ map (fun x => str_prefix 4 (_compute_image_hash (snd x))) scored) ->
    (length selected + length scored <= _NUM_IMAGES_TO_RETURN)%nat ->
    fst (select_loop scored selected hashes)
    = selected ++ map to_image (map snd scored).
Proof.
  induction scored as [|[score p] rest IH]; intros selected hashes Hnd Hlen;
    cbn [select_loop map snd].
  - rewrite app_nil_r. reflexivity.
  - cbn [length] in Hlen.
    destruct (Nat.leb_spec _NUM_IMAGES_TO_RETURN (length selected)) as [Hfull|_]; [lia|].
    cbn [map snd] in Hnd.
    destruct (_is_too_similar (_compute_image_hash p) hashes) eqn:Hsim.
    + exfalso. apply too_similar_iff in Hsim.
      apply NoDup_remove_2 in Hnd. apply Hnd. apply in_or_app. left. exact Hsim.
    + rewrite IH.
      * rewrite <- app_assoc. reflexivity.
      * rewrite map_app, <- app_assoc. exact Hnd.
      * rewrite length_app. cbn [length]. lia.
Qed.

Lemma scored_carry_scores (pins : list pin) :
  Forall (fun x => fst x = _score_pin keywords (snd x)) (scored_pins_of keywords pins).
Proof.
  unfold scored_pins_of. apply Forall_forall. intros x Hx.
  assert (Hin : In x (dedup_and_score keywords pins [])).
  { eapply Permutation_in; [apply sort_desc_perm | exact Hx]. }
  pose proof (dedup_scores keywords pins []) as Hs.
  rewrite Forall_forall in Hs. apply Hs, Hin.
Qed.

Lemma subsequence_sorted {A} (R : A -> A -> Prop) (l1 l2 : list A) :
  subsequence l1 l2 -> StronglySorted R l2 -> StronglySorted R l1.
Proof.
  induction 1 as [|x l1 l2 Hs IH|x l1 l2 Hs IH]; intros Hsorted.
  - constructor.
  - inversion Hsorted as [|? ? Hl Hx]; subst. constructor; [apply IH, Hl|].
    apply Forall_forall. intros y Hy. rewrite Forall_forall in Hx.
    apply Hx. eapply subsequence_in; eassumption.
  - inversion Hsorted; subst. apply IH. assumption.
Qed.

Lemma ranked_pins_sorted (l : list (Q * pin)) :
  StronglySorted score_ge l ->
  Forall (fun x => fst x = _score_pin keywords (snd x)) l ->
  StronglySorted (fun p q => (_score_pin keywords q <= _score_pin keywords p)%Q)
                 (map snd l).
Proof.
  induction 1 as [|x l Hl IH Hx]; intros Hs; cbn [map].
  - constructor.
  - inversion Hs as [|? ? Ex El]; subst. constructor; [apply IH, El|].
    apply Forall_forall. intros q Hq. apply in_map_iff in Hq.
    destruct Hq as (y & <- & Hy).
    rewrite Forall_forall in Hx, El. specialize (Hx y Hy). unfold score_ge in Hx.
    rewrite <- Ex, <- (El y Hy). exact Hx.
Qed.

(** X25. Selection drops a ranked candidate for two reasons only, a
    fingerprint close to one of a better candidate and a full quota.
    When the ranked candidates are at most 25 and their fingerprints
    differ pairwise in the first four characters, every one of them is
    selected, in the order of the ranking. *)
Theorem X25_selection_keeps_all (pins : list pin) :
  NoDup (map (fun x => str_prefix 4 (_compute_image_hash (snd x)))
             (scored_pins_of keywords pins)) ->
  (length (scored_pins_of keywords pins) <= _NUM_IMAGES_TO_RETURN)%nat ->
  _select_best_images keywords pins
  = map to_image (map snd (scored_pins_of keywords pins)).
Proof.
  intros Hnd Hlen. unfold _select_best_images.
  rewrite select_loop_all; [reflexivity | exact Hnd | exact Hlen].
Qed.

(** X26. The selected images are returned best first: they are built,
    in order, from candidates of the ranking taken in the order of the
    ranking, and the scores of these candidates do not increase along
    the list. *)
Theorem X26_selection_best_first (pins : list pin) :
  exists chosen,
    _select_best_images keywords pins = map to_image chosen
    /\ subsequence chosen (map snd (scored_pins_of keywords pins))
    /\ StronglySorted
         (fun p q => (_score_pin keywords q <= _score_pin keywords p)%Q) chosen.
Proof.
  destruct (select_best_images_spec keywords pins) as (_ & _ & (chosen & Hsel & Hsub) & _).
  exists chosen. split; [exact Hsel|]. split; [exact Hsub|].
  eapply subsequence_sorted; [exact Hsub|].
  apply ranked_pins_sorted; [apply sort_desc_sorted | apply scored_carry_scores].
Qed.

End Complete.

Lemma X25_selection_keeps_all_witness :
  Slideshows._select_best_images Slideshows._UNWANTED_IMAGE_KEYWORDS
    [Sample.forest; Sample.sunset; Sample.lake]
  = map Slideshows.to_image
      (map snd (Slideshows.scored_pins_of Slideshows._UNWANTED_IMAGE_KEYWORDS
                  [Sample.forest; Sample.sunset; Sample.lake])).
Proof.
  apply (X25_selection_keeps_all Slideshows._UNWANTED_IMAGE_KEYWORDS
           [Sample.forest; Sample.sunset; Sample.lake]).
  - vm_compute. repeat constructor; cbn; intros H;
      repeat (destruct H as [H|H]; [discriminate|]); exact H.
  - vm_compute. repeat constructor.
Defined.
